(** * Pixie: query-compiler IR graph, cron-script service and deployment
    generator -- a shallow embedding and its verified properties.

    Sources embedded here:
    - [src/carnot/compiler/ir/ir_nodes.h]  (C++: [IR], [IRNode] and the node classes)
    - the cron-script store service          (Go: [Server])
    - the skaffold deployment generator      (Go: [main], [parseArgs], ...)

    Conventions.  A C++ [int64_t] is a [Z] together with the two's-complement
    wrap-around [wrap64] applied at every addition the source performs.  A
    pointer to a node owned by a graph is the node's id in that graph's
    [id_node_map_]; the address of a graph ([this]) is a [Z].  A
    [StatusOr<T>] is the sum type [StatusOr T].  A member function of [IR]
    changes the graph in place, also when it returns an error: it is a
    function from the graph to its result and the graph it leaves. *)

From stdpp Require Import gmap strings list fin_maps.
From Stdlib Require Import ZArith Lia Ascii String.

Local Open Scope string_scope.
Local Open Scope list_scope.
Local Open Scope Z_scope.

(** ** 64-bit signed integers *)

Definition INT64_MIN : Z := - 2 ^ 63.
Definition INT64_MAX : Z := 2 ^ 63 - 1.

Definition in_int64 (z : Z) : Prop := INT64_MIN <= z <= INT64_MAX.

(** Two's-complement reduction of an unbounded integer into [int64_t]. *)
Definition wrap64 (z : Z) : Z := (z + 2 ^ 63) mod 2 ^ 64 - 2 ^ 63.

Definition int64_add (a b : Z) : Z := wrap64 (a + b).

(** ** Status and StatusOr *)

Inductive StatusCode :=
| OK | INVALID_ARGUMENT | NOT_FOUND | UNIMPLEMENTED | INTERNAL.

Record Status := mkStatus { code : StatusCode; msg : string }.

Definition Status_OK : Status := mkStatus OK "".

Module error.
Definition Unimplemented (m : string) : Status := mkStatus UNIMPLEMENTED m.
Definition Internal (m : string) : Status := mkStatus INTERNAL m.
Definition InvalidArgument (m : string) : Status := mkStatus INVALID_ARGUMENT m.
End error.

Inductive StatusOr (A : Type) : Type :=
| Ok (a : A)
| Err (s : Status).
Arguments Ok {A} a.
Arguments Err {A} s.

Definition bindS {A B} (x : StatusOr A) (f : A -> StatusOr B) : StatusOr B :=
  match x with
  | Ok a => f a
  | Err s => Err s
  end.

(** [PL_ASSIGN_OR_RETURN(x, e); rest] and [PL_RETURN_IF_ERROR(e); rest] are
    written [x ← e; rest] through stdpp's monad notations. *)
#[global] Instance StatusOr_ret : MRet StatusOr := fun A a => Ok a.
#[global] Instance StatusOr_bind : MBind StatusOr := fun A B f x => bindS x f.

#[global] Instance StatusCode_eq_dec : EqDecision StatusCode.
Proof. solve_decision. Defined.

(** ** Node type tags: [enum class IRNodeType] *)

Inductive IRNodeType :=
| kAny
| kMemorySource | kMemorySink | kMap | kDrop | kBlockingAgg | kFilter | kLimit
| kString | kUInt128 | kFloat | kInt | kBool | kFunc | kList | kTuple | kColumn
| kTime | kMetadata | kMetadataResolver | kMetadataLiteral
| kGRPCSourceGroup | kGRPCSource | kGRPCSink | kUnion | kJoin
| kTabletSourceGroup | kGroupBy | kUDTFSource
| number_of_types.

#[global] Instance IRNodeType_eq_dec : EqDecision IRNodeType.
Proof. solve_decision. Defined.

(** [kIRNodeStrings], indexed by the enumerator.  [kAny] (-1) and
    [number_of_types] index outside the table. *)
Definition TypeString (t : IRNodeType) : option string :=
  match t with
  | kMemorySource => Some "MemorySource" | kMemorySink => Some "MemorySink"
  | kMap => Some "Map" | kDrop => Some "Drop"
  | kBlockingAgg => Some "BlockingAgg" | kFilter => Some "Filter"
  | kLimit => Some "Limit" | kString => Some "String"
  | kUInt128 => Some "UInt128Value" | kFloat => Some "Float"
  | kInt => Some "Int" | kBool => Some "Bool" | kFunc => Some "Func"
  | kList => Some "List" | kTuple => Some "Tuple" | kColumn => Some "Column"
  | kTime => Some "Time" | kMetadata => Some "Metadata"
  | kMetadataResolver => Some "MetadataResolver"
  | kMetadataLiteral => Some "MetadataLiteral"
  | kGRPCSourceGroup => Some "GRPCSourceGroup" | kGRPCSource => Some "GRPCSource"
  | kGRPCSink => Some "GRPCSink" | kUnion => Some "Union" | kJoin => Some "Join"
  | kTabletSourceGroup => Some "TabletSourceGroup" | kGroupBy => Some "GroupBy"
  | kUDTFSource => Some "UDTFSource"
  | kAny | number_of_types => None
  end.

(** The classes deriving from [OperatorIR] ([IsOperator() == true]). *)
Definition IsOperator (t : IRNodeType) : bool :=
  match t with
  | kMemorySource | kMemorySink | kMap | kDrop | kBlockingAgg | kFilter
  | kLimit | kMetadataResolver | kGRPCSourceGroup | kGRPCSource | kGRPCSink
  | kUnion | kJoin | kTabletSourceGroup | kGroupBy | kUDTFSource => true
  | _ => false
  end.

(** The classes deriving from [ExpressionIR] ([IsExpression() == true]). *)
Definition IsExpression (t : IRNodeType) : bool :=
  match t with
  | kString | kUInt128 | kFloat | kInt | kBool | kFunc | kList | kTuple
  | kColumn | kTime | kMetadata | kMetadataLiteral => true
  | _ => false
  end.

(** ** [absl::Substitute] and ASCII helpers *)

Definition digit_of (c : ascii) : option nat :=
  let n := nat_of_ascii c in
  if (48 <=? n)%nat && (n <=? 57)%nat then Some (n - 48)%nat else None.

(** [absl::Substitute(format, args...)]: [$N] is replaced by the N-th
    argument and [$$] by a dollar sign. *)
Fixpoint Substitute (format : string) (args : list string) : string :=
  match format with
  | EmptyString => EmptyString
  | String c rest =>
    if Ascii.eqb c "$"%char then
      match rest with
      | EmptyString => String c EmptyString
      | String d rest' =>
        match digit_of d with
        | Some n => nth n args EmptyString +:+ Substitute rest' args
        | None =>
          if Ascii.eqb d "$"%char then String "$" (Substitute rest' args)
          else String c (String d (Substitute rest' args))
        end
      end
    else String c (Substitute rest args)
  end.

(** [absl::ascii_tolower] on one character. *)
Definition ascii_tolower (c : ascii) : ascii :=
  let n := nat_of_ascii c in
  if (65 <=? n)%nat && (n <=? 90)%nat then ascii_of_nat (n + 32) else c.

(** [absl::AsciiStrToLower(&s)]. *)
Fixpoint AsciiStrToLower (s : string) : string :=
  match s with
  | EmptyString => EmptyString
  | String c rest => String (ascii_tolower c) (AsciiStrToLower rest)
  end.

(** ** IR nodes

    [IRNode] holds the members of the C++ base class.  The members of the
    concrete classes (the per-variant attributes) are the type parameter
    [Attrs]; the operand nodes a node points to ([FuncIR::args_],
    [CollectionIR::children_], the expressions of a [MapIR], ...) are
    [operands_], a list of node ids.  [line_] and [col_] have no initialiser
    in the source; they are 0 here until [SetLineCol]. *)

Record Ast := mkAst { ast_line : Z; ast_column : Z }.

Record IRNode {Attrs : Type} := mkIRNode {
  type_ : IRNodeType;
  id_ : Z;
  line_ : Z;
  col_ : Z;
  graph_ptr_ : Z;
  line_col_set_ : bool;
  attrs_ : Attrs;
  operands_ : list Z
}.
Arguments IRNode : clear implicits.
Arguments mkIRNode {Attrs}.

(** The out-of-line members the header only declares and every variant
    shares: the default-constructed attributes of a class and
    [IRNode::DebugString]. *)
Class IRNodeImpl (Attrs : Type) := {
  default_attrs : IRNodeType -> Attrs;
  DebugString : IRNode Attrs -> string
}.

Section Nodes.
Context {Attrs : Type} `{!IRNodeImpl Attrs}.

(** [std::make_unique<TOperator>(id)]: the constructor chain
    [TOperator(id) : ... IRNode(id, type)]. *)
Definition make_unique (T : IRNodeType) (id : Z) : IRNode Attrs :=
  mkIRNode T id 0 0 0 false (default_attrs T) [].

Definition SetGraphPtr (graph_ptr : Z) (n : IRNode Attrs) : IRNode Attrs :=
  mkIRNode (type_ n) (id_ n) (line_ n) (col_ n) graph_ptr (line_col_set_ n)
           (attrs_ n) (operands_ n).

(** Modelled from the spec: [IRNode::SetLineCol(const pypa::AstPtr&)] is
    defined out of line; node creation "stamps its source position when
    derived from parsed input". *)
Definition SetLineCol (ast : Ast) (n : IRNode Attrs) : IRNode Attrs :=
  mkIRNode (type_ n) (id_ n) (ast_line ast) (ast_column ast) (graph_ptr_ n) true
           (attrs_ n) (operands_ n).

Definition type_string (n : IRNode Attrs) : string :=
  default EmptyString (TypeString (type_ n)).

End Nodes.

(** ** The DAG

    Modelled from the spec: [plan::DAG] ([src/carnot/plan/dag.h]) is not
    among the sources.  The spec gives the graph "a directed edge set", with
    "every node id referenced by an edge" existing, and "a parent/child pair
    has at most one edge".  Edges are kept as a list so that a repeated edge
    is representable. *)
Module plan.

Record DAG := mkDAG { nodes_ : gset Z; edges_ : list (Z * Z) }.

Definition empty : DAG := mkDAG ∅ [].

Definition AddNode (d : DAG) (node : Z) : DAG :=
  mkDAG ({[node]} ∪ nodes_ d) (edges_ d).

Definition HasNode (d : DAG) (node : Z) : bool := bool_decide (node ∈ nodes_ d).

Definition HasEdge (d : DAG) (from_node to_node : Z) : bool :=
  bool_decide ((from_node, to_node) ∈ edges_ d).

Definition AddEdge (d : DAG) (from_node to_node : Z) : DAG :=
  mkDAG (nodes_ d) (edges_ d ++ [(from_node, to_node)]).

Definition DeleteEdge (d : DAG) (from_node to_node : Z) : DAG :=
  mkDAG (nodes_ d) (filter (fun e => e <> (from_node, to_node)) (edges_ d)).

(** Removes the node "together with every edge touching it". *)
Definition DeleteNode (d : DAG) (node : Z) : DAG :=
  mkDAG (nodes_ d ∖ {[node]})
        (filter (fun e => e.1 <> node /\ e.2 <> node) (edges_ d)).

End plan.

(** ** The graph: [class IR] *)

Record IR {Attrs : Type} := mkIR {
  this_ : Z;
  dag_ : plan.DAG;
  id_node_map_ : gmap Z (IRNode Attrs);
  id_node_counter : Z
}.
Arguments IR : clear implicits.
Arguments mkIR {Attrs}.

(** [std::unordered_map::emplace]: nothing is inserted when the key is
    already present. *)
Definition emplace {V} (k : Z) (v : V) (m : gmap Z V) : gmap Z V :=
  match m !! k with
  | Some _ => m
  | None => <[k := v]> m
  end.

(** A node reached through a [const IRNode*] together with the operand nodes
    its members point to: the part of the source graph a copy reads.  Two
    occurrences with the same id stand for the same source node. *)
#[local] Unset Elimination Schemes.
Inductive Source {Attrs : Type} :=
| SourceNode (n : IRNode Attrs) (operands : list Source).
#[local] Set Elimination Schemes.
Arguments Source : clear implicits.

Definition source_node {Attrs} (s : Source Attrs) : IRNode Attrs :=
  match s with SourceNode n _ => n end.
Definition source_operands {Attrs} (s : Source Attrs) : list (Source Attrs) :=
  match s with SourceNode _ ops => ops end.
Definition source_id {Attrs} (s : Source Attrs) : Z := id_ (source_node s).

(** A member function of [IR] returning [StatusOr<A>]: the graph is changed
    in place and stays changed when an error is returned. *)
Definition GraphM (Attrs A : Type) : Type := IR Attrs -> StatusOr A * IR Attrs.

#[global] Instance GraphM_ret {Attrs} : MRet (GraphM Attrs) := fun A a g => (Ok a, g).
#[global] Instance GraphM_bind {Attrs} : MBind (GraphM Attrs) := fun A B f m g =>
  match m g with
  | (Ok a, g') => f a g'
  | (Err s, g') => (Err s, g')
  end.

Section Graph.
Context {Attrs : Type} `{!IRNodeImpl Attrs}.

#[local] Abbreviation IRNode := (IRNode Attrs).
#[local] Abbreviation IR := (IR Attrs).
#[local] Abbreviation Source := (Source Attrs).
#[local] Abbreviation GraphM := (GraphM Attrs).

(** A freshly constructed graph at address [addr]. *)
Definition IR_new (addr : Z) : IR := mkIR addr plan.empty ∅ 0.

(** [IR::MakeNode<TOperator>(int64_t id, const pypa::AstPtr& ast)].  The
    returned raw pointer is the node's id. *)
Definition MakeNode (T : IRNodeType) (id : Z) (ast : option Ast) : GraphM Z :=
  fun g =>
  let counter := Z.max (int64_add id 1) (id_node_counter g) in
  let node := make_unique T id in
  let dag := plan.AddNode (dag_ g) (id_ node) in
  let node := SetGraphPtr (this_ g) node in
  let node := match ast with Some a => SetLineCol a node | None => node end in
  (Ok (id_ node),
   mkIR (this_ g) dag (emplace (id_ node) node (id_node_map_ g)) counter).

(** [IR::MakeNode<TOperator>(const pypa::AstPtr& ast)] *)
Definition MakeNode_ast (T : IRNodeType) (ast : option Ast) : GraphM Z :=
  fun g => MakeNode T (id_node_counter g) ast g.

(** [IR::MakeNode<TOperator>(int64_t id)] *)
Definition MakeNode_id (T : IRNodeType) (id : Z) : GraphM Z :=
  MakeNode T id None.

(** Modelled from the spec: [IR::MakeNodeWithType] is defined out of line.
    It dispatches on the type tag to [MakeNode<T>(new_node_id)]; the two
    enumerators that are not node classes give an error. *)
Definition MakeNodeWithType (node_type : IRNodeType) (new_node_id : Z) : GraphM Z :=
  match node_type with
  | kAny | number_of_types =>
    fun g => (Err (error.Internal "Received unknown IRNode type"), g)
  | T => MakeNode_id T new_node_id
  end.

Definition HasNode (g : IR) (node_id : Z) : bool := plan.HasNode (dag_ g) node_id.

(** Modelled from the spec: [IR::HasEdge] is defined out of line. *)
Definition HasEdge (g : IR) (from_node to_node : Z) : bool :=
  plan.HasEdge (dag_ g) from_node to_node.

(** Modelled from the spec: [IR::AddEdge] is defined out of line.  "Adding an
    edge between a parent and a child that are already connected is
    disallowed as a direct duplicate", and a "dangling id reference" is an
    internal invariant violation. *)
Definition AddEdge (from_node to_node : Z) : GraphM unit :=
  fun g =>
  if HasEdge g from_node to_node then
    (Err (error.Internal "duplicate edge"), g)
  else if negb (HasNode g from_node && HasNode g to_node) then
    (Err (error.Internal "dangling id reference"), g)
  else
    (Ok tt, mkIR (this_ g) (plan.AddEdge (dag_ g) from_node to_node)
                 (id_node_map_ g) (id_node_counter g)).

(** Modelled from the spec: [IR::DeleteEdge] is defined out of line. *)
Definition DeleteEdge (from_node to_node : Z) : GraphM unit :=
  fun g =>
  if HasEdge g from_node to_node then
    (Ok tt, mkIR (this_ g) (plan.DeleteEdge (dag_ g) from_node to_node)
                 (id_node_map_ g) (id_node_counter g))
  else (Err (error.Internal "edge does not exist"), g).

(** Modelled from the spec: [IR::DeleteNode] is defined out of line; a node
    goes "together with every edge touching it", and "referencing a
    nonexistent id is an error". *)
Definition DeleteNode (node : Z) : GraphM unit :=
  fun g =>
  if HasNode g node then
    (Ok tt, mkIR (this_ g) (plan.DeleteNode (dag_ g) node)
                 (delete node (id_node_map_ g)) (id_node_counter g))
  else (Err (error.Internal "node does not exist"), g).

(** [IR::Get] *)
Definition Get (g : IR) (id : Z) : option IRNode := id_node_map_ g !! id.

(** Assignment to members of the node behind a pointer. *)
Definition update_node (node : Z) (f : IRNode -> IRNode) : GraphM unit :=
  fun g => (Ok tt, mkIR (this_ g) (dag_ g) (alter f node (id_node_map_ g))
                        (id_node_counter g)).

(** Modelled from the spec: the base [IRNode::CopyFromNode] is defined out of
    line; it carries the source position over before the per-class
    [CopyFromNodeImpl] runs. *)
Definition copy_position (source n : IRNode) : IRNode :=
  mkIRNode (type_ n) (id_ n) (line_ source) (col_ source) (graph_ptr_ n)
           (line_col_set_ source) (attrs_ n) (operands_ n).

Definition set_attrs (a : Attrs) (n : IRNode) : IRNode :=
  mkIRNode (type_ n) (id_ n) (line_ n) (col_ n) (graph_ptr_ n)
           (line_col_set_ n) a (operands_ n).

Definition push_operand (op : Z) (n : IRNode) : IRNode :=
  mkIRNode (type_ n) (id_ n) (line_ n) (col_ n) (graph_ptr_ n)
           (line_col_set_ n) (attrs_ n) (operands_ n ++ [op]).

(** Attaching an operand to the node [node], the way
    [BlockingAggIR::AddGroup] does it: push the pointer, then add the edge. *)
Definition AddOperand (node op : Z) : GraphM unit :=
  update_node node (push_operand op);;
  AddEdge node op.

(** [TabletSourceGroupIR::CopyFromNodeImpl] *)
Definition TabletSourceGroup_CopyFromNodeImpl {A} (self : Z) : GraphM A :=
  fun g =>
  (Err (error.Unimplemented
          (Substitute "$0::CopyFromNode not implemented because no use found for it yet."
                      [from_option DebugString EmptyString (Get g self)])),
   g).

(** The loop of a [CopyFromNodeImpl] over the operand pointers of the source:
    each operand is copied through [CopyNode] (here [copy_node]) with the
    shared map, and attached to the copy. *)
Definition copy_operands
    (copy_node : Source -> gmap Z Z -> GraphM (gmap Z Z * Z))
    (new_node : Z)
  : list Source -> gmap Z Z -> GraphM (gmap Z Z) :=
  fix go (operands : list Source) (copied_nodes_map : gmap Z Z) : GraphM (gmap Z Z) :=
    match operands with
    | [] => mret copied_nodes_map
    | op :: rest =>
      r ← copy_node op copied_nodes_map;
      AddOperand new_node r.2;;
      go rest r.1
    end.

(** Modelled from the spec: [new_node->CopyFromNode(source, map)].  Only
    [TabletSourceGroupIR::CopyFromNodeImpl] is in the header; for the other
    classes "copying a node (and recursively, anything reachable from it that
    has not already been copied in the current top-level copy operation,
    tracked via a source→copy map) preserves all per-variant attributes". *)
Definition CopyFromNode
    (copy_node : Source -> gmap Z Z -> GraphM (gmap Z Z * Z))
    (new_node : Z) (source : IRNode) (operands : list Source)
    (copied_nodes_map : gmap Z Z) : GraphM (gmap Z Z) :=
  update_node new_node (copy_position source);;
  match type_ source with
  | kTabletSourceGroup => TabletSourceGroup_CopyFromNodeImpl new_node
  | _ =>
    update_node new_node (set_attrs (attrs_ source));;
    copy_operands copy_node new_node operands copied_nodes_map
  end.

(** [IR::CopyNode(const TIRNodeType* source, copied_nodes_map)]; the result
    is the map as the call leaves it and the pointer returned.  The map is
    keyed by the id of the source node: all sources of one top-level copy
    belong to one graph, where ids and node pointers correspond. *)
Fixpoint CopyNode (source : Source) (copied_nodes_map : gmap Z Z) {struct source}
  : GraphM (gmap Z Z * Z) :=
  match source with
  | SourceNode n operands =>
    match copied_nodes_map !! id_ n with
    | Some copy => mret (copied_nodes_map, copy)
    | None =>
      fun g =>
      let new_node_id :=
        if bool_decide (this_ g = graph_ptr_ n) then id_node_counter g else id_ n in
      (new_node ← MakeNodeWithType (type_ n) new_node_id;
       copied_nodes_map ← CopyFromNode CopyNode new_node n operands copied_nodes_map;
       mret (emplace (id_ n) new_node copied_nodes_map, new_node)) g
    end
  end.

(** [IR::CopyNode(const TIRNodeType* source)] *)
Definition CopyNode1 (source : Source) : GraphM Z :=
  r ← CopyNode source ∅;
  mret r.2.

(** [IR::OptionallyCloneWithEdge(IRNode* parent, TChildType* child)] *)
Definition OptionallyCloneWithEdge (parent : Z) (child : Source) : GraphM Z :=
  fun g =>
  (returned_child ←
     (if HasEdge g parent (source_id child) then CopyNode1 child
      else mret (source_id child));
   AddEdge parent returned_child;;
   mret returned_child) g.

(** The node [n] with its operands, read out of the graph [g]. *)
#[local] Unset Elimination Schemes.
Inductive views (g : IR) : Source -> Prop :=
| views_node n operands :
    id_node_map_ g !! id_ n = Some n ->
    operands_ n = map source_id operands ->
    Forall (views g) operands ->
    views g (SourceNode n operands).
#[local] Set Elimination Schemes.

(** Node creations, as a caller issues them. *)
Inductive Creation :=
| CreateFresh (T : IRNodeType) (ast : option Ast)
| CreateWithId (T : IRNodeType) (id : Z) (ast : option Ast).

Definition create (c : Creation) : GraphM Z :=
  match c with
  | CreateFresh T ast => MakeNode_ast T ast
  | CreateWithId T id ast => MakeNode T id ast
  end.

(** Runs the creations in order; returns the ids of the created nodes, in
    order. *)
Fixpoint create_all (cs : list Creation) : GraphM (list Z) :=
  match cs with
  | [] => mret []
  | c :: rest =>
    id ← create c;
    ids ← create_all rest;
    mret (id :: ids)
  end.

(** The calls that change a graph. *)
Inductive Call :=
| CallMakeNode (T : IRNodeType) (id : Z) (ast : option Ast)
| CallMakeNode_ast (T : IRNodeType) (ast : option Ast)
| CallAddEdge (from_node to_node : Z)
| CallDeleteEdge (from_node to_node : Z)
| CallDeleteNode (node : Z)
| CallCopyNode (source : Source) (copied_nodes_map : gmap Z Z)
| CallOptionallyCloneWithEdge (parent : Z) (child : Source).

(** The graph a call leaves, whether it succeeds or not. *)
Definition after_call (c : Call) (g : IR) : IR :=
  match c with
  | CallMakeNode T id ast => (MakeNode T id ast g).2
  | CallMakeNode_ast T ast => (MakeNode_ast T ast g).2
  | CallAddEdge a b => (AddEdge a b g).2
  | CallDeleteEdge a b => (DeleteEdge a b g).2
  | CallDeleteNode n => (DeleteNode n g).2
  | CallCopyNode s m => (CopyNode s m g).2
  | CallOptionallyCloneWithEdge p c => (OptionallyCloneWithEdge p c g).2
  end.

(** The graph states reachable from a freshly constructed graph. *)
Inductive reachable : IR -> Prop :=
| reachable_new addr : reachable (IR_new addr)
| reachable_call g c : reachable g -> reachable (after_call c g).

End Graph.

(** ** Plan serialization of operators: [OperatorIR::ToProto] *)

Module planpb.

(** Modelled from the spec: the plan messages ([planpb::Operator]) are not
    among the sources.  "Each Operator variant contributes its own
    plan-operator encoding"; the encoding is kept abstract: a written
    message records the variant that wrote it and the attributes it wrote. *)
Record Operator {Attrs : Type} := mkOperator {
  op_variant : IRNodeType;
  op_attrs : Attrs
}.
Arguments Operator : clear implicits.
Arguments mkOperator {Attrs}.

End planpb.

Section ToProto.
Context {Attrs : Type} `{!IRNodeImpl Attrs}.

(** [MetadataResolverIR::ToProto] *)
Definition MetadataResolverIR_ToProto (n : IRNode Attrs)
    (op_pb : option (planpb.Operator Attrs)) : Status * option (planpb.Operator Attrs) :=
  (error.Unimplemented
     (Substitute "Calling ToProto on $0, which lacks a Protobuf representation."
                 [type_string n]),
   op_pb).

(** [GroupByIR::ToProto] *)
Definition GroupByIR_ToProto (n : IRNode Attrs)
    (op_pb : option (planpb.Operator Attrs)) : Status * option (planpb.Operator Attrs) :=
  (error.Unimplemented "ToProto not implemented.", op_pb).

(** [TabletSourceGroupIR::ToProto] *)
Definition TabletSourceGroupIR_ToProto (n : IRNode Attrs)
    (op_pb : option (planpb.Operator Attrs)) : Status * option (planpb.Operator Attrs) :=
  (error.Unimplemented
     (Substitute "$0::ToProto not implemented because no use found for it yet."
                 [DebugString n]),
   op_pb).

(** Modelled from the spec: the [ToProto] members the header declares and
    defines out of line (MemorySource, MemorySink, Map, Drop, BlockingAgg,
    Filter, Limit, GRPCSink, GRPCSource, GRPCSourceGroup, Union, Join,
    UDTFSource): "each Operator variant contributes its own plan-operator
    encoding". *)
Definition declared_ToProto (n : IRNode Attrs)
    (op_pb : option (planpb.Operator Attrs)) : Status * option (planpb.Operator Attrs) :=
  (Status_OK, Some (planpb.mkOperator (type_ n) (attrs_ n))).

(** Virtual dispatch of [OperatorIR::ToProto] (on a [planpb::Operator] message) on the
    dynamic type of the node; expressions have no such member. *)
Definition ToProto (n : IRNode Attrs) (op_pb : option (planpb.Operator Attrs))
  : option (Status * option (planpb.Operator Attrs)) :=
  match type_ n with
  | kMetadataResolver => Some (MetadataResolverIR_ToProto n op_pb)
  | kGroupBy => Some (GroupByIR_ToProto n op_pb)
  | kTabletSourceGroup => Some (TabletSourceGroupIR_ToProto n op_pb)
  | kMemorySource | kMemorySink | kMap | kDrop | kBlockingAgg | kFilter
  | kLimit | kGRPCSourceGroup | kGRPCSource | kGRPCSink | kUnion | kJoin
  | kUDTFSource => Some (declared_ToProto n op_pb)
  | _ => None
  end.

(** An operator variant has no plan encoding when serializing any node of
    that variant into any message fails with [UNIMPLEMENTED] and leaves the
    message as it was. *)
Definition no_plan_encoding (T : IRNodeType) : Prop :=
  forall (n : IRNode Attrs) op_pb, type_ n = T ->
    exists m, ToProto n op_pb = Some (error.Unimplemented m, op_pb).

End ToProto.

(** ** [class TimeIR] *)

Module TimeIR.

Record t := mk {
  id : Z;
  val_ : Z        (* int64_t val_ *)
}.

(** [bool val() const { return val_ != 0; }] *)
Definition val (n : t) : bool := negb (val_ n =? 0)%Z.

End TimeIR.

(** ** [class MetadataProperty] (static members) *)

(** [metadatapb::MetadataType] is generated from a proto file that is not
    among the sources: the enum, its [UPID] enumerator and the generated
    [MetadataType_Name] are taken as given. *)
Class MetadataTypeEnum (MetadataType : Type) := {
  UPID : MetadataType;
  MetadataType_Name : MetadataType -> string;
  MetadataType_eq_dec :: EqDecision MetadataType
}.

Module MetadataProperty.

Definition kMetadataColumnPrefix : string := "_attr_".
Definition kUniquePIDColumn : string := "upid".

(** [FormatMetadataColumn(const std::string_view col_name)] *)
Definition FormatMetadataColumn_name (col_name : string) : string :=
  Substitute "$0$1" [kMetadataColumnPrefix; col_name].

Section WithEnum.
Context {MetadataType : Type} `{!MetadataTypeEnum MetadataType}.

Definition GetMetadataString (metadata_type : MetadataType) : string :=
  if decide (metadata_type = UPID) then kUniquePIDColumn
  else AsciiStrToLower (MetadataType_Name metadata_type).

(** [FormatMetadataColumn(metadatapb::MetadataType metadata_type)] *)
Definition FormatMetadataColumn (metadata_type : MetadataType) : string :=
  if decide (metadata_type = UPID) then kUniquePIDColumn
  else FormatMetadataColumn_name (GetMetadataString metadata_type).

End WithEnum.
End MetadataProperty.

(** ** [class JoinIR] (the join-type members) *)

Module JoinIR.

Inductive JoinType := kLeft | kRight | kOuter | kInner.

#[global] Instance JoinType_eq_dec : EqDecision JoinType.
Proof. solve_decision. Defined.

Record t := mk {
  join_type_ : JoinType;
  suffix_strs_ : list string;
  specified_as_right_ : bool
}.

Definition join_type (j : t) : JoinType := join_type_ j.
Definition specified_as_right (j : t) : bool := specified_as_right_ j.

(** [Status SetJoinType(JoinType join_type)] *)
Definition SetJoinType (join_type : JoinType) (j : t) : Status * t :=
  (Status_OK, mk join_type (suffix_strs_ j) (specified_as_right_ j)).

(** [Status SetJoinType(const std::string& join_type)].  The private
    [GetJoinEnum] is defined out of line and is a parameter here. *)
Definition SetJoinType_string (GetJoinEnum : t -> string -> StatusOr JoinType)
    (join_type : string) (j : t) : Status * t :=
  match GetJoinEnum j join_type with
  | Err s => (s, j)
  | Ok jt =>
    let j := mk jt (suffix_strs_ j) (specified_as_right_ j) in
    let j := if decide (join_type_ j = kRight)
             then mk (join_type_ j) (suffix_strs_ j) true else j in
    (Status_OK, j)
  end.

(** Modelled from the spec: a [GetJoinEnum] for the four join kinds the spec
    names ("left/right/outer/inner"); any other string is an error. *)
Definition GetJoinEnum_names (j : t) (join_type : string) : StatusOr JoinType :=
  if decide (join_type = "inner") then Ok kInner
  else if decide (join_type = "left") then Ok kLeft
  else if decide (join_type = "outer") then Ok kOuter
  else if decide (join_type = "right") then Ok kRight
  else Err (error.InvalidArgument
              (Substitute "'$0' join type not supported." [join_type])).

End JoinIR.

(** * The cron-script store service (Go, package [cronscript]) *)

Module cronscript.

(** What the service takes from other packages: the script message with its
    [ID] field (a possibly nil [*uuidpb.UUID]), [utils.UUIDFromProtoOrNil]
    and [uuid.UUID.String].  Scripts are handled by value; a Go [error] is a
    value of type [E], [nil] being [None]. *)
Class Messages (CronScript ProtoUUID UUID : Type) := {
  ID : CronScript -> option ProtoUUID;
  UUIDFromProtoOrNil : option ProtoUUID -> UUID;
  UUID_String : UUID -> string
}.

(** [type Store interface].  An implementation owns some state [St], which
    every call may read and change. *)
Record Store {CronScript UUID E St : Type} := mkStore {
  GetCronScripts : St -> (list CronScript * option E) * St;
  UpsertCronScript : CronScript -> St -> option E * St;
  DeleteCronScript : UUID -> St -> option E * St;
  SetCronScripts : list CronScript -> St -> option E * St
}.
Arguments Store : clear implicits.
Arguments mkStore {CronScript UUID E St}.

(** [type Server struct]: the store, and whether the [done] channel has been
    closed. *)
Record Server {CronScript UUID E St : Type} := mkServer {
  ds : Store CronScript UUID E St;
  done_closed : bool
}.
Arguments Server : clear implicits.
Arguments mkServer {CronScript UUID E St}.

(** Request and response messages. *)
Record GetScriptsResponse {CronScript : Type} :=
  mkGetScriptsResponse { Scripts : gmap string CronScript }.
Arguments GetScriptsResponse : clear implicits.
Arguments mkGetScriptsResponse {CronScript}.

Record AddOrUpdateScriptRequest {CronScript : Type} :=
  mkAddOrUpdateScriptRequest { Script : CronScript }.
Arguments AddOrUpdateScriptRequest : clear implicits.
Arguments mkAddOrUpdateScriptRequest {CronScript}.

Record DeleteScriptRequest {ProtoUUID : Type} :=
  mkDeleteScriptRequest { ScriptID : option ProtoUUID }.
Arguments DeleteScriptRequest : clear implicits.
Arguments mkDeleteScriptRequest {ProtoUUID}.

(** [SetScriptsRequest.Scripts] is a Go map; [req_Scripts] lists its entries
    in the order the [range] loop happens to visit them. *)
Record SetScriptsRequest {CronScript : Type} :=
  mkSetScriptsRequest { req_Scripts : list (string * CronScript) }.
Arguments SetScriptsRequest : clear implicits.
Arguments mkSetScriptsRequest {CronScript}.

Inductive AddOrUpdateScriptResponse := mkAddOrUpdateScriptResponse.
Inductive DeleteScriptResponse := mkDeleteScriptResponse.
Inductive SetScriptsResponse := mkSetScriptsResponse.

Section Service.
Context {CronScript ProtoUUID UUID E St : Type}.
Context `{!Messages CronScript ProtoUUID UUID}.

#[local] Abbreviation Server := (Server CronScript UUID E St).

(** [func New(ds Store) *Server] *)
Definition New (ds : Store CronScript UUID E St) : Server := mkServer ds false.

(** [func (s *Server) Stop()]: [once.Do] closes [done] the first time only. *)
Definition Stop (s : Server) : Server :=
  if done_closed s then s else mkServer (ds s) true.

(** The loop [for _, s := range scripts { scMap[id.String()] = s }]. *)
Definition scMap_of (scripts : list CronScript) : gmap string CronScript :=
  foldl (fun scMap s =>
           let id := UUIDFromProtoOrNil (ID s) in
           <[UUID_String id := s]> scMap)
        ∅ scripts.

(** [func (s *Server) GetScripts(ctx, req)]; the result is the pair
    (response pointer, error) the Go function returns. *)
Definition GetScripts (s : Server) (st : St)
  : (option (GetScriptsResponse CronScript) * option E) * St :=
  let '((scripts, err), st) := GetCronScripts (ds s) st in
  match err with
  | Some e => ((None, Some e), st)
  | None => ((Some (mkGetScriptsResponse (scMap_of scripts)), None), st)
  end.

(** [func (s *Server) AddOrUpdateScript(ctx, req)] *)
Definition AddOrUpdateScript (s : Server)
    (req : AddOrUpdateScriptRequest CronScript) (st : St)
  : (option AddOrUpdateScriptResponse * option E) * St :=
  let '(err, st) := UpsertCronScript (ds s) (Script req) st in
  match err with
  | Some e => ((None, Some e), st)
  | None => ((Some mkAddOrUpdateScriptResponse, None), st)
  end.

(** [func (s *Server) DeleteScript(ctx, req)] *)
Definition DeleteScript (s : Server) (req : DeleteScriptRequest ProtoUUID)
    (st : St) : (option DeleteScriptResponse * option E) * St :=
  let '(err, st) := DeleteCronScript (ds s) (UUIDFromProtoOrNil (ScriptID req)) st in
  match err with
  | Some e => ((None, Some e), st)
  | None => ((Some mkDeleteScriptResponse, None), st)
  end.

(** [func (s *Server) SetScripts(ctx, req)] *)
Definition SetScripts (s : Server) (req : SetScriptsRequest CronScript) (st : St)
  : (option SetScriptsResponse * option E) * St :=
  let scripts := foldl (fun scripts kv => scripts ++ [kv.2]) [] (req_Scripts req) in
  let '(err, st) := SetCronScripts (ds s) scripts st in
  ((Some mkSetScriptsResponse, err), st).

End Service.
End cronscript.

(** * The deployment configuration generator (Go, package [main]) *)

Module deploy.

(** A Go [error], by its message. *)
Definition error := string.

Inductive Level := InfoLevel | ErrorLevel | FatalLevel.

(** The calls that reach outside the process. *)
Inductive Op :=
| GetStdinInput (prompt : string)
| FindBazelWorkspaceRoot
| MkdirAll (path : string)
| Walk (root : string)
| ReadFile (filename : string)
| UnmarshalText (text : string)
| Create (name : string)
| ParseFiles (filename : string)
| Execute (templateFile out : string)
| Close (name : string)
| FileExists (name : string)
| Chdir (dir : string)
| RunCmd (cmd : string).

(** What an observer of the process sees, in order: log lines (with the
    error attached by [WithError]), text printed, and every outside call
    with the error it returned, if any. *)
Inductive Event :=
| Log (lvl : Level) (msg : string) (err : option error)
| Printf (text : string)
| Did (op : Op) (err : option error).

(** [pb.ServiceConfig]: the [Deployment] field the code reads; the other
    fields are opaque. *)
Record ServiceConfig := mkServiceConfig { Deployment : string; other_fields : string }.

(** [type serviceConfigExt struct] *)
Record serviceConfigExt := mkServiceConfigExt {
  ServiceConfig_ : ServiceConfig;
  BuildDir : string
}.

(** What [os.Lstat] and the directory listing show below a path. *)
#[local] Unset Elimination Schemes.
Inductive FsNode :=
| FsFile (name : string)
| FsDir (name : string) (entries : list FsNode)
| FsLstatError (name : string) (err : error)
| FsReadDirError (name : string) (err : error).
#[local] Set Elimination Schemes.

Definition fs_name (n : FsNode) : string :=
  match n with
  | FsFile name | FsDir name _ | FsLstatError name _ | FsReadDirError name _ => name
  end.

Definition fs_is_dir (n : FsNode) : bool :=
  match n with
  | FsDir _ _ | FsReadDirError _ _ => true
  | _ => false
  end.

(** The world the process runs in.  Every outside call is answered from the
    events so far, so an answer may change from one call to the next.  The
    pure path and string functions of the Go library whose results only
    name files are fields too. *)
Record World := mkWorld {
  command_line : option (string -> option string);
  environ : string -> option string;
  stdin_input : list (string + error);
  find_bazel_workspace_root : list Event -> string + error;
  mkdir_all : list Event -> string -> option error;
  lstat : list Event -> string -> FsNode;
  read_file : list Event -> string -> string + error;
  unmarshal_text : string -> ServiceConfig + error;
  create : list Event -> string -> option error;
  parse_files : list Event -> string -> option error;
  execute : list Event -> string -> serviceConfigExt -> option error;
  close : list Event -> string -> option error;
  file_exists : list Event -> string -> bool;
  chdir : list Event -> string -> option error;
  run_cmd : list Event -> string -> option error;
  path_Join : list string -> string;
  path_Dir : string -> string;
  strings_Replace : string -> string -> string -> string
}.

(** How a Go function call ends: it returns, the process exits
    ([os.Exit] under [log.Fatal]), it panics, or it waits for input that
    never comes. *)
Inductive Outcome (A : Type) :=
| Return (a : A)
| Exit (status : Z)
| Panic (msg : string)
| Blocked.
Arguments Return {A} a.
Arguments Exit {A} status.
Arguments Panic {A} msg.
Arguments Blocked {A}.

(** The process: the events so far and the input not yet read. *)
Record Proc := mkProc { trace : list Event; stdin : list (string + error) }.

Definition M (A : Type) : Type := Proc -> Outcome A * Proc.

#[global] Instance M_ret : MRet M := fun A a p => (Return a, p).
#[global] Instance M_bind : MBind M := fun A B f m p =>
  match m p with
  | (Return a, p') => f a p'
  | (Exit s, p') => (Exit s, p')
  | (Panic s, p') => (Panic s, p')
  | (Blocked, p') => (Blocked, p')
  end.

Definition emit (e : Event) : M unit :=
  fun p => (Return tt, mkProc (trace p ++ [e]) (stdin p)).

(** An outside call: its answer is read off the world and the call is
    recorded together with the error in the answer. *)
Definition call {R} (op : Op) (answer : list Event -> R) (err_of : R -> option error)
  : M R :=
  fun p => let r := answer (trace p) in
           (Return r, mkProc (trace p ++ [Did op (err_of r)]) (stdin p)).

Definition os_Exit {A} (status : Z) : M A := fun p => (Exit status, p).

Definition panic {A} (msg : string) : M A := fun p => (Panic msg, p).

(** [log.Fatal], [log.WithError(err).Fatalf]: log, then [os.Exit(1)]. *)
Definition log_Fatal {A} (msg : string) (err : option error) : M A :=
  emit (Log FatalLevel msg err);; os_Exit 1.

Definition err_of_sum {A} (r : A + error) : option error :=
  match r with inl _ => None | inr e => Some e end.

(** ** Library functions with a bearing on control flow *)

Definition dquote : string := String (ascii_of_nat 34) EmptyString.
Definition newline : string := String (ascii_of_nat 10) EmptyString.

(** [path.Ext], [filepath.Ext]: the suffix beginning at the final dot in the
    final slash-separated element. *)
Fixpoint ext_aux (s : string) : option string * bool :=
  match s with
  | EmptyString => (None, false)
  | String c rest =>
    let '(e, slash) := ext_aux rest in
    if slash then (e, true)
    else if Ascii.eqb c "/" then (e, true)
    else match e with
         | Some _ => (e, false)
         | None => if Ascii.eqb c "." then (Some s, false) else (None, false)
         end
  end.

Definition Ext (path : string) : string := default EmptyString (ext_aux path).1.

Definition ascii_toupper (c : ascii) : ascii :=
  let n := nat_of_ascii c in
  if (97 <=? n)%nat && (n <=? 122)%nat then ascii_of_nat (n - 32) else c.

Fixpoint ToUpper (s : string) : string :=
  match s with
  | EmptyString => EmptyString
  | String c rest => String (ascii_toupper c) (ToUpper rest)
  end.

(** [strings.ToLower], on ASCII. *)
Definition ToLower (s : string) : string := AsciiStrToLower s.

(** [cast.ToBool] on a string: [strconv.ParseBool], errors giving false. *)
Definition ToBool (s : string) : bool :=
  bool_decide (s ∈ ["1"; "t"; "T"; "TRUE"; "true"; "True"]).

(** ** viper, after [AutomaticEnv], [SetEnvPrefix("PL")] and [BindPFlags]:
    a flag given on the command line wins, then a non-empty environment
    variable [PL_<KEY>], then the default of the flag. *)
Section Viper.
Variable w : World.

Definition viper_find (key default_value : string) : string :=
  match from_option (fun cl => cl key) None (command_line w) with
  | Some v => v
  | None =>
    match environ w (ToUpper ("PL_" +:+ key)) with
    | Some v => if decide (v = EmptyString) then default_value else v
    | None => default_value
    end
  end.

Definition viper_GetString (key : string) : string := viper_find key "".
Definition viper_GetBool (key : string) : bool := ToBool (viper_find key "false").

End Viper.

(** ** The program *)

Section Program.
Variable w : World.

(** [func parseArgs()].  [pflag.Parse] exits with status 2 when the command
    line does not parse. *)
Definition parseArgs : M unit :=
  match command_line w with
  | None => os_Exit 2
  | Some _ =>
    (if decide (viper_GetString w "build_dir" = "") then
       log_Fatal "Flag --build_dir is required. Please specify build_dir as an argument. Refer to the usage menu (-h) for more help." None
     else mret tt);;
    (if viper_GetBool w "prod" && viper_GetBool w "staging" then
       log_Fatal "Flags --prod and --staging can only be used exclusively. Please remove one to specify the environment" None
     else mret tt)
  end.

(** The [for] loop of [getConfirmationForPush]: one round per line of input. *)
Fixpoint confirmation_loop (env : string) (input : list (string + error))
  : M bool :=
  fun p =>
  let prompt := "Are you sure you want to push to " +:+ env +:+ "? [Y/n] " in
  match input with
  | [] => (Blocked, p)
  | answer :: rest =>
    let p := mkProc (trace p ++ [Did (GetStdinInput prompt) (err_of_sum answer)]) rest in
    match answer with
    | inr err => log_Fatal "Reading StdIn failed" (Some err) p
    | inl confirmation =>
      let confirmation := ToLower confirmation in
      if decide (confirmation = "y") then (Return true, p)
      else if decide (confirmation = "n") then (Return false, p)
      else
        (emit (Printf ("Entered " +:+ dquote +:+ confirmation +:+ dquote
                       +:+ ". Please only use " +:+ dquote +:+ "y" +:+ dquote
                       +:+ " or " +:+ dquote +:+ "n" +:+ dquote +:+ "." +:+ newline));;
         confirmation_loop env rest) p
    end
  end.

(** [func getConfirmationForPush(env string) bool] *)
Definition getConfirmationForPush (env : string) : M bool :=
  if decide (env = "dev") then mret true
  else fun p => confirmation_loop env (stdin p) p.

(** The callback [findTemplateFiles] hands to [filepath.Walk]: [None] is
    [nil], [Some None] is [filepath.SkipDir], [Some (Some e)] another error. *)
Definition walkFn (path : string) (info : option (string * bool))
    (err : option error) (templateFiles : list string)
  : list string * option (option error) :=
  match err with
  | Some e => (templateFiles, Some (Some e))
  | None =>
    match info with
    | Some (name, is_dir) =>
      if is_dir && bool_decide (name = "vendor") then (templateFiles, Some None)
      else if decide (Ext path = ".tmpl") then (templateFiles ++ [path], None)
      else (templateFiles, None)
    | None => (templateFiles, None)
    end
  end.

(** [filepath.Walk]'s recursive [walk], with the [Lstat] that precedes it,
    running [walkFn]. *)
Fixpoint walk (path : string) (node : FsNode) (templateFiles : list string)
  : list string * option (option error) :=
  match node with
  | FsLstatError _ err => walkFn path None (Some err) templateFiles
  | FsFile name => walkFn path (Some (name, false)) None templateFiles
  | FsReadDirError name err => walkFn path (Some (name, true)) (Some err) templateFiles
  | FsDir name entries =>
    let '(templateFiles, err1) := walkFn path (Some (name, true)) None templateFiles in
    match err1 with
    | Some e => (templateFiles, Some e)
    | None =>
      (fix loop (entries : list FsNode) (templateFiles : list string) :=
         match entries with
         | [] => (templateFiles, None)
         | entry :: rest =>
           let filename := path +:+ "/" +:+ fs_name entry in
           let '(templateFiles, err) := walk filename entry templateFiles in
           match err with
           | None => loop rest templateFiles
           | Some None =>
             match entry with
             | FsFile _ => (templateFiles, Some None)
             | _ => loop rest templateFiles
             end
           | Some (Some e) => (templateFiles, Some (Some e))
           end
         end) entries templateFiles
    end
  end.

(** [filepath.Walk(root, walkFn)]: [SkipDir] at the root is not an error. *)
Definition filepath_Walk (root : string) (node : FsNode) (templateFiles : list string)
  : list string * option error :=
  let '(templateFiles, err) := walk root node templateFiles in
  (templateFiles, mjoin err).

(** [func findTemplateFiles(pathsToSearch []string) []string] *)
Fixpoint findTemplateFiles_loop (pathsToSearch : list string)
    (templateFiles : list string) : M (list string) :=
  match pathsToSearch with
  | [] => mret templateFiles
  | curPath :: rest =>
    emit (Log InfoLevel ("Searching " +:+ curPath) None);;
    r ← call (Walk curPath)
             (fun h => filepath_Walk curPath (lstat w h curPath) templateFiles)
             snd;
    (match r.2 with
     | Some err =>
       emit (Log ErrorLevel ("Error on findTemplateFiles while searching " +:+ curPath)
                 (Some err))
     | None => mret tt
     end);;
    findTemplateFiles_loop rest r.1
  end.

Definition findTemplateFiles (pathsToSearch : list string) : M (list string) :=
  findTemplateFiles_loop pathsToSearch [].

(** [func checkEnvironment() bool] *)
Definition checkEnvironment : M bool :=
  let environ :=
    if viper_GetBool w "prod" then "prod"
    else if viper_GetBool w "staging" then "staging"
    else "dev" in
  confirmed ← getConfirmationForPush environ;
  if negb confirmed then
    emit (Log ErrorLevel ("Not confirmed for " +:+ environ +:+ ". Exiting.") None);;
    mret false
  else mret true.

(** [func loadConfig(configFile, buildDir string) serviceConfigExt] *)
Definition loadConfig (configFile buildDir : string) : M serviceConfigExt :=
  r ← call FindBazelWorkspaceRoot (find_bazel_workspace_root w) err_of_sum;
  match r with
  | inr err => log_Fatal "WORKSPACE directory could not be found" (Some err)
  | inl totPath =>
    let localBuildDir := strings_Replace w buildDir totPath "" in
    r ← call (ReadFile configFile) (fun h => read_file w h configFile) err_of_sum;
    match r with
    | inr err => log_Fatal ("Cannot read config file: " +:+ configFile) (Some err)
    | inl configBuf =>
      r ← call (UnmarshalText configBuf) (fun _ => unmarshal_text w configBuf) err_of_sum;
      match r with
      | inr err => log_Fatal "Cannot Unmarshal protobuf." (Some err)
      | inl pbServiceConfig => mret (mkServiceConfigExt pbServiceConfig localBuildDir)
      end
    end
  end.

(** [func generateServiceConfigs(templateFiles, buildDir, totPath, config)] *)
Fixpoint generateServiceConfigs (templateFiles : list string)
    (buildDir totPath : string) (config : serviceConfigExt) : M unit :=
  match templateFiles with
  | [] => mret tt
  | templateFile :: rest =>
    let ext := Ext templateFile in
    let yamlOutputFile :=
      substring 0 (String.length templateFile - String.length ext) templateFile
      +:+ "_" +:+ Deployment (ServiceConfig_ config) +:+ ".yaml" in
    let yamlOutputFile :=
      path_Join w [buildDir; strings_Replace w yamlOutputFile totPath ""] in
    let outputPath := path_Dir w yamlOutputFile in
    call (MkdirAll outputPath) (fun h => mkdir_all w h outputPath) id;;
    err ← call (Create yamlOutputFile) (fun h => create w h yamlOutputFile) id;
    (match err with
     | Some err => log_Fatal ("Could not create " +:+ yamlOutputFile) (Some err)
     | None => mret tt
     end);;
    err ← call (ParseFiles templateFile) (fun h => parse_files w h templateFile) id;
    (match err with
     | Some err => panic err
     | None => mret tt
     end);;
    err ← call (Execute templateFile yamlOutputFile)
               (fun h => execute w h templateFile config) id;
    (match err with
     | Some err =>
       log_Fatal "Could not create service yaml for skaffold (template error)" (Some err)
     | None => mret tt
     end);;
    err ← call (Close yamlOutputFile) (fun h => close w h yamlOutputFile) id;
    (match err with
     | Some err => log_Fatal ("Cannot close output file: " +:+ yamlOutputFile) (Some err)
     | None => mret tt
     end);;
    generateServiceConfigs rest buildDir totPath config
  end.

(** [func startSkaffold(buildDir, workspaceDir string)] *)
Definition startSkaffold (buildDir workspaceDir : string) : M unit :=
  let skaffoldSubCmd :=
    if viper_GetBool w "prod" || viper_GetBool w "staging" then "run" else "dev" in
  let environ := if viper_GetBool w "prod" then "prod" else "dev" in
  let skaffoldFile := path_Join w [buildDir; "skaffold/skaffold_" +:+ environ +:+ ".yaml"] in
  exists_ ← call (FileExists skaffoldFile) (fun h => file_exists w h skaffoldFile)
                 (fun _ => None);
  if (exists_ : bool) then
    let skaffoldCmd := "skaffold " +:+ skaffoldSubCmd +:+ " -f " +:+ skaffoldFile in
    call (Chdir workspaceDir) (fun h => chdir w h workspaceDir) id;;
    err ← call (RunCmd skaffoldCmd) (fun h => run_cmd w h skaffoldCmd) id;
    match err with
    | Some err =>
      log_Fatal ("Error starting skaffold with cmd " +:+ dquote +:+ skaffoldCmd
                 +:+ dquote +:+ ".") (Some err)
    | None => mret tt
    end
  else
    log_Fatal ("Can't find skaffold file " +:+ skaffoldFile +:+ ". Skaffold cannot run") None.

(** [func main()] *)
Definition main : M unit :=
  parseArgs;;
  let buildDir := viper_GetString w "build_dir" in
  r ← call FindBazelWorkspaceRoot (find_bazel_workspace_root w) err_of_sum;
  match r with
  | inr err => log_Fatal "WORKSPACE directory could not be found" (Some err)
  | inl totPath =>
    environValid ← checkEnvironment;
    if negb environValid then mret tt
    else
      call (MkdirAll buildDir) (fun h => mkdir_all w h buildDir) id;;
      let servicesDir := path_Join w [totPath; "services"] in
      let skaffoldDir := path_Join w [totPath; "skaffold"] in
      let dirsToTemplate := [skaffoldDir; servicesDir] in
      templateFiles ← findTemplateFiles dirsToTemplate;
      let configEnviron := if viper_GetBool w "prod" then "prod" else "dev" in
      let configFile :=
        path_Join w [totPath; "templates/skaffold/skaffold_service_config_"
                               +:+ configEnviron +:+ ".pbtxt"] in
      config ← loadConfig configFile buildDir;
      generateServiceConfigs templateFiles buildDir totPath config;;
      startSkaffold buildDir totPath
  end.

(** The run of the process from its start. *)
Definition run : Outcome unit * Proc := main (mkProc [] (stdin_input w)).

End Program.

End deploy.

(** * Specification vocabulary

    The predicates the properties below are stated with. *)

(** ** Source trees *)

(** The nodes of a source tree, root first, and their ids. *)
Fixpoint tree_nodes {Attrs} (s : Source Attrs) : list (IRNode Attrs) :=
  match s with
  | SourceNode n operands => n :: List.concat (List.map tree_nodes operands)
  end.

Definition tree_ids {Attrs} (s : Source Attrs) : list Z := id_ <$> tree_nodes s.

(** The type tags of the node classes [CopyFromNode] can copy. *)
Definition copyable_type (T : IRNodeType) : Prop :=
  T <> kAny /\ T <> number_of_types /\ T <> kTabletSourceGroup.

(** A source tree that unfolds a piece of a DAG in which no
    TabletSourceGroup occurs: the operands of a node are distinct nodes, and
    no node is among its own descendants. *)
#[local] Unset Elimination Schemes.
Inductive copyable {Attrs} : Source Attrs -> Prop :=
| copyable_node n operands :
    copyable_type (type_ n) ->
    NoDup (source_id <$> operands) ->
    id_ n ∉ List.concat (tree_ids <$> operands) ->
    Forall copyable operands ->
    copyable (SourceNode n operands).
#[local] Set Elimination Schemes.

(** ** Consistent graphs and copies *)

Section GraphSpecs.
Context {Attrs : Type} `{!IRNodeImpl Attrs}.

#[local] Abbreviation IRNode := (IRNode Attrs).
#[local] Abbreviation IR := (IR Attrs).
#[local] Abbreviation Source := (Source Attrs).

(** A graph in a consistent state: every node is filed under its own id,
    points back to the graph and has an id below the counter; the DAG knows
    exactly the nodes of the map; edges join nodes of the graph, and no edge
    occurs twice. *)
Record wf (g : IR) : Prop := mk_wf {
  wf_nodes : forall id n, id_node_map_ g !! id = Some n ->
               id_ n = id /\ graph_ptr_ n = this_ g /\ id < id_node_counter g;
  wf_dag : forall id, id ∈ plan.nodes_ (dag_ g) <-> is_Some (id_node_map_ g !! id);
  wf_edges : forall a b, (a, b) ∈ plan.edges_ (dag_ g) ->
               is_Some (id_node_map_ g !! a) /\ is_Some (id_node_map_ g !! b);
  wf_nodup : NoDup (plan.edges_ (dag_ g));
  wf_counter : in_int64 (id_node_counter g)
}.

(** [g'] is [g] with more nodes and with more edges starting at the added
    nodes: the nodes and edges of [g] are left as they were. *)
Record extends (g g' : IR) : Prop := mk_extends {
  ext_this : this_ g' = this_ g;
  ext_nodes : forall id n, id_node_map_ g !! id = Some n -> id_node_map_ g' !! id = Some n;
  ext_edges : forall e, e ∈ plan.edges_ (dag_ g) -> e ∈ plan.edges_ (dag_ g');
  ext_new_edges : forall a b, (a, b) ∈ plan.edges_ (dag_ g') ->
                    (a, b) ∈ plan.edges_ (dag_ g) \/ id_node_map_ g !! a = None;
  ext_counter : id_node_counter g <= id_node_counter g'
}.

(** The map of a copy in progress sends distinct sources to distinct copies,
    and every copy it names is a node of the graph. *)
Definition Minj (m : gmap Z Z) : Prop :=
  forall k1 k2 v, m !! k1 = Some v -> m !! k2 = Some v -> k1 = k2.

Definition Mrange (m : gmap Z Z) (g : IR) : Prop :=
  forall k v, m !! k = Some v -> is_Some (id_node_map_ g !! v).

(** Whether the sources are nodes of the destination graph itself. *)
Definition mode (same : bool) (g : IR) (n : IRNode) : Prop :=
  bool_decide (this_ g = graph_ptr_ n) = same.

(** The ids the copies will take are free and representable: within one
    graph the counter has room for them; across graphs the ids of the
    sources not copied yet are not taken in the destination. *)
Definition room (same : bool) (ids : list Z) (m : gmap Z Z) (g : IR) : Prop :=
  if same then id_node_counter g + Z.of_nat (List.length ids) <= INT64_MAX
  else forall id, id ∈ ids ->
         INT64_MIN <= id < INT64_MAX /\
         (m !! id = None -> id_node_map_ g !! id = None).

(** Two states of one node that differ in the operand list at most. *)
Definition same_but_operands (n n' : IRNode) : Prop :=
  type_ n' = type_ n /\ id_ n' = id_ n /\ line_ n' = line_ n /\ col_ n' = col_ n /\
  graph_ptr_ n' = graph_ptr_ n /\ line_col_set_ n' = line_col_set_ n /\
  attrs_ n' = attrs_ n.

(** What a copy into [g] with map [m] leaves: the graph [g'] and map [m']. *)
Record copied (same : bool) (ids : list Z) (m : gmap Z Z) (g : IR)
    (m' : gmap Z Z) (g' : IR) : Prop := mk_copied {
  cp_wf : wf g';
  cp_sub : m ⊆ m';
  cp_inj : Minj m';
  cp_range : Mrange m' g';
  cp_keys : forall k, m !! k = None -> is_Some (m' !! k) -> k ∈ ids;
  cp_values : forall k v, m !! k = None -> m' !! k = Some v ->
                id_node_map_ g !! v = None /\ (same = false -> v = k);
  cp_nodes : forall id, id_node_map_ g !! id = None -> is_Some (id_node_map_ g' !! id) ->
               exists k, m !! k = None /\ m' !! k = Some id;
  cp_counter : same = true ->
               id_node_counter g' <= id_node_counter g + Z.of_nat (List.length ids)
}.

(** The copy [c] of the source [n] with operands [operands]. *)
Definition is_copy (same : bool) (n : IRNode) (operands : list Source)
    (m' : gmap Z Z) (g g' : IR) (c : Z) : Prop :=
  c = (if same then id_node_counter g else id_ n) /\
  id_node_map_ g !! c = None /\
  exists n', id_node_map_ g' !! c = Some n' /\
    type_ n' = type_ n /\ id_ n' = c /\ graph_ptr_ n' = this_ g /\
    line_ n' = line_ n /\ col_ n' = col_ n /\ line_col_set_ n' = line_col_set_ n /\
    attrs_ n' = attrs_ n /\
    Forall2 (fun op c' => m' !! source_id op = Some c') operands (operands_ n').

Definition copy_spec (same : bool) (s : Source) : Prop :=
  forall m g,
    wf g -> Forall (mode same g) (tree_nodes s) ->
    Minj m -> Mrange m g -> room same (tree_ids s) m g ->
    exists m' c g',
      CopyNode s m g = (Ok (m', c), g') /\
      extends g g' /\
      copied same (tree_ids s) m g m' g' /\
      m' !! source_id s = Some c /\
      (m !! source_id s = None ->
       is_copy same (source_node s) (source_operands s) m' g g' c).

(** The freshly created node after the two assignments of [CopyFromNode]. *)
Definition copy_start (n : IRNode) (g : IR) (N : Z) : IRNode :=
  set_attrs (attrs_ n)
    (copy_position n (SetGraphPtr (this_ g) (make_unique (type_ n) N))).

(** The call leaves no edge twice if there was none, whether it succeeds or
    fails. *)
Definition keeps_edges_distinct {A} (f : GraphM Attrs A) : Prop :=
  forall g, NoDup (plan.edges_ (dag_ g)) -> NoDup (plan.edges_ (dag_ (f g).2)).

End GraphSpecs.

(** ** The cron-script service *)

Section ScriptKey.
Context {CronScript ProtoUUID UUID : Type}.
Context {msgs : cronscript.Messages CronScript ProtoUUID UUID}.

(** The key [GetScripts] files a script under. *)
Definition script_key (sc : CronScript) : string :=
  cronscript.UUID_String (cronscript.UUIDFromProtoOrNil (cronscript.ID sc)).

End ScriptKey.

(** ** Runs of the deployment generator *)

(** The outside calls whose error the program checks itself, dying on it
    through [log.Fatal].  Of the others, the error of [MkdirAll] and [Chdir]
    is dropped, that of [Walk] is only logged, and that of [ParseFiles] goes
    to [template.Must]. *)
Definition checked (op : deploy.Op) : bool :=
  match op with
  | deploy.MkdirAll _ | deploy.Walk _ | deploy.Chdir _ | deploy.ParseFiles _ => false
  | _ => true
  end.

(** A stretch of events the program lives through: a failed call in it is a
    failed [Walk] directly followed by its error-level log line, or a failed
    [MkdirAll] or [Chdir]. *)
Definition tolerated (tr : list deploy.Event) : Prop :=
  forall i op e, tr !! i = Some (deploy.Did op (Some e)) ->
    match op with
    | deploy.Walk root =>
      tr !! S i = Some (deploy.Log deploy.ErrorLevel
                          ("Error on findTemplateFiles while searching " +:+ root)
                          (Some e))
    | deploy.MkdirAll _ | deploy.Chdir _ => True
    | _ => False
    end.

(** How a function call can end, in terms of the events it added. *)
Inductive ending {A : Type} : deploy.Outcome A -> list deploy.Event -> Prop :=
| ending_return a tr : tolerated tr -> ending (deploy.Return a) tr
| ending_blocked tr : tolerated tr -> ending deploy.Blocked tr
| ending_usage tr : tolerated tr -> ending (deploy.Exit 2) tr
| ending_fatal tr msg :
    tolerated tr ->
    ending (deploy.Exit 1) (tr ++ [deploy.Log deploy.FatalLevel msg None])
| ending_fatal_error tr op e msg :
    tolerated tr -> checked op = true ->
    ending (deploy.Exit 1)
           (tr ++ [deploy.Did op (Some e); deploy.Log deploy.FatalLevel msg (Some e)])
| ending_panic tr f e :
    tolerated tr ->
    ending (deploy.Panic e) (tr ++ [deploy.Did (deploy.ParseFiles f) (Some e)]).

Definition safe {A} (m : deploy.M A) : Prop :=
  forall p, exists tr, deploy.trace (m p).2 = deploy.trace p ++ tr /\ ending (m p).1 tr.

(** [m] logs a fatal line carrying [e] and exits with status 1. *)
Definition dies_with {A} (e : deploy.error) (m : deploy.M A) : Prop :=
  exists msg, forall p,
    m p = (deploy.Exit 1,
           deploy.mkProc (deploy.trace p ++ [deploy.Log deploy.FatalLevel msg (Some e)])
                         (deploy.stdin p)).

(** * Sample data for concrete runs *)

(** Sample attributes for concrete runs: a node carries one integer. *)
#[local] Instance sample_impl : IRNodeImpl Z := {|
  default_attrs := fun _ => 0;
  DebugString := fun n => default "" (TypeString (type_ n))
|}.

(** A function node (id 0) with one operand, the integer literal 42 (id 1). *)
Definition sample_g1 : IR Z := (MakeNode_ast kFunc None (IR_new 0)).2.
Definition sample_g2 : IR Z := (MakeNode_ast kInt None sample_g1).2.
Definition sample_g3 : IR Z := (update_node 1 (set_attrs 42) sample_g2).2.
Definition sample_graph : IR Z := (AddOperand 0 1 sample_g3).2.

Definition sample_child : Source Z :=
  SourceNode (mkIRNode kInt 1 0 0 0 false 42 []) [].

(** A union node (id 0) with an edge to a TabletSourceGroup node (id 1). *)
Definition tablet_graph : IR Z :=
  (AddEdge 0 1 (MakeNode_ast kTabletSourceGroup None
                  (MakeNode_ast kUnion None (IR_new 0)).2).2).2.

Definition tablet_child : Source Z :=
  SourceNode (mkIRNode kTabletSourceGroup 1 0 0 0 false 0 []) [].

(** An integer literal owned by another graph (at address 7), under id 5. *)
Definition foreign_literal : Source Z :=
  SourceNode (mkIRNode kInt 5 3 14 7 true 42 []) [].

(** A sample of the generated enum, for concrete runs. *)
Inductive SampleMetadataType := POD_ID | POD_NAME | SERVICE_NAME | SAMPLE_UPID.

#[local] Instance SampleMetadataType_eq_dec : EqDecision SampleMetadataType.
Proof. solve_decision. Defined.

#[local] Instance SampleMetadataType_enum : MetadataTypeEnum SampleMetadataType := {|
  UPID := SAMPLE_UPID;
  MetadataType_Name := fun t =>
    match t with
    | POD_ID => "POD_ID" | POD_NAME => "POD_NAME"
    | SERVICE_NAME => "SERVICE_NAME" | SAMPLE_UPID => "UPID"
    end
|}.

(** A sample store for concrete runs: scripts are (UUID string, body) pairs
    kept in a list; the store fails with a fixed error when told to. *)
Record SampleStoreState := mkSampleStoreState {
  stored : list (string * string);
  failing : option string
}.

#[local] Instance sample_messages : cronscript.Messages (string * string) string string := {|
  cronscript.ID := fun sc => if decide (sc.1 = "") then None else Some sc.1;
  cronscript.UUIDFromProtoOrNil := fun id =>
    default "00000000-0000-0000-0000-000000000000" id;
  cronscript.UUID_String := fun u => u
|}.

Definition sample_store : cronscript.Store (string * string) string string SampleStoreState :=
  cronscript.mkStore
    (fun st => ((stored st, failing st), st))
    (fun sc st =>
       match failing st with
       | Some e => (Some e, st)
       | None => (None, mkSampleStoreState
                          (filter (fun x => x.1 <> sc.1) (stored st) ++ [sc]) None)
       end)
    (fun id st =>
       match failing st with
       | Some e => (Some e, st)
       | None => (None, mkSampleStoreState (filter (fun x => x.1 <> id) (stored st)) None)
       end)
    (fun scripts st =>
       match failing st with
       | Some e => (Some e, st)
       | None => (None, mkSampleStoreState scripts None)
       end).

Fixpoint strip_prefix (prefix s : string) : option string :=
  match prefix, s with
  | EmptyString, _ => Some s
  | String a prefix', String b s' =>
    if Ascii.eqb a b then strip_prefix prefix' s' else None
  | String _ _, EmptyString => None
  end.

Fixpoint remove_all (fuel : nat) (old s : string) : string :=
  match fuel, s with
  | S fuel', String c rest =>
    match strip_prefix old s with
    | Some rest' => remove_all fuel' old rest'
    | None => String c (remove_all fuel' old rest)
    end
  | _, _ => s
  end.

(** [strings.Replace(s, old, new, -1)] for an empty [new]. *)
Definition sample_Replace (s old new : string) : string :=
  if decide (old = "") then s else remove_all (S (String.length s)) old s.

Fixpoint collapse_slashes (s : string) : string :=
  match s with
  | String a (String b rest as tail) =>
    if Ascii.eqb a "/" && Ascii.eqb b "/" then collapse_slashes tail
    else String a (collapse_slashes tail)
  | _ => s
  end.

(** [path.Join] on elements free of dot components. *)
Definition sample_Join (elems : list string) : string :=
  collapse_slashes
    (foldr (fun e acc => if decide (acc = "") then e else e +:+ "/" +:+ acc) ""
           (filter (fun e => e <> "") elems)).

Fixpoint dir_aux (s : string) : string * bool :=
  match s with
  | EmptyString => (EmptyString, false)
  | String c rest =>
    let '(d, slash) := dir_aux rest in
    if slash then (String c d, true)
    else if Ascii.eqb c "/" then (EmptyString, true) else (EmptyString, false)
  end.

(** [path.Dir] on clean paths with a directory part. *)
Definition sample_Dir (s : string) : string := (dir_aux s).1.

Definition sample_flags (given : list (string * string)) : string -> option string :=
  fun key => (list_to_map given : gmap string string) !! key.

(** A workspace at [/ws] whose [skaffold/] directory holds one template and
    whose [services/] directory holds a template next to a [vendor/]
    directory. *)
Definition sample_fs (path : string) : deploy.FsNode :=
  if decide (path = "/ws/skaffold") then
    deploy.FsDir "skaffold" [deploy.FsFile "skaffold.yaml.tmpl"]
  else if decide (path = "/ws/services") then
    deploy.FsDir "services"
      [deploy.FsFile "api.tmpl"; deploy.FsFile "README.md";
       deploy.FsDir "vendor" [deploy.FsFile "lib.tmpl"]]
  else deploy.FsLstatError path "no such file or directory".

(** A world in which every outside call succeeds, except as [lstat] and
    [read_file] say. *)
Definition make_world (flags env : list (string * string))
    (input : list (string + deploy.error))
    (lstat : string -> deploy.FsNode)
    (read_file : string -> string + deploy.error) : deploy.World :=
  deploy.mkWorld
    (Some (sample_flags flags))
    (sample_flags env)
    input
    (fun _ => inl "/ws")
    (fun _ _ => None)
    (fun _ => lstat)
    (fun _ => read_file)
    (fun text => inl (deploy.mkServiceConfig "dev" text))
    (fun _ _ => None)
    (fun _ _ => None)
    (fun _ _ _ => None)
    (fun _ _ => None)
    (fun _ _ => true)
    (fun _ _ => None)
    (fun _ _ => None)
    sample_Join sample_Dir sample_Replace.

Definition sample_world (flags env : list (string * string))
    (input : list (string + deploy.error)) : deploy.World :=
  make_world flags env input sample_fs (fun _ => inl "deployment: dev").

(** A world in which the staging configuration file cannot be read. *)
Definition world_config_unreadable : deploy.World :=
  make_world [("build_dir", "/ws/build"); ("staging", "true")] []
             [inl "maybe"; inl "Y"]
             sample_fs (fun _ => inr "no such file").

(** A world in which the [skaffold/] directory cannot be read. *)
Definition world_walk_fails : deploy.World :=
  make_world [("build_dir", "/ws/build")] [] []
             (fun path => if decide (path = "/ws/skaffold")
                          then deploy.FsLstatError "skaffold" "permission denied"
                          else sample_fs path)
             (fun _ => inl "deployment: dev").

(** * Further members of the embedded classes *)

(** ** [class IR]: [size()] *)

Definition IR_size {Attrs} (g : IR Attrs) : nat := size (id_node_map_ g).

(** ** [FuncIR::UpdateArg]

    The arguments [args_] of a function node are its [operands_].  The call
    has no result in the model ([None]) where the source has none either:
    when [CHECK_LT(idx, args_.size())] fails the process is aborted, and a
    negative [idx] passes that check and indexes [args_] out of bounds. *)
Section FuncIR.
Context {Attrs : Type} `{!IRNodeImpl Attrs}.

Definition set_operand (idx : nat) (op : Z) (n : IRNode Attrs) : IRNode Attrs :=
  mkIRNode (type_ n) (id_ n) (line_ n) (col_ n) (graph_ptr_ n)
           (line_col_set_ n) (attrs_ n) (<[idx := op]> (operands_ n)).

Definition UpdateArg (self : Z) (idx : Z) (arg : Z) (g : IR Attrs)
  : option (StatusOr unit * IR Attrs) :=
  match Get g self with
  | None => None
  | Some n =>
    if negb (idx <? Z.of_nat (List.length (operands_ n))) then None
    else
      match (if idx <? 0 then None else operands_ n !! Z.to_nat idx) with
      | None => None
      | Some old_arg =>
        Some ((update_node self (set_operand (Z.to_nat idx) arg);;
               DeleteEdge self old_arg;;
               AddEdge self arg;;
               mret tt) g)
      end
  end.

End FuncIR.

(** ** The operator and expression classes

    What the constructor of each operator class hands to
    [OperatorIR(id, type, has_parents, is_source)]. *)
Record OperatorFlags := mkOperatorFlags {
  can_have_parents_ : bool;
  is_source_ : bool
}.

Definition OperatorIR_flags (T : IRNodeType) : option OperatorFlags :=
  match T with
  | kMemorySource => Some (mkOperatorFlags false true)
  | kMemorySink => Some (mkOperatorFlags true false)
  | kMetadataResolver => Some (mkOperatorFlags true false)
  | kMap => Some (mkOperatorFlags true false)
  | kDrop => Some (mkOperatorFlags true false)
  | kBlockingAgg => Some (mkOperatorFlags true false)
  | kGroupBy => Some (mkOperatorFlags true false)
  | kFilter => Some (mkOperatorFlags true false)
  | kLimit => Some (mkOperatorFlags true false)
  | kGRPCSink => Some (mkOperatorFlags true false)
  | kGRPCSource => Some (mkOperatorFlags false true)
  | kGRPCSourceGroup => Some (mkOperatorFlags false true)
  | kUnion => Some (mkOperatorFlags true false)
  | kJoin => Some (mkOperatorFlags true false)
  | kTabletSourceGroup => Some (mkOperatorFlags false true)
  | kUDTFSource => Some (mkOperatorFlags false true)
  | _ => None
  end.

(** [OperatorIR::IsBlocking] with its overrides. *)
Definition IsBlocking (T : IRNodeType) : bool :=
  match T with
  | kMemorySink | kBlockingAgg | kGRPCSink | kUnion | kJoin => true
  | _ => false
  end.

(** [ExpressionIR::IsColumn], [IsData], [IsCollection] and [IsFunction] with
    their overrides in [ColumnIR] (and so [MetadataIR]), [DataIR],
    [CollectionIR] and [FuncIR]. *)
Definition IsColumn (T : IRNodeType) : bool :=
  match T with kColumn | kMetadata => true | _ => false end.

Definition IsData (T : IRNodeType) : bool :=
  match T with
  | kString | kUInt128 | kFloat | kInt | kBool | kTime => true
  | _ => false
  end.

Definition IsCollection (T : IRNodeType) : bool :=
  match T with kList | kTuple => true | _ => false end.

Definition IsFunction (T : IRNodeType) : bool :=
  match T with kFunc => true | _ => false end.

(** ** [absl::StartsWith] and [absl::StripPrefix] *)

Fixpoint StartsWith (text prefix : string) {struct prefix} : bool :=
  match prefix, text with
  | EmptyString, _ => true
  | String a prefix', String b text' => Ascii.eqb a b && StartsWith text' prefix'
  | String _ _, EmptyString => false
  end.

(** [std::string_view::remove_prefix(n)] *)
Fixpoint remove_prefix (n : nat) (s : string) : string :=
  match n, s with
  | S n', String _ s' => remove_prefix n' s'
  | _, _ => s
  end.

Definition StripPrefix (str prefix : string) : string :=
  if StartsWith str prefix then remove_prefix (String.length prefix) str else str.

(** ** [class MetadataProperty] (the members of an object) *)

Record MetadataProperty {MetadataType DataType : Type} := mkMetadataProperty {
  metadata_type_ : MetadataType;
  column_type_ : DataType;
  name_ : string;
  key_columns_ : list MetadataType
}.
Arguments MetadataProperty : clear implicits.
Arguments mkMetadataProperty {MetadataType DataType}.

Section MetadataPropertyMembers.
Context {MetadataType DataType : Type} `{!MetadataTypeEnum MetadataType}.

(** [absl::StrJoin(key_columns_, ",")] writes the enumerators out as the
    generated enum has them; it is taken as given, like the enum. *)
Variable StrJoin : list MetadataType -> string -> string.

#[local] Abbreviation MetadataProperty := (MetadataProperty MetadataType DataType).

(** The protected constructor [MetadataProperty(metadata_type, column_type,
    key_columns)]. *)
Definition MetadataProperty_new (metadata_type : MetadataType)
    (column_type : DataType) (key_columns : list MetadataType) : MetadataProperty :=
  mkMetadataProperty metadata_type column_type
    (MetadataProperty.GetMetadataString metadata_type) key_columns.

Definition GetColumnRepr (p : MetadataProperty) : string :=
  MetadataProperty.FormatMetadataColumn_name (name_ p).

Definition GetKeyColumnReprs (p : MetadataProperty) : list string :=
  foldl (fun columns c => columns ++ [MetadataProperty.FormatMetadataColumn c])
        [] (key_columns_ p).

(** [std::find(columns.begin(), columns.end(), key) != columns.end()] *)
Definition HasKeyColumn (p : MetadataProperty) (key : string) : bool :=
  let columns := GetKeyColumnReprs p in
  bool_decide (key ∈ columns).

Definition ExtractMetadataFromColumnName (column_name : string) : string :=
  StripPrefix column_name MetadataProperty.kMetadataColumnPrefix.

Definition UDFName (p : MetadataProperty) (key : string) : StatusOr string :=
  if negb (HasKeyColumn p key) then
    Err (error.InvalidArgument
           (Substitute "Key column $0 invalid for metadata value $1. Expected one of [$2]."
                       [key; name_ p; StrJoin (key_columns_ p) ","]))
  else Ok (Substitute "$1_to_$0" [name_ p; ExtractMetadataFromColumnName key]).

End MetadataPropertyMembers.

(** ** [class JoinIR]: sequences of [SetJoinType] calls *)

Inductive SetJoinTypeCall :=
| SetJoinTypeEnum (join_type : JoinIR.JoinType)
| SetJoinTypeString (join_type : string).

Definition set_join_type (GetJoinEnum : JoinIR.t -> string -> StatusOr JoinIR.JoinType)
    (c : SetJoinTypeCall) (j : JoinIR.t) : Status * JoinIR.t :=
  match c with
  | SetJoinTypeEnum jt => JoinIR.SetJoinType jt j
  | SetJoinTypeString s => JoinIR.SetJoinType_string GetJoinEnum s j
  end.

(** The join after the calls [cs], made in order, whatever each returned. *)
Definition set_join_types (GetJoinEnum : JoinIR.t -> string -> StatusOr JoinIR.JoinType)
    (cs : list SetJoinTypeCall) (j : JoinIR.t) : JoinIR.t :=
  foldl (fun j c => (set_join_type GetJoinEnum c j).2) j cs.

(** * Vocabulary for the further properties of the deployment generator *)

(** An event passes [ok] when it is a log line, printed text, or an outside
    call that [ok] admits. *)
Definition on_ops (ok : deploy.Op -> bool) (e : deploy.Event) : bool :=
  match e with
  | deploy.Did op _ => ok op
  | _ => true
  end.

(** Started in a process that satisfies [Pre], [m] adds to the trace only
    events that pass [ok], and when it returns [a] the process satisfies
    [Post a]. *)
Definition emits {A} (Pre : deploy.Proc -> Prop) (ok : deploy.Op -> bool)
    (Post : A -> deploy.Proc -> Prop) (m : deploy.M A) : Prop :=
  forall p, Pre p ->
    exists evs,
      deploy.trace (m p).2 = deploy.trace p ++ evs /\
      forallb (on_ops ok) evs = true /\
      forall a, (m p).1 = deploy.Return a -> Post a (m p).2.

(** [m] makes only calls that [ok] admits and leaves the standard input as
    it finds it. *)
Definition quiet {A} (Q : list (string + deploy.error) -> Prop) (ok : deploy.Op -> bool)
    (m : deploy.M A) : Prop :=
  emits (fun p => Q (deploy.stdin p)) ok (fun _ p => Q (deploy.stdin p)) m.

(** The outside calls of each function of the program. *)
Definition no_ops (op : deploy.Op) : bool := false.

Definition ops_getConfirmationForPush (op : deploy.Op) : bool :=
  match op with deploy.GetStdinInput _ => true | _ => false end.

Definition ops_findTemplateFiles (op : deploy.Op) : bool :=
  match op with deploy.Walk _ => true | _ => false end.

Definition ops_loadConfig (op : deploy.Op) : bool :=
  match op with
  | deploy.FindBazelWorkspaceRoot | deploy.ReadFile _ | deploy.UnmarshalText _ => true
  | _ => false
  end.

Definition ops_generateServiceConfigs (op : deploy.Op) : bool :=
  match op with
  | deploy.MkdirAll _ | deploy.Create _ | deploy.ParseFiles _
  | deploy.Execute _ _ | deploy.Close _ => true
  | _ => false
  end.

Definition ops_startSkaffold (op : deploy.Op) : bool :=
  match op with
  | deploy.FileExists _ | deploy.Chdir _ | deploy.RunCmd _ => true
  | _ => false
  end.

(** The calls that change nothing outside the process: reading a line and
    looking for the workspace root. *)
Definition reads_only (op : deploy.Op) : bool :=
  match op with
  | deploy.GetStdinInput _ | deploy.FindBazelWorkspaceRoot => true
  | _ => false
  end.

Definition not_GetStdinInput (op : deploy.Op) : bool :=
  match op with deploy.GetStdinInput _ => false | _ => true end.

Definition not_RunCmd (op : deploy.Op) : bool :=
  match op with deploy.RunCmd _ => false | _ => true end.

(** No line of the input is a yes. *)
Definition never_confirms (input : list (string + deploy.error)) : Prop :=
  forall a, inl a ∈ input -> deploy.ToLower a <> "y".




(** The outside calls recorded in a stretch of events, in order. *)
Definition calls_of (evs : list deploy.Event) : list deploy.Op :=
  omap (fun e => match e with deploy.Did op _ => Some op | _ => None end) evs.

(** The name [generateServiceConfigs] gives to the output of a template. *)
Definition yamlOutputFile (w : deploy.World) (buildDir totPath : string)
    (config : deploy.serviceConfigExt) (templateFile : string) : string :=
  deploy.path_Join w
    [buildDir;
     deploy.strings_Replace w
       (substring 0 (String.length templateFile - String.length (deploy.Ext templateFile))
                  templateFile
        +:+ "_" +:+ deploy.Deployment (deploy.ServiceConfig_ config) +:+ ".yaml")
       totPath ""].

(** The calls [generateServiceConfigs] makes for one template. *)
Definition calls_for_template (w : deploy.World) (buildDir totPath : string)
    (config : deploy.serviceConfigExt) (templateFile : string) : list deploy.Op :=
  let out := yamlOutputFile w buildDir totPath config templateFile in
  [deploy.MkdirAll (deploy.path_Dir w out); deploy.Create out;
   deploy.ParseFiles templateFile; deploy.Execute templateFile out; deploy.Close out].

(** How a run can end as far as skaffold goes: it was not started, it ran
    and the run is over, or it failed and the run ends with one fatal log
    line. *)
Inductive skaffold_end : deploy.Outcome unit -> list deploy.Event -> Prop :=
| skaffold_not_started out : skaffold_end out []
| skaffold_done cmd : skaffold_end (deploy.Return tt) [deploy.Did (deploy.RunCmd cmd) None]
| skaffold_failed cmd e msg :
    skaffold_end (deploy.Exit 1)
                 [deploy.Did (deploy.RunCmd cmd) (Some e);
                  deploy.Log deploy.FatalLevel msg (Some e)].

Definition starts_skaffold_last (m : deploy.M unit) : Prop :=
  forall p, exists pre post,
    deploy.trace (m p).2 = deploy.trace p ++ pre ++ post /\
    forallb (on_ops not_RunCmd) pre = true /\
    skaffold_end (m p).1 post.

(** The tree [n] with every directory named [vendor] emptied. *)
Fixpoint without_vendor_contents (n : deploy.FsNode) : deploy.FsNode :=
  match n with
  | deploy.FsDir name entries =>
    if decide (name = "vendor") then deploy.FsDir name []
    else deploy.FsDir name (map without_vendor_contents entries)
  | _ => n
  end.

(** A world for the concrete runs of the further properties: a staging push
    with the lines of [input] on the standard input. *)
Definition staging_world (input : list (string + deploy.error)) : deploy.World :=
  sample_world [("build_dir", "/ws/build"); ("staging", "true")] [] input.

(** The outside calls of a run for the workspace [totPath], by the
    environment the flags select: the configuration file and the skaffold
    file are those of [prod] when [prod] is set and those of [dev]
    otherwise; skaffold is told to [run] when [prod] or [staging] is set
    and to [dev] otherwise. *)
Definition ops_of_environment (w : deploy.World) (totPath : string) (op : deploy.Op) : bool :=
  let env := if deploy.viper_GetBool w "prod" then "prod" else "dev" in
  let skaffoldFile :=
    deploy.path_Join w [deploy.viper_GetString w "build_dir";
                        "skaffold/skaffold_" +:+ env +:+ ".yaml"] in
  match op with
  | deploy.Walk root =>
    bool_decide (root ∈ [deploy.path_Join w [totPath; "skaffold"];
                         deploy.path_Join w [totPath; "services"]])
  | deploy.ReadFile f =>
    bool_decide (f = deploy.path_Join w
                       [totPath; "templates/skaffold/skaffold_service_config_"
                                 +:+ env +:+ ".pbtxt"])
  | deploy.FileExists f => bool_decide (f = skaffoldFile)
  | deploy.Chdir dir => bool_decide (dir = totPath)
  | deploy.RunCmd cmd =>
    bool_decide (cmd = "skaffold "
                       +:+ (if deploy.viper_GetBool w "prod" || deploy.viper_GetBool w "staging"
                            then "run" else "dev")
                       +:+ " -f " +:+ skaffoldFile)
  | _ => true
  end.

(** The sample function node (id 0) with a second argument, a string
    literal (id 2). *)
Definition sample_func2 : IR Z :=
  (AddOperand 0 2 (MakeNode_ast kString None sample_graph).2).2.

(** * The organisation settings page (TypeScript, [OrgSettings]) *)

Module OrgSettings.

(** What [useOrgInfo] hands to the component: the organisation, which may
    be undefined, the loading flag, and the error, undefined or an object
    that [error.toString()] renders as a text. *)
Record Org := mkOrg { id : string; enableApprovals : bool }.

Record OrgInfo := mkOrgInfo {
  org : option Org;
  loading : bool;
  error : option string
}.

(** The call [updateOrgInfo(org.id, !org.enableApprovals)]. *)
Record Update := mkUpdate { update_id : string; update_enableApprovals : bool }.

(** The row of the table body: its key, the two text cells, and the button
    with its label and what a click does. *)
Record Row := mkRow {
  row_key : string;
  setting : string;
  description : string;
  button_label : string;
  onClick : Update
}.

Inductive Element :=
| Div (className text : string)
| Table (head : list string) (body : list Row).

(** A render returns an element, or throws the [TypeError] of reading a
    property of [undefined]. *)
Inductive Rendered :=
| Returns (e : Element)
| TypeError.

(** [export const OrgSettings: React.FC = () => ...]; [classes.error] is
    the class named [error]. *)
Definition OrgSettings (info : OrgInfo) : Rendered :=
  if loading info then Returns (Div "error" "Loading...")
  else
    match error info with
    | Some e => Returns (Div "error" e)
    | None =>
      match org info with
      | None => TypeError
      | Some org =>
        Returns
          (Table ["Setting"; "Description"; "Action"]
             [mkRow "approvals" "Approvals"
                (if enableApprovals org
                 then "Disabling will allow any user who registers in the org to log in and use Pixie without approval."
                 else "Enabling will require each user who registers in the org to be approved before they can log in.")
                (if enableApprovals org then "Disable" else "Enable")
                (mkUpdate (id org) (negb (enableApprovals org)))])
      end
    end.

End OrgSettings.

(** * Verified properties *)

(** ** String helpers *)

Lemma string_app_nil_r (s : string) : s +:+ "" = s.
Proof.
  induction s as [|c s IH]; [reflexivity|].
  change (String c s +:+ "") with (String c (s +:+ "")). now rewrite IH.
Qed.

Lemma Substitute_two (a b : string) : Substitute "$0$1" [a; b] = a +:+ b.
Proof.
  change (Substitute "$0$1" [a; b]) with (a +:+ (b +:+ "")).
  now rewrite string_app_nil_r.
Qed.

(** ** Time literals *)

(** C5: for every Time literal node, [val()] is a boolean that is true
    exactly when the stored 64-bit nanosecond value is nonzero; it is not the
    stored value: any two nodes with nonzero stored values, however
    different, answer alike. *)
Theorem TimeIR_val_is_nonzero_test (n : TimeIR.t) :
  (TimeIR.val n = true <-> TimeIR.val_ n <> 0) /\
  (TimeIR.val n = false <-> TimeIR.val_ n = 0) /\
  (forall m : TimeIR.t,
      TimeIR.val_ n <> 0 -> TimeIR.val_ m <> 0 -> TimeIR.val n = TimeIR.val m).
Proof.
  unfold TimeIR.val.
  destruct (Z.eqb_spec (TimeIR.val_ n) 0) as [E|E]; simpl.
  - repeat split; try congruence; intros; congruence.
  - repeat split; try congruence.
    intros m _ Hm. destruct (Z.eqb_spec (TimeIR.val_ m) 0); simpl; congruence.
Qed.

Example TimeIR_val_loses_the_value :
  TimeIR.val (TimeIR.mk 0 1588000000000000000) = true /\
  TimeIR.val (TimeIR.mk 1 5) = true /\
  TimeIR.val (TimeIR.mk 2 0) = false.
Proof. repeat split. Qed.

(** ** Metadata column names *)

Section MetadataColumns.
Context {MetadataType : Type} `{!MetadataTypeEnum MetadataType}.

Lemma FormatMetadataColumn_name_prefix (col_name : string) :
  MetadataProperty.FormatMetadataColumn_name col_name = "_attr_" +:+ col_name.
Proof. unfold MetadataProperty.FormatMetadataColumn_name. apply Substitute_two. Qed.

(** C9: the column name of a metadata type is its lower-cased name prefixed
    with "_attr_", except for [UPID], whose column is exactly "upid". *)
Theorem FormatMetadataColumn_spec (metadata_type : MetadataType) :
  MetadataProperty.FormatMetadataColumn metadata_type =
    if decide (metadata_type = UPID) then "upid"
    else "_attr_" +:+ AsciiStrToLower (MetadataType_Name metadata_type).
Proof.
  unfold MetadataProperty.FormatMetadataColumn, MetadataProperty.GetMetadataString.
  destruct (decide (metadata_type = UPID)); [reflexivity|].
  apply FormatMetadataColumn_name_prefix.
Qed.

End MetadataColumns.

Example FormatMetadataColumn_samples :
  MetadataProperty.FormatMetadataColumn POD_NAME = "_attr_pod_name" /\
  MetadataProperty.FormatMetadataColumn SERVICE_NAME = "_attr_service_name" /\
  MetadataProperty.FormatMetadataColumn SAMPLE_UPID = "upid".
Proof. repeat split. Qed.

(** ** Join types *)

(** C10: the enum overload of [SetJoinType] never changes
    [specified_as_right()]; the string overload leaves it true exactly when
    it was true before or the string names a right join.  On a join whose
    flag is false, setting [kRight] by enum and by string give the same join
    type but different flags. *)
Theorem SetJoinType_specified_as_right
    (GetJoinEnum : JoinIR.t -> string -> StatusOr JoinIR.JoinType)
    (j : JoinIR.t) :
  (forall jt, JoinIR.specified_as_right (JoinIR.SetJoinType jt j).2
              = JoinIR.specified_as_right j) /\
  (forall s, JoinIR.specified_as_right (JoinIR.SetJoinType_string GetJoinEnum s j).2 = true
             <-> JoinIR.specified_as_right j = true \/ GetJoinEnum j s = Ok JoinIR.kRight) /\
  (forall s, JoinIR.specified_as_right j = false ->
             GetJoinEnum j s = Ok JoinIR.kRight ->
             let by_enum := (JoinIR.SetJoinType JoinIR.kRight j).2 in
             let by_string := (JoinIR.SetJoinType_string GetJoinEnum s j).2 in
             JoinIR.join_type by_enum = JoinIR.kRight /\
             JoinIR.join_type by_string = JoinIR.kRight /\
             JoinIR.specified_as_right by_enum = false /\
             JoinIR.specified_as_right by_string = true).
Proof.
  split; [|split].
  - intros jt. reflexivity.
  - intros s. unfold JoinIR.SetJoinType_string, JoinIR.specified_as_right.
    destruct (GetJoinEnum j s) as [jt|e]; simpl.
    + destruct (decide (jt = JoinIR.kRight)) as [->|Hne]; simpl.
      * split; auto.
      * split; [auto|]. intros [H|H]; [exact H|]. congruence.
    + split; [auto|]. intros [H|H]; [exact H | discriminate].
  - intros s Hf Hr. unfold JoinIR.SetJoinType_string. rewrite Hr. simpl.
    repeat split. exact Hf.
Qed.

Example SetJoinType_right_two_ways :
  let j := JoinIR.mk JoinIR.kInner [] false in
  JoinIR.SetJoinType JoinIR.kRight j
    = (Status_OK, JoinIR.mk JoinIR.kRight [] false) /\
  JoinIR.SetJoinType_string JoinIR.GetJoinEnum_names "right" j
    = (Status_OK, JoinIR.mk JoinIR.kRight [] true) /\
  JoinIR.SetJoinType_string JoinIR.GetJoinEnum_names "left" j
    = (Status_OK, JoinIR.mk JoinIR.kLeft [] false) /\
  code (JoinIR.SetJoinType_string JoinIR.GetJoinEnum_names "cross" j).1
    = INVALID_ARGUMENT.
Proof. repeat split. Qed.

(** ** Plan serialization *)

Section ToProtoFacts.
Context {Attrs : Type} `{!IRNodeImpl Attrs}.

(** C4: serializing a GroupBy or a MetadataResolver node fails with
    [UNIMPLEMENTED] for every node and message and writes nothing; among the
    operator variants, exactly these two and TabletSourceGroup have no plan
    encoding. *)
Theorem ToProto_unimplemented_variants :
  (forall (n : IRNode Attrs) op_pb,
      type_ n = kGroupBy ->
      ToProto n op_pb = Some (error.Unimplemented "ToProto not implemented.", op_pb)) /\
  (forall (n : IRNode Attrs) op_pb,
      type_ n = kMetadataResolver ->
      ToProto n op_pb =
        Some (error.Unimplemented
                "Calling ToProto on MetadataResolver, which lacks a Protobuf representation.",
              op_pb)) /\
  (forall T, IsOperator T = true ->
      (no_plan_encoding (Attrs := Attrs) T
       <-> T = kGroupBy \/ T = kMetadataResolver \/ T = kTabletSourceGroup)).
Proof.
  split; [|split].
  - intros n pb Ht. unfold ToProto. rewrite Ht. reflexivity.
  - intros n pb Ht. unfold ToProto, MetadataResolverIR_ToProto, type_string.
    rewrite Ht. reflexivity.
  - intros T HT. split.
    + intros Hno.
      pose (n := mkIRNode T 0 0 0 0 false (default_attrs T) []).
      destruct (Hno n None eq_refl) as [m Hm]. unfold ToProto in Hm. simpl in Hm.
      destruct T; try discriminate HT; auto; discriminate Hm.
    + intros [->|[->| ->]] n pb Ht; unfold ToProto; rewrite Ht; eexists; reflexivity.
Qed.

End ToProtoFacts.

(** ** Node creation and the id counter *)

Lemma wrap64_in_range (z : Z) : in_int64 z -> wrap64 z = z.
Proof.
  unfold in_int64, wrap64, INT64_MIN, INT64_MAX. intros H.
  rewrite Z.mod_small; lia.
Qed.

Lemma wrap64_range (z : Z) : in_int64 (wrap64 z).
Proof.
  unfold in_int64, wrap64, INT64_MIN, INT64_MAX.
  pose proof (Z.mod_pos_bound (z + 2 ^ 63) (2 ^ 64)). lia.
Qed.

Lemma int64_add_1 (z : Z) : INT64_MIN <= z < INT64_MAX -> int64_add z 1 = z + 1.
Proof.
  intros H. unfold int64_add. apply wrap64_in_range.
  unfold in_int64, INT64_MIN, INT64_MAX in *. lia.
Qed.

Section MakeNodeFacts.
Context {Attrs : Type} `{!IRNodeImpl Attrs}.

#[local] Abbreviation IR := (IR Attrs).

Lemma MakeNode_returns T id ast (g : IR) :
  exists g', MakeNode T id ast g = (Ok id, g') /\
    this_ g' = this_ g /\
    id_node_counter g' = Z.max (int64_add id 1) (id_node_counter g) /\
    plan.edges_ (dag_ g') = plan.edges_ (dag_ g) /\
    plan.nodes_ (dag_ g') = {[id]} ∪ plan.nodes_ (dag_ g).
Proof.
  unfold MakeNode. destruct ast; simpl; eexists; split_and!; reflexivity.
Qed.

Lemma create_returns c (g : IR) :
  exists g' id, create c g = (Ok id, g') /\
    id_node_counter g <= id_node_counter g' /\
    (forall T ast, c = CreateFresh T ast -> id = id_node_counter g).
Proof.
  destruct c as [T ast|T k ast]; simpl; unfold MakeNode_ast.
  - destruct (MakeNode_returns T (id_node_counter g) ast g) as (g' & -> & _ & Hc & _).
    exists g', (id_node_counter g). split_and!; [reflexivity | lia | auto].
  - destruct (MakeNode_returns T k ast g) as (g' & -> & _ & Hc & _).
    exists g', k. split_and!; [reflexivity | lia | discriminate].
Qed.

(** A sequence of creations always runs to its end; the counter does not
    go down, and every automatically assigned id is at least the counter the
    sequence started from. *)
Lemma create_all_returns cs : forall g : IR,
  exists g' ids, create_all cs g = (Ok ids, g') /\
    id_node_counter g <= id_node_counter g' /\
    List.length ids = List.length cs /\
    (forall i T ast id, cs !! i = Some (CreateFresh T ast) -> ids !! i = Some id ->
                        id_node_counter g <= id).
Proof.
  induction cs as [|c cs IH]; intros g; simpl.
  - exists g, []. split_and!; [reflexivity | lia | reflexivity |].
    intros i ? ? ? H; destruct i; discriminate H.
  - destruct (create_returns c g) as (g1 & id & Hc & Hle & Hfresh).
    destruct (IH g1) as (g2 & ids & Hcs & Hle2 & Hlen & Hids).
    exists g2, (id :: ids). split_and!.
    + unfold mbind, GraphM_bind. rewrite Hc, Hcs. reflexivity.
    + lia.
    + simpl; lia.
    + intros [|i] T ast id' Hi Hid; simpl in *.
      * injection Hi as ->. injection Hid as <-. rewrite (Hfresh T ast eq_refl). lia.
      * specialize (Hids i T ast id' Hi Hid). lia.
Qed.

(** C3 (amended to ids below the largest 64-bit value): over any sequence of
    node creations the id counter never decreases; after a node is created
    with the explicit id [k], the counter is strictly greater than [k], and
    so is every id assigned automatically by any later sequence of
    creations. *)
Theorem MakeNode_counter_above_explicit_id
    (T : IRNodeType) (k : Z) (ast : option Ast) (g : IR)
    (before after : list Creation)
    (Hk : INT64_MIN <= k < INT64_MAX) :
  (exists g' ids, create_all before g = (Ok ids, g') /\
                  id_node_counter g <= id_node_counter g') /\
  (exists g1 g2 ids,
      MakeNode T k ast g = (Ok k, g1) /\
      id_node_counter g <= id_node_counter g1 /\
      k < id_node_counter g1 /\
      create_all after g1 = (Ok ids, g2) /\
      id_node_counter g1 <= id_node_counter g2 /\
      (forall i T' ast' id,
          after !! i = Some (CreateFresh T' ast') -> ids !! i = Some id -> k < id)).
Proof.
  split.
  - destruct (create_all_returns before g) as (g' & ids & H & Hle & _). eauto.
  - destruct (MakeNode_returns T k ast g) as (g1 & HM & _ & Hc & _).
    destruct (create_all_returns after g1) as (g2 & ids & HA & Hle & _ & Hids).
    rewrite (int64_add_1 k Hk) in Hc.
    exists g1, g2, ids. split_and!; try assumption; try lia.
    intros i T' ast' id Hi Hid. specialize (Hids i T' ast' id Hi Hid). lia.
Qed.

End MakeNodeFacts.

Lemma MakeNode_counter_above_explicit_id_witness :
  INT64_MIN <= 41 < INT64_MAX /\
  (exists g1 g2 ids,
      MakeNode kInt 41 None (IR_new (Attrs := Z) 0) = (Ok 41, g1) /\
      id_node_counter (IR_new (Attrs := Z) 0) <= id_node_counter g1 /\
      41 < id_node_counter g1 /\
      create_all [CreateFresh kString None] g1 = (Ok ids, g2) /\
      id_node_counter g1 <= id_node_counter g2 /\
      (forall i T' ast' id,
          [CreateFresh kString None] !! i = Some (CreateFresh T' ast') ->
          ids !! i = Some id -> 41 < id)).
Proof.
  assert (H : INT64_MIN <= 41 < INT64_MAX) by (unfold INT64_MIN, INT64_MAX; lia).
  split; [exact H|].
  exact (proj2 (MakeNode_counter_above_explicit_id
                  kInt 41 None (IR_new 0) [] [CreateFresh kString None] H)).
Defined.

(** C3 as stated fails at the largest 64-bit id: [id + 1] wraps around, the
    counter stays at that id instead of passing it, and the next
    automatically assigned id is the explicitly supplied one. *)
Lemma MakeNode_counter_not_above_INT64_MAX :
  let '(ids, g1) :=
    create_all [CreateWithId kInt (INT64_MAX - 1) None;
                CreateWithId kInt INT64_MAX None] (IR_new (Attrs := Z) 0) in
  ids = Ok [INT64_MAX - 1; INT64_MAX] /\
  id_node_counter g1 = INT64_MAX /\
  (MakeNode_ast kString None g1).1 = Ok INT64_MAX.
Proof. vm_compute. repeat split. Qed.

(** ** Copying nodes *)

Section CopyFacts.
Context {Attrs : Type} `{!IRNodeImpl Attrs}.

#[local] Abbreviation IRNode := (IRNode Attrs).
#[local] Abbreviation IR := (IR Attrs).
#[local] Abbreviation Source := (Source Attrs).
#[local] Abbreviation wf := (@wf Attrs).
#[local] Abbreviation extends := (@extends Attrs).
#[local] Abbreviation Mrange := (@Mrange Attrs).
#[local] Abbreviation mode := (@mode Attrs).
#[local] Abbreviation room := (@room Attrs).
#[local] Abbreviation same_but_operands := (@same_but_operands Attrs).
#[local] Abbreviation copied := (@copied Attrs).
#[local] Abbreviation keeps_edges_distinct := (@keeps_edges_distinct Attrs _).

Lemma Source_ind' (P : Source -> Prop) :
  (forall n operands, Forall P operands -> P (SourceNode n operands)) ->
  forall s, P s.
Proof.
  intros Hnode. fix IH 1. intros [n operands]. apply Hnode.
  induction operands as [|op rest IHrest]; constructor; [apply IH | exact IHrest].
Qed.

Lemma tree_ids_node n (operands : list Source) :
  tree_ids (SourceNode n operands) = id_ n :: List.concat (tree_ids <$> operands).
Proof.
  unfold tree_ids. simpl. f_equal.
  induction operands as [|op rest IH]; [reflexivity|].
  simpl. rewrite fmap_app. f_equal. exact IH.
Qed.

Lemma source_id_in_tree_ids (s : Source) : source_id s ∈ tree_ids s.
Proof. destruct s as [n ops]. rewrite tree_ids_node. apply list_elem_of_here. Qed.

(** *** Consistent graphs *)

Lemma extends_refl g : extends g g.
Proof. constructor; auto. lia. Qed.

Lemma extends_trans g1 g2 g3 : extends g1 g2 -> extends g2 g3 -> extends g1 g3.
Proof.
  intros [T1 N1 E1 W1 C1] [T2 N2 E2 W2 C2]. constructor.
  - congruence.
  - auto.
  - auto.
  - intros a b H. destruct (W2 a b H) as [H2|H2]; [auto|].
    right. destruct (id_node_map_ g1 !! a) as [n|] eqn:Ha; [|reflexivity].
    apply N1 in Ha. congruence.
  - lia.
Qed.

Lemma IR_new_wf addr : wf (IR_new addr).
Proof.
  constructor; simpl.
  - intros id n H. rewrite lookup_empty in H. discriminate.
  - intros id. rewrite lookup_empty. split; [set_solver | intros [? ?]; discriminate].
  - intros a b H. inversion H.
  - constructor.
  - unfold in_int64, INT64_MIN, INT64_MAX. lia.
Qed.

(** *** The single steps of a copy *)

Lemma is_Some_insert {V} (m : gmap Z V) i j x :
  is_Some (m !! j) -> is_Some (<[i := x]> m !! j).
Proof.
  intros H. rewrite lookup_insert_is_Some. destruct (decide (i = j)); auto.
Qed.

Lemma is_Some_alter {V} (m : gmap Z V) (f : V -> V) i j :
  is_Some (alter f i m !! j) <-> is_Some (m !! j).
Proof.
  destruct (decide (i = j)) as [->|Hne].
  - rewrite lookup_alter_eq. destruct (m !! j); simpl; split; intros [? ?]; eauto; discriminate.
  - now rewrite lookup_alter_ne.
Qed.

Lemma MakeNodeWithType_fresh T id (g : IR) :
  wf g -> T <> kAny -> T <> number_of_types ->
  id_node_map_ g !! id = None -> INT64_MIN <= id < INT64_MAX ->
  exists g',
    MakeNodeWithType T id g = (Ok id, g') /\
    wf g' /\ extends g g' /\
    id_node_map_ g' = <[id := SetGraphPtr (this_ g) (make_unique T id)]> (id_node_map_ g) /\
    plan.edges_ (dag_ g') = plan.edges_ (dag_ g) /\
    id_node_counter g' = Z.max (id + 1) (id_node_counter g).
Proof.
  intros Hwf HT1 HT2 Hfresh Hid.
  set (g' := mkIR (this_ g) (plan.AddNode (dag_ g) id)
                  (<[id := SetGraphPtr (this_ g) (make_unique T id)]> (id_node_map_ g))
                  (Z.max (id + 1) (id_node_counter g))).
  assert (HM : MakeNodeWithType T id g = (Ok id, g')).
  { unfold g'. rewrite <- (int64_add_1 id Hid).
    destruct T; try congruence;
      unfold MakeNodeWithType, MakeNode_id, MakeNode, emplace; simpl;
      rewrite Hfresh; reflexivity. }
  exists g'. split; [exact HM|]. destruct Hwf as [Hn Hd He Hnd Hc].
  split_and!; try reflexivity.
  - constructor; simpl.
    + intros i n H. destruct (decide (i = id)) as [->|Hne].
      * rewrite lookup_insert_eq in H. injection H as <-. simpl.
        split_and!; try reflexivity. lia.
      * rewrite lookup_insert_ne in H by congruence.
        destruct (Hn i n H) as (? & ? & ?). split_and!; auto. lia.
    + intros i. rewrite elem_of_union, elem_of_singleton, Hd.
      destruct (decide (i = id)) as [->|Hne].
      * rewrite lookup_insert_eq. split; eauto.
      * rewrite lookup_insert_ne by congruence. split; [intros [?|?]; [congruence|auto] | auto].
    + intros a b H. destruct (He a b H) as [Ha Hb].
      split; apply is_Some_insert; assumption.
    + exact Hnd.
    + unfold in_int64, INT64_MIN, INT64_MAX in *. lia.
  - constructor; simpl; auto; [|lia].
    intros i n H. rewrite lookup_insert_ne; [exact H | congruence].
Qed.

Lemma update_node_wf N (f : IRNode -> IRNode) (g : IR) :
  wf g -> (forall n, id_ (f n) = id_ n /\ graph_ptr_ (f n) = graph_ptr_ n) ->
  wf (update_node N f g).2.
Proof.
  intros [Hn Hd He Hnd Hc] Hf. constructor; simpl; auto.
  - intros id n H. destruct (decide (N = id)) as [->|Hne].
    + rewrite lookup_alter_eq in H. destruct (id_node_map_ g !! id) as [n0|] eqn:E;
        [|discriminate]. injection H as <-.
      destruct (Hn id n0 E) as (? & ? & ?), (Hf n0) as [? ?]. split_and!; congruence.
    + rewrite lookup_alter_ne in H by exact Hne. auto.
  - intros id. rewrite is_Some_alter. apply Hd.
  - intros a b H. rewrite !is_Some_alter. auto.
Qed.

Lemma update_node_extends g0 N (f : IRNode -> IRNode) (g : IR) :
  extends g0 g -> id_node_map_ g0 !! N = None -> extends g0 (update_node N f g).2.
Proof.
  intros [T Nn E W C] H0. constructor; simpl; auto.
  intros id n H. rewrite lookup_alter_ne; [auto | congruence].
Qed.

Lemma AddEdge_ok a b (g : IR) :
  wf g -> is_Some (id_node_map_ g !! a) -> is_Some (id_node_map_ g !! b) ->
  (a, b) ∉ plan.edges_ (dag_ g) ->
  exists g', AddEdge a b g = (Ok tt, g') /\ wf g' /\
    this_ g' = this_ g /\
    id_node_map_ g' = id_node_map_ g /\
    plan.edges_ (dag_ g') = plan.edges_ (dag_ g) ++ [(a, b)] /\
    id_node_counter g' = id_node_counter g.
Proof.
  intros Hwf Ha Hb Hab. pose proof Hwf as [Hn Hd He Hnd Hc].
  unfold AddEdge, HasEdge, HasNode, plan.HasEdge, plan.HasNode.
  rewrite (bool_decide_eq_false_2 _ Hab).
  rewrite !bool_decide_eq_true_2 by (apply Hd; assumption). simpl.
  eexists. split; [reflexivity|]. split_and!; try reflexivity.
  constructor; simpl; auto.
  - intros x y H. apply elem_of_app in H as [H|H]; [auto|].
    apply list_elem_of_singleton in H. injection H as -> ->. auto.
  - apply NoDup_app. split_and!; [exact Hnd | | apply NoDup_singleton].
    intros e He1 He2. apply list_elem_of_singleton in He2. subst e. contradiction.
Qed.

Lemma AddEdge_extends g0 a b (g g' : IR) :
  extends g0 g -> id_node_map_ g0 !! a = None ->
  this_ g' = this_ g -> id_node_map_ g' = id_node_map_ g ->
  plan.edges_ (dag_ g') = plan.edges_ (dag_ g) ++ [(a, b)] ->
  id_node_counter g' = id_node_counter g ->
  extends g0 g'.
Proof.
  intros [T Nn E W C] H0 Ht Hm He Hc. constructor.
  - congruence.
  - intros id n H. rewrite Hm. auto.
  - intros e H. rewrite He. apply elem_of_app. auto.
  - intros x y H. rewrite He in H. apply elem_of_app in H as [H|H]; [auto|].
    apply list_elem_of_singleton in H. injection H as -> ->. auto.
  - lia.
Qed.

(** *** The copy as a whole *)

Lemma mode_this same (g g' : IR) n : this_ g' = this_ g -> mode same g n -> mode same g' n.
Proof. unfold mode. intros ->. auto. Qed.

Lemma room_app_l same a b m (g : IR) : room same (a ++ b) m g -> room same a m g.
Proof.
  unfold room. destruct same.
  - rewrite length_app. lia.
  - intros H id Hid. apply H. apply elem_of_app. auto.
Qed.

Lemma copied_refl same ids m (g : IR) :
  wf g -> Minj m -> Mrange m g -> copied same ids m g m g.
Proof.
  intros Hwf Hi Hr. constructor; auto.
  - intros k Hk [v Hv]. congruence.
  - intros k v Hk Hv. congruence.
  - intros id Hid [n Hn]. congruence.
  - intros _. lia.
Qed.

(** Two copies in a row, with changes in between that neither add nodes nor
    move the counter. *)
Lemma copied_seq same a b m (g : IR) m1 g1 g2 m' g' :
  copied same a m g m1 g1 ->
  (forall id, is_Some (id_node_map_ g !! id) -> is_Some (id_node_map_ g1 !! id)) ->
  (forall id, is_Some (id_node_map_ g2 !! id) <-> is_Some (id_node_map_ g1 !! id)) ->
  id_node_counter g2 = id_node_counter g1 ->
  copied same b m1 g2 m' g' ->
  copied same (a ++ b) m g m' g'.
Proof.
  intros [W1 S1 I1 R1 K1 V1 N1 C1] Hle Hdom Hc [W2 S2 I2 R2 K2 V2 N2 C2].
  assert (Hnone : forall id, id_node_map_ g2 !! id = None -> id_node_map_ g !! id = None).
  { intros id H. destruct (id_node_map_ g !! id) eqn:E; [|reflexivity].
    assert (Hs : is_Some (id_node_map_ g2 !! id)) by (apply Hdom, Hle; eauto).
    rewrite H in Hs. destruct Hs; discriminate. }
  constructor; auto.
  - etrans; eassumption.
  - intros k Hk Hs. apply elem_of_app. destruct (m1 !! k) as [v|] eqn:E.
    + left. apply K1; eauto.
    + right. apply K2; auto.
  - intros k v Hk Hv. destruct (m1 !! k) as [v1|] eqn:E.
    + assert (v1 = v).
      { eapply lookup_weaken in E; [|exact S2]. congruence. }
      subst v1. apply V1; auto.
    + destruct (V2 k v E Hv) as [Hn Hs]. auto.
  - intros id Hid Hs. destruct (id_node_map_ g2 !! id) as [n2|] eqn:E.
    + assert (Hs1 : is_Some (id_node_map_ g1 !! id)) by (apply Hdom; eauto).
      destruct (N1 id Hid Hs1) as (k & Hk & Hk1). exists k. split; [exact Hk|].
      eapply lookup_weaken; eassumption.
    + destruct (N2 id E Hs) as (k & Hk & Hk1). exists k. split; [|exact Hk1].
      destruct (m !! k) eqn:Em; [|reflexivity].
      eapply lookup_weaken in Em; [|exact S1]. congruence.
  - intros Hs. specialize (C1 Hs). specialize (C2 Hs). rewrite length_app. lia.
Qed.

Lemma room_next same a b m (g : IR) m1 g1 g2 :
  room same (a ++ b) m g ->
  copied same a m g m1 g1 ->
  (forall id, is_Some (id_node_map_ g2 !! id) <-> is_Some (id_node_map_ g1 !! id)) ->
  id_node_counter g2 = id_node_counter g1 ->
  room same b m1 g2.
Proof.
  intros Hroom [W1 S1 I1 R1 K1 V1 N1 C1] Hdom Hc. unfold room in *. destruct same.
  - specialize (C1 eq_refl). rewrite length_app in Hroom. lia.
  - intros id Hid. destruct (Hroom id) as [Hrange Hfree]; [apply elem_of_app; auto|].
    split; [exact Hrange|]. intros Hm1.
    destruct (id_node_map_ g2 !! id) as [n2|] eqn:E; [|reflexivity]. exfalso.
    assert (Hs1 : is_Some (id_node_map_ g1 !! id)) by (apply Hdom; eauto).
    assert (Hm : m !! id = None).
    { destruct (m !! id) eqn:Em; [|reflexivity].
      eapply lookup_weaken in Em; [|exact S1]. congruence. }
    destruct (N1 id (Hfree Hm) Hs1) as (k & Hk & Hk1).
    destruct (V1 k id Hk Hk1) as [_ Heq]. specialize (Heq eq_refl). subst k. congruence.
Qed.

Lemma copy_operands_cons copy_node N op rest m (g : IR) :
  copy_operands copy_node N (op :: rest) m g
  = match copy_node op m g with
    | (Ok r, g1) =>
      match AddOperand N r.2 g1 with
      | (Ok _, g2) => copy_operands copy_node N rest r.1 g2
      | (Err e, g2) => (Err e, g2)
      end
    | (Err e, g1) => (Err e, g1)
    end.
Proof.
  simpl. unfold mbind at 1, GraphM_bind at 1. destruct (copy_node op m g) as [[r|e] g1];
    [|reflexivity].
  unfold mbind at 1, GraphM_bind at 1. destruct (AddOperand N r.2 g1) as [[u|e] g2];
    reflexivity.
Qed.

(** Attaching a fresh operand to a node of the graph. *)
Lemma AddOperand_ok g0 N c nN (g : IR) :
  wf g -> extends g0 g -> id_node_map_ g0 !! N = None ->
  id_node_map_ g !! N = Some nN -> is_Some (id_node_map_ g !! c) ->
  (N, c) ∉ plan.edges_ (dag_ g) ->
  exists g',
    AddOperand N c g = (Ok tt, g') /\ wf g' /\ extends g0 g' /\
    this_ g' = this_ g /\
    id_node_map_ g' = alter (push_operand c) N (id_node_map_ g) /\
    plan.edges_ (dag_ g') = plan.edges_ (dag_ g) ++ [(N, c)] /\
    id_node_counter g' = id_node_counter g.
Proof.
  intros Hwf Hext H0 HN Hc Hedge.
  set (g1 := (update_node N (push_operand c) g).2).
  assert (Hwf1 : wf g1) by (apply update_node_wf; [exact Hwf | intros n; split; reflexivity]).
  assert (Hext1 : extends g0 g1) by (apply update_node_extends; assumption).
  destruct (AddEdge_ok N c g1 Hwf1) as (g' & HA & Hwf' & Ht & Hm & He & Hcn).
  - apply is_Some_alter. eauto.
  - apply is_Some_alter. exact Hc.
  - exact Hedge.
  - exists g'.
    split; [unfold AddOperand, mbind, GraphM_bind; simpl; exact HA|].
    split; [exact Hwf'|].
    split; [eapply AddEdge_extends; eauto|].
    split_and!; assumption.
Qed.

Lemma same_but_operands_refl (n : IRNode) : same_but_operands n n.
Proof. repeat split. Qed.

(** The operand loop of [CopyFromNode], for a copy [N] that is new with
    respect to [g0]; [done] are the sources whose copies [N] is already
    joined to. *)
Lemma copy_operands_spec same N (operands : list Source) :
  Forall (copy_spec same) operands ->
  forall (done : list Z) m (g g0 : IR) nN,
    wf g -> extends g0 g -> id_node_map_ g0 !! N = None ->
    id_node_map_ g !! N = Some nN ->
    Forall (fun op => Forall (mode same g) (tree_nodes op)) operands ->
    NoDup (source_id <$> operands) ->
    (forall op, op ∈ operands -> source_id op ∉ done) ->
    (forall b, (N, b) ∈ plan.edges_ (dag_ g) -> exists k, k ∈ done /\ m !! k = Some b) ->
    Minj m -> Mrange m g ->
    room same (List.concat (tree_ids <$> operands)) m g ->
    exists m' g' cs nN',
      copy_operands CopyNode N operands m g = (Ok m', g') /\
      extends g0 g' /\
      copied same (List.concat (tree_ids <$> operands)) m g m' g' /\
      id_node_map_ g' !! N = Some nN' /\
      same_but_operands nN nN' /\
      operands_ nN' = operands_ nN ++ cs /\
      Forall2 (fun op c => m' !! source_id op = Some c) operands cs.
Proof.
  induction 1 as [|op rest Hop Hrest IH];
    intros done m g g0 nN Hwf Hext H0 HN Hmode Hnd Hdone Hedges Hinj Hrange Hroom.
  - exists m, g, [], nN. split_and!; auto.
    + apply copied_refl; auto.
    + apply same_but_operands_refl.
    + now rewrite app_nil_r.
  - rewrite fmap_cons in Hroom. simpl in Hroom.
    apply Forall_cons in Hmode as [Hmode_op Hmode_rest].
    rewrite fmap_cons in Hnd. apply NoDup_cons in Hnd as [Hnotin Hnd'].
    destruct (Hop m g Hwf Hmode_op Hinj Hrange (room_app_l _ _ _ _ _ Hroom))
      as (m1 & c & g1 & HC & Hext1 & Hcp1 & Hm1c & _).
    pose proof Hcp1 as [W1 S1 I1 R1 K1 V1 N1 C1].
    assert (HN1 : id_node_map_ g1 !! N = Some nN) by (apply (ext_nodes _ _ Hext1); exact HN).
    assert (Hc1 : is_Some (id_node_map_ g1 !! c)) by (apply (R1 (source_id op)); exact Hm1c).
    assert (Hfresh_edge : (N, c) ∉ plan.edges_ (dag_ g1)).
    { intros He. destruct (ext_new_edges _ _ Hext1 _ _ He) as [He0|Hnone]; [|congruence].
      destruct (Hedges c He0) as (k & Hk & Hmk).
      assert (k = source_id op).
      { apply (I1 _ _ c); [|exact Hm1c]. eapply lookup_weaken; eassumption. }
      subst k. apply (Hdone op); [apply list_elem_of_here | exact Hk]. }
    destruct (AddOperand_ok g0 N c nN g1 W1 (extends_trans _ _ _ Hext Hext1) H0 HN1 Hc1
                            Hfresh_edge)
      as (g2 & HA & Hwf2 & Hext2 & Ht2 & Hm2 & He2 & Hc2).
    assert (Hdom2 : forall id, is_Some (id_node_map_ g2 !! id)
                               <-> is_Some (id_node_map_ g1 !! id))
      by (intros id; rewrite Hm2; apply is_Some_alter).
    destruct (IH (source_id op :: done) m1 g2 g0 (push_operand c nN))
      as (m' & g' & cs & nN' & HL & Hext' & Hcp' & HN' & Hsame & Hops & HF2); auto.
    + rewrite Hm2, lookup_alter_eq, HN1. reflexivity.
    + eapply Forall_impl; [exact Hmode_rest|]. intros op' Hop'.
      eapply Forall_impl; [exact Hop'|]. intros n Hn. eapply mode_this; [|exact Hn].
      rewrite Ht2. apply (ext_this _ _ Hext1).
    + intros op' Hin Hd. apply elem_of_cons in Hd as [Heq|Hd].
      * apply Hnotin. rewrite <- Heq. apply list_elem_of_fmap. eauto.
      * apply (Hdone op'); [apply list_elem_of_further; exact Hin | exact Hd].
    + intros b Hb. rewrite He2 in Hb. apply elem_of_app in Hb as [Hb|Hb].
      * destruct (ext_new_edges _ _ Hext1 _ _ Hb) as [Hb0|Hnone]; [|congruence].
        destruct (Hedges b Hb0) as (k & Hk & Hmk). exists k.
        split; [apply list_elem_of_further; exact Hk|]. eapply lookup_weaken; eassumption.
      * apply list_elem_of_singleton in Hb. injection Hb as ->.
        exists (source_id op). split; [apply list_elem_of_here | exact Hm1c].
    + intros k v Hkv. apply Hdom2. exact (R1 k v Hkv).
    + eapply room_next; eassumption.
    + exists m', g', (c :: cs), nN'. split_and!.
      * rewrite copy_operands_cons, HC. simpl. rewrite HA. exact HL.
      * exact Hext'.
      * rewrite fmap_cons. simpl. eapply copied_seq; try eassumption.
        intros id [n Hn]. exists n. apply (ext_nodes _ _ Hext1). exact Hn.
      * exact HN'.
      * destruct Hsame as (? & ? & ? & ? & ? & ? & ?). repeat split; assumption.
      * rewrite Hops. simpl. now rewrite <- app_assoc.
      * constructor; [|exact HF2].
        eapply lookup_weaken; [exact Hm1c | apply (cp_sub _ _ _ _ _ _ Hcp')].
Qed.

Lemma Forall_concat {A} (P : A -> Prop) (ls : list (list A)) :
  Forall P (List.concat ls) <-> Forall (Forall P) ls.
Proof.
  induction ls as [|l ls IH]; simpl.
  - split; constructor.
  - rewrite Forall_app, Forall_cons, IH. reflexivity.
Qed.

Lemma tree_nodes_node n (operands : list Source) :
  tree_nodes (SourceNode n operands) = n :: List.concat (tree_nodes <$> operands).
Proof. reflexivity. Qed.

Lemma CopyNode_found n operands m (g : IR) c :
  m !! id_ n = Some c -> CopyNode (SourceNode n operands) m g = (Ok (m, c), g).
Proof. intros H. simpl. rewrite H. reflexivity. Qed.

Lemma CopyNode_fresh n operands m (g : IR) :
  m !! id_ n = None ->
  CopyNode (SourceNode n operands) m g =
  match MakeNodeWithType (type_ n)
          (if bool_decide (this_ g = graph_ptr_ n) then id_node_counter g else id_ n) g with
  | (Ok new_node, g1) =>
    match CopyFromNode CopyNode new_node n operands m g1 with
    | (Ok m2, g2) => (Ok (emplace (id_ n) new_node m2, new_node), g2)
    | (Err e, g2) => (Err e, g2)
    end
  | (Err e, g1) => (Err e, g1)
  end.
Proof.
  intros H. simpl. rewrite H. unfold mbind at 1, GraphM_bind at 1.
  destruct (MakeNodeWithType _ _ g) as [[new_node|e] g1]; [|reflexivity].
  unfold mbind at 1, GraphM_bind at 1.
  destruct (CopyFromNode _ _ _ _ _ g1) as [[m2|e] g2]; reflexivity.
Qed.

Lemma CopyFromNode_copyable copy_node N n operands m (g : IR) :
  copyable_type (type_ n) ->
  CopyFromNode copy_node N n operands m g =
  copy_operands copy_node N operands m
    (update_node N (set_attrs (attrs_ n)) (update_node N (copy_position n) g).2).2.
Proof.
  intros (H1 & H2 & H3). unfold CopyFromNode, mbind, GraphM_bind. simpl.
  destruct (type_ n); try congruence; reflexivity.
Qed.

(** Copying a copyable source succeeds and leaves a consistent graph. *)
Lemma CopyNode_spec same : forall s : Source, copyable s -> copy_spec same s.
Proof.
  induction s as [n operands IH] using Source_ind'. intros Hcopyable.
  inversion Hcopyable as [n' ops' Htype Hnd Hacyc Hops]; subst n' ops'.
  assert (IHops : Forall (copy_spec same) operands).
  { apply Forall_forall. intros op Hin.
    rewrite Forall_forall in IH, Hops. auto. }
  clear IH. intros m g Hwf Hmode Hinj Hrange Hroom.
  rewrite tree_nodes_node in Hmode. apply Forall_cons in Hmode as [Hmode_n Hmode_ops].
  apply Forall_concat in Hmode_ops. rewrite Forall_fmap in Hmode_ops.
  rewrite tree_ids_node in Hroom |- *.
  change (source_id (SourceNode n operands)) with (id_ n).
  destruct (m !! id_ n) as [c|] eqn:Hm.
  - (* already copied *)
    exists m, c, g. split_and!.
    + now apply CopyNode_found.
    + apply extends_refl.
    + apply copied_refl; auto.
    + exact Hm.
    + discriminate.
  - (* a new copy *)
    set (N := if same then id_node_counter g else id_ n).
    assert (HN : (if bool_decide (this_ g = graph_ptr_ n)
                  then id_node_counter g else id_ n) = N)
      by (unfold mode in Hmode_n; rewrite Hmode_n; reflexivity).
    assert (Hfresh : id_node_map_ g !! N = None /\ INT64_MIN <= N < INT64_MAX).
    { unfold N, room in *. destruct same.
      - split.
        + destruct (id_node_map_ g !! id_node_counter g) as [x|] eqn:E; [|reflexivity].
          apply (wf_nodes _ Hwf) in E. lia.
        + pose proof (wf_counter _ Hwf) as Hc. unfold in_int64 in Hc.
          simpl in Hroom. lia.
      - destruct (Hroom (id_ n)) as [Hr Hf]; [apply list_elem_of_here|]. auto. }
    destruct Hfresh as [Hfresh HNrange].
    destruct Htype as (HT1 & HT2 & HT3).
    destruct (MakeNodeWithType_fresh (type_ n) N g Hwf HT1 HT2 Hfresh HNrange)
      as (g1 & HM & Hwf1 & Hext1 & Hmap1 & Hedges1 & Hcnt1).
    set (g1a := (update_node N (copy_position n) g1).2).
    set (g1b := (update_node N (set_attrs (attrs_ n)) g1a).2).
    assert (Hwf1b : wf g1b).
    { apply update_node_wf; [|intros x; split; reflexivity].
      apply update_node_wf; [exact Hwf1 | intros x; split; reflexivity]. }
    assert (Hext1b : extends g g1b).
    { apply update_node_extends; [|exact Hfresh].
      apply update_node_extends; [exact Hext1 | exact Hfresh]. }
    assert (HN1b : id_node_map_ g1b !! N = Some (copy_start n g N)).
    { unfold g1b, g1a, update_node. simpl.
      rewrite !lookup_alter_eq, Hmap1, lookup_insert_eq. reflexivity. }
    assert (Hdom1b : forall id, is_Some (id_node_map_ g1b !! id)
                                <-> id = N \/ is_Some (id_node_map_ g !! id)).
    { intros id. unfold g1b, g1a, update_node. simpl.
      rewrite !is_Some_alter, Hmap1, lookup_insert_is_Some.
      destruct (decide (N = id)); split; intros; intuition congruence. }
    assert (HnotN : N ∉ List.concat (tree_ids <$> operands) \/ same = true).
    { unfold N. destruct same; auto. }
    destruct (copy_operands_spec same N operands IHops [] m g1b g (copy_start n g N))
      as (m2 & g2 & cs & nN' & HL & Hext2 & Hcp2 & HN2 & Hsame & Hcs & HF2); auto.
    + eapply Forall_impl; [exact Hmode_ops|]. intros op Hop. simpl in Hop.
      eapply Forall_impl; [exact Hop|]. intros x Hx. eapply mode_this; [|exact Hx].
      apply (ext_this _ _ Hext1b).
    + intros op _ H. inversion H.
    + intros b Hb. exfalso.
      assert (Hb' : (N, b) ∈ plan.edges_ (dag_ g)) by (rewrite <- Hedges1; exact Hb).
      apply (wf_edges _ Hwf) in Hb' as [[x Hx] _]. congruence.
    + intros k v Hkv. apply Hdom1b. right. exact (Hrange k v Hkv).
    + unfold room in *. destruct same.
      * change (id_node_counter g1b) with (id_node_counter g1). rewrite Hcnt1.
        simpl in Hroom. lia.
      * intros id Hid. destruct (Hroom id) as [Hr Hf]; [apply list_elem_of_further; exact Hid|].
        split; [exact Hr|]. intros Hmid.
        destruct (id_node_map_ g1b !! id) as [x|] eqn:E; [|reflexivity]. exfalso.
        assert (Hs : is_Some (id_node_map_ g1b !! id)) by eauto.
        apply Hdom1b in Hs as [->|Hs].
        -- destruct HnotN as [HnotN|]; [|discriminate]. contradiction.
        -- rewrite (Hf Hmid) in Hs. destruct Hs; discriminate.
    + pose proof Hcp2 as [W2 S2 I2 R2 K2 V2 N2 C2].
      assert (Hm2 : m2 !! id_ n = None).
      { destruct (m2 !! id_ n) as [v|] eqn:E; [|reflexivity]. exfalso.
        apply Hacyc. apply K2; [exact Hm | eauto]. }
      assert (HNrange2 : forall k, m2 !! k <> Some N).
      { intros k Hk. destruct (m !! k) as [v|] eqn:E.
        - eapply lookup_weaken in E; [|exact S2].
          assert (v = N) by congruence. subst v.
          destruct (m !! k) as [v'|] eqn:E'.
          + assert (v' = N).
            { eapply lookup_weaken in E'; [|exact S2]. congruence. }
            subst v'. destruct (Hrange k N E') as [x Hx]. congruence.
          + destruct (V2 k N E' Hk) as [Hnone _]. congruence.
        - destruct (V2 k N E Hk) as [Hnone _]. congruence. }
      exists (<[id_ n := N]> m2), N, g2. split_and!.
      * rewrite (CopyNode_fresh n operands m g Hm), HN, HM.
        rewrite (CopyFromNode_copyable CopyNode N n operands m g1 (conj HT1 (conj HT2 HT3))).
        fold g1a. fold g1b. rewrite HL. unfold emplace. rewrite Hm2. reflexivity.
      * exact Hext2.
      * constructor.
        -- exact W2.
        -- etrans; [exact S2|]. now apply insert_subseteq.
        -- intros k1 k2 v H1 H2.
           destruct (decide (k1 = id_ n)) as [->|Hne1];
             destruct (decide (k2 = id_ n)) as [->|Hne2]; auto.
           ++ rewrite lookup_insert_eq in H1. injection H1 as <-.
              rewrite lookup_insert_ne in H2 by congruence. exfalso. eapply HNrange2; eauto.
           ++ rewrite lookup_insert_eq in H2. injection H2 as <-.
              rewrite lookup_insert_ne in H1 by congruence. exfalso. eapply HNrange2; eauto.
           ++ rewrite lookup_insert_ne in H1, H2 by congruence. eapply I2; eauto.
        -- intros k v Hkv. destruct (decide (k = id_ n)) as [->|Hne].
           ++ rewrite lookup_insert_eq in Hkv. injection Hkv as <-. eauto.
           ++ rewrite lookup_insert_ne in Hkv by congruence. eapply R2; eauto.
        -- intros k Hk Hs. destruct (decide (k = id_ n)) as [->|Hne]; [apply list_elem_of_here|].
           apply list_elem_of_further. rewrite lookup_insert_ne in Hs by congruence. auto.
        -- intros k v Hk Hkv. destruct (decide (k = id_ n)) as [->|Hne].
           ++ rewrite lookup_insert_eq in Hkv. injection Hkv as <-.
              split; [exact Hfresh|]. intros ->. reflexivity.
           ++ rewrite lookup_insert_ne in Hkv by congruence.
              destruct (V2 k v Hk Hkv) as [Hnone Hv]. split; [|exact Hv].
              destruct (id_node_map_ g !! v) as [x|] eqn:E; [|reflexivity].
              assert (Hs : is_Some (id_node_map_ g1b !! v)) by (apply Hdom1b; eauto).
              rewrite Hnone in Hs. destruct Hs; discriminate.
        -- intros id Hid Hs. destruct (decide (id = N)) as [->|Hne].
           ++ exists (id_ n). rewrite lookup_insert_eq. auto.
           ++ destruct (N2 id) as (k & Hk & Hk2); [|exact Hs|].
              ** destruct (id_node_map_ g1b !! id) as [x|] eqn:E; [|reflexivity].
                 assert (Hs' : is_Some (id_node_map_ g1b !! id)) by eauto.
                 apply Hdom1b in Hs' as [?|Hs']; [congruence|].
                 rewrite Hid in Hs'. destruct Hs'; discriminate.
              ** exists k. split; [exact Hk|].
                 rewrite lookup_insert_ne; [exact Hk2 | congruence].
        -- intros Hs. specialize (C2 Hs). subst same.
           change (id_node_counter g1b) with (id_node_counter g1) in C2.
           rewrite Hcnt1 in C2. simpl. unfold N in C2. lia.
      * apply lookup_insert_eq.
      * intros _. unfold is_copy. split; [reflexivity|]. split; [exact Hfresh|].
        exists nN'. destruct Hsame as (Ht & Hi & Hl & Hc & Hg & Hlc & Ha).
        simpl in Hcs. subst cs. split_and!; auto.
        eapply Forall2_impl; [exact HF2|]. intros op c Hc'. simpl.
        rewrite lookup_insert_ne; [exact Hc'|]. intros Heq. congruence.
Qed.

(** *** No edge twice, in any reachable state *)

Lemma keeps_ret {A} (a : A) : keeps_edges_distinct (mret a).
Proof. intros g H. exact H. Qed.

Lemma keeps_bind {A B} (m : GraphM Attrs A) (f : A -> GraphM Attrs B) :
  keeps_edges_distinct m -> (forall a, keeps_edges_distinct (f a)) ->
  keeps_edges_distinct (m ≫= f).
Proof.
  intros Hm Hf g H. unfold mbind, GraphM_bind. specialize (Hm g H).
  destruct (m g) as [[a|e] g1]; simpl in *; [apply Hf; exact Hm | exact Hm].
Qed.

Lemma keeps_MakeNode T id ast : keeps_edges_distinct (MakeNode T id ast).
Proof. intros g H. exact H. Qed.

Lemma keeps_MakeNodeWithType T id : keeps_edges_distinct (MakeNodeWithType T id).
Proof. intros g H. destruct T; exact H. Qed.

Lemma keeps_update_node N f : keeps_edges_distinct (update_node N f).
Proof. intros g H. exact H. Qed.

Lemma keeps_AddEdge a b : keeps_edges_distinct (AddEdge a b).
Proof.
  intros g H. unfold AddEdge, HasEdge, plan.HasEdge.
  destruct (bool_decide _) eqn:E; [exact H|].
  apply bool_decide_eq_false in E.
  destruct (negb _); [exact H|]. simpl.
  apply NoDup_app. split_and!; [exact H | | apply NoDup_singleton].
  intros e He1 He2. apply list_elem_of_singleton in He2. subst e. contradiction.
Qed.

Lemma keeps_DeleteEdge a b : keeps_edges_distinct (DeleteEdge a b).
Proof.
  intros g H. unfold DeleteEdge. destruct (HasEdge g a b); [|exact H].
  simpl. now apply NoDup_filter.
Qed.

Lemma keeps_DeleteNode n : keeps_edges_distinct (DeleteNode n).
Proof.
  intros g H. unfold DeleteNode. destruct (HasNode g n); [|exact H].
  simpl. now apply NoDup_filter.
Qed.

Lemma keeps_AddOperand N c : keeps_edges_distinct (AddOperand N c).
Proof.
  unfold AddOperand. apply keeps_bind; [apply keeps_update_node|].
  intros _. apply keeps_AddEdge.
Qed.

Lemma keeps_copy_operands copy_node N (operands : list Source) :
  Forall (fun op => forall m, keeps_edges_distinct (copy_node op m)) operands ->
  forall m, keeps_edges_distinct (copy_operands copy_node N operands m).
Proof.
  induction 1 as [|op rest Hop _ IH]; intros m; simpl; [apply keeps_ret|].
  apply keeps_bind; [apply Hop|]. intros r.
  apply keeps_bind; [apply keeps_AddOperand|]. intros _. apply IH.
Qed.

Lemma keeps_CopyNode : forall (s : Source) m, keeps_edges_distinct (CopyNode s m).
Proof.
  induction s as [n operands IH] using Source_ind'. intros m. simpl.
  destruct (m !! id_ n); [apply keeps_ret|].
  intros g H.
  match goal with |- context [mbind ?f ?x g] => apply (keeps_bind x f) end;
    [apply keeps_MakeNodeWithType | | exact H].
  intros N. apply keeps_bind; [|intros m2; apply keeps_ret].
  unfold CopyFromNode. apply keeps_bind; [apply keeps_update_node|]. intros _.
  assert (Hloop : keeps_edges_distinct
                    (update_node N (set_attrs (attrs_ n));;
                     copy_operands CopyNode N operands m)).
  { apply keeps_bind; [apply keeps_update_node|]. intros _.
    now apply keeps_copy_operands. }
  destruct (type_ n); try exact Hloop.
  intros g' H'. exact H'.
Qed.

Lemma keeps_OptionallyCloneWithEdge parent (child : Source) :
  keeps_edges_distinct (OptionallyCloneWithEdge parent child).
Proof.
  intros g H. unfold OptionallyCloneWithEdge.
  match goal with |- context [mbind ?f ?x g] => apply (keeps_bind x f) end; [| |exact H].
  - destruct (HasEdge _ _ _); [|apply keeps_ret].
    unfold CopyNode1. apply keeps_bind; [apply keeps_CopyNode|]. intros r. apply keeps_ret.
  - intros c. apply keeps_bind; [apply keeps_AddEdge|]. intros _. apply keeps_ret.
Qed.

Lemma reachable_edges_distinct (g : IR) : reachable g -> NoDup (plan.edges_ (dag_ g)).
Proof.
  induction 1 as [addr|g c Hg IH]; [constructor|].
  destruct c; unfold after_call.
  - apply keeps_MakeNode, IH.
  - apply (keeps_MakeNode T (id_node_counter g) ast), IH.
  - apply keeps_AddEdge, IH.
  - apply keeps_DeleteEdge, IH.
  - apply keeps_DeleteNode, IH.
  - apply keeps_CopyNode, IH.
  - apply keeps_OptionallyCloneWithEdge, IH.
Qed.

(** *** The two copy operations *)

Lemma views_owned (g : IR) : wf g ->
  forall s : Source, views g s -> Forall (mode true g) (tree_nodes s).
Proof.
  intros Hwf. induction s as [n operands IH] using Source_ind'. intros Hv.
  inversion Hv as [n' ops' Hn Hops Hvs]; subst n' ops'.
  rewrite tree_nodes_node. constructor.
  - unfold mode. apply bool_decide_eq_true_2.
    destruct (wf_nodes _ Hwf _ _ Hn) as (_ & Hg & _). congruence.
  - apply Forall_concat. rewrite Forall_fmap. apply Forall_forall. intros op Hin.
    rewrite Forall_forall in IH, Hvs. simpl. auto.
Qed.

Lemma Minj_empty : Minj ∅.
Proof. intros k1 k2 v H. rewrite lookup_empty in H. discriminate. Qed.

Lemma Mrange_empty (g : IR) : Mrange ∅ g.
Proof. intros k v H. rewrite lookup_empty in H. discriminate. Qed.

(** C1 (amended to children that can be copied): in a consistent graph
    with room left in the id counter, re-attaching a child that already has
    an edge from the parent -- a node of the graph under which no
    TabletSourceGroup is reached -- succeeds and returns a clone: a node
    that did not exist before, of the child's type and attributes, with an
    edge from the parent; the edge from the parent to the child is still
    there, the child and every other node of the graph are as they were, and
    so is every edge.  And in every reachable state of a graph, no edge
    occurs twice. *)
Theorem OptionallyCloneWithEdge_clones_connected_child
    (g : IR) (parent : Z) (child : Source)
    (Hwf : wf g) (Hchild : views g child) (Hcopyable : copyable child)
    (Hedge : HasEdge g parent (source_id child) = true)
    (Hroom : id_node_counter g + Z.of_nat (List.length (tree_ids child)) <= INT64_MAX) :
  (exists g' clone n',
      OptionallyCloneWithEdge parent child g = (Ok clone, g') /\
      clone = id_node_counter g /\
      id_node_map_ g !! clone = None /\
      clone <> source_id child /\
      id_node_map_ g' !! clone = Some n' /\
      id_ n' = clone /\ graph_ptr_ n' = this_ g /\
      type_ n' = type_ (source_node child) /\
      attrs_ n' = attrs_ (source_node child) /\
      line_ n' = line_ (source_node child) /\ col_ n' = col_ (source_node child) /\
      List.length (operands_ n') = List.length (source_operands child) /\
      HasEdge g' parent clone = true /\
      HasEdge g' parent (source_id child) = true /\
      id_node_map_ g' !! source_id child = Some (source_node child) /\
      (forall id n, id_node_map_ g !! id = Some n -> id_node_map_ g' !! id = Some n) /\
      (forall e, e ∈ plan.edges_ (dag_ g) -> e ∈ plan.edges_ (dag_ g')) /\
      wf g') /\
  (forall g0 : IR, reachable g0 -> NoDup (plan.edges_ (dag_ g0))).
Proof.
  split; [|exact reachable_edges_distinct].
  pose proof (views_owned g Hwf child Hchild) as Hmode.
  destruct (CopyNode_spec true child Hcopyable ∅ g Hwf Hmode Minj_empty (Mrange_empty g) Hroom)
    as (m' & c & g1 & HC & Hext & Hcp & Hmc & Hcopy).
  destruct (Hcopy (lookup_empty _)) as (Hc & Hfresh & n' & Hn' & Ht & Hi & Hg & Hl & Hcol
                                        & Hlc & Ha & Hops).
  simpl in Hc.
  assert (Hin : (parent, source_id child) ∈ plan.edges_ (dag_ g)).
  { unfold HasEdge, plan.HasEdge in Hedge. now apply bool_decide_eq_true in Hedge. }
  destruct (wf_edges _ Hwf _ _ Hin) as [[np Hp] [nc Hchild_in]].
  assert (Hnew_edge : (parent, c) ∉ plan.edges_ (dag_ g1)).
  { intros He. destruct (ext_new_edges _ _ Hext _ _ He) as [He0|Hnone]; [|congruence].
    apply (wf_edges _ Hwf) in He0 as [_ [x Hx]]. congruence. }
  destruct (AddEdge_ok parent c g1 (cp_wf _ _ _ _ _ _ Hcp)) as
      (g' & HA & Hwf' & Ht' & Hm' & He' & Hc'); [| |exact Hnew_edge|].
  { exists np. apply (ext_nodes _ _ Hext). exact Hp. }
  { eauto. }
  assert (Hroot : id_node_map_ g !! source_id child = Some (source_node child)).
  { inversion Hchild; subst. assumption. }
  exists g', c, n'. split_and!; try assumption.
  - unfold OptionallyCloneWithEdge. rewrite Hedge.
    unfold mbind at 1, GraphM_bind at 1. unfold CopyNode1.
    unfold mbind at 1, GraphM_bind at 1. rewrite HC. simpl.
    unfold mbind, GraphM_bind. rewrite HA. reflexivity.
  - intros Heq. congruence.
  - rewrite Hm'. exact Hn'.
  - apply Forall2_length in Hops. symmetry. exact Hops.
  - unfold HasEdge, plan.HasEdge. apply bool_decide_eq_true_2.
    rewrite He'. apply elem_of_app. right. apply list_elem_of_here.
  - unfold HasEdge, plan.HasEdge. apply bool_decide_eq_true_2.
    rewrite He'. apply elem_of_app. left. apply (ext_edges _ _ Hext). exact Hin.
  - rewrite Hm'. apply (ext_nodes _ _ Hext). exact Hroot.
  - intros id n Hn. rewrite Hm'. apply (ext_nodes _ _ Hext). exact Hn.
  - intros e He. rewrite He'. apply elem_of_app. left. apply (ext_edges _ _ Hext). exact He.
Qed.

(** C2 (amended): a copy of a source the map does not hold yet succeeds
    and gets this id: across graphs, the id of the source node itself, with
    the counter of the destination raised above it; within the graph that
    owns the source, the current value of the graph's counter, whatever the
    id of the source -- and so never the id of the source when the source is
    a node of the graph.  Either way the id was free in the destination,
    and the copy has the type and the attributes of the source. *)
Theorem CopyNode_id_of_the_copy
    (same : bool) (g : IR) (source : Source) (copied_nodes_map : gmap Z Z)
    (Hwf : wf g)
    (Hmode : Forall (mode same g) (tree_nodes source))
    (Hcopyable : copyable source)
    (Hinj : Minj copied_nodes_map) (Hrange : Mrange copied_nodes_map g)
    (Hroom : room same (tree_ids source) copied_nodes_map g)
    (Hnew : copied_nodes_map !! source_id source = None) :
  exists m' copy g' n',
    CopyNode source copied_nodes_map g = (Ok (m', copy), g') /\
    copy = (if same then id_node_counter g else source_id source) /\
    id_node_map_ g !! copy = None /\
    id_node_map_ g' !! copy = Some n' /\
    id_ n' = copy /\ graph_ptr_ n' = this_ g /\
    type_ n' = type_ (source_node source) /\
    attrs_ n' = attrs_ (source_node source) /\
    copy < id_node_counter g' /\
    m' !! source_id source = Some copy /\
    (same = true -> is_Some (id_node_map_ g !! source_id source) ->
     copy <> source_id source) /\
    wf g' /\ extends g g'.
Proof.
  destruct (CopyNode_spec same source Hcopyable copied_nodes_map g Hwf Hmode Hinj Hrange Hroom)
    as (m' & c & g' & HC & Hext & Hcp & Hmc & Hcopy).
  destruct (Hcopy Hnew) as (Hc & Hfresh & n' & Hn' & Ht & Hi & Hg & Hl & Hcol & Hlc & Ha & Hops).
  exists m', c, g', n'. split_and!; try assumption.
  - destruct (wf_nodes _ (cp_wf _ _ _ _ _ _ Hcp) _ _ Hn') as (_ & _ & Hlt). exact Hlt.
  - intros _ [x Hx] Heq. congruence.
  - exact (cp_wf _ _ _ _ _ _ Hcp).
Qed.

(** Consistency along the calls that build a graph. *)
Lemma wf_MakeNodeWithType T id (g : IR) :
  wf g -> T <> kAny -> T <> number_of_types ->
  id_node_map_ g !! id = None -> INT64_MIN <= id < INT64_MAX ->
  wf (MakeNodeWithType T id g).2.
Proof.
  intros Hwf H1 H2 Hf Hr.
  destruct (MakeNodeWithType_fresh T id g Hwf H1 H2 Hf Hr) as (g' & -> & Hwf' & _).
  exact Hwf'.
Qed.

Lemma wf_AddEdge a b (g : IR) :
  wf g -> is_Some (id_node_map_ g !! a) -> is_Some (id_node_map_ g !! b) ->
  (a, b) ∉ plan.edges_ (dag_ g) ->
  wf (AddEdge a b g).2.
Proof.
  intros Hwf Ha Hb Hab.
  destruct (AddEdge_ok a b g Hwf Ha Hb Hab) as (g' & -> & Hwf' & _). exact Hwf'.
Qed.

End CopyFacts.

(** *** Concrete graphs *)

Lemma sample_graph_wf : wf sample_graph.
Proof.
  assert (Hrange : forall z, 0 <= z < 10 -> INT64_MIN <= z < INT64_MAX)
    by (unfold INT64_MIN, INT64_MAX; lia).
  assert (H1 : wf sample_g1).
  { apply (wf_MakeNodeWithType kFunc 0 (IR_new 0));
      [apply IR_new_wf | discriminate | discriminate | reflexivity | apply Hrange; lia]. }
  assert (H2 : wf sample_g2).
  { apply (wf_MakeNodeWithType kInt 1 sample_g1);
      [exact H1 | discriminate | discriminate | reflexivity | apply Hrange; lia]. }
  assert (H3 : wf sample_g3).
  { apply update_node_wf; [exact H2 | intros n; split; reflexivity]. }
  apply (wf_AddEdge 0 1 (update_node 0 (push_operand 1) sample_g3).2).
  - apply update_node_wf; [exact H3 | intros n; split; reflexivity].
  - vm_compute. eauto.
  - vm_compute. eauto.
  - vm_compute. apply not_elem_of_nil.
Qed.

Lemma sample_child_copyable : copyable sample_child.
Proof.
  constructor; [repeat split; discriminate | constructor | apply not_elem_of_nil | constructor].
Qed.

Lemma OptionallyCloneWithEdge_clones_connected_child_witness :
  wf sample_graph /\
  views sample_graph sample_child /\
  copyable sample_child /\
  HasEdge sample_graph 0 (source_id sample_child) = true /\
  id_node_counter sample_graph
    + Z.of_nat (List.length (tree_ids sample_child)) <= INT64_MAX /\
  exists g' clone n',
    OptionallyCloneWithEdge 0 sample_child sample_graph = (Ok clone, g') /\
    clone = 2 /\
    id_node_map_ g' !! clone = Some n' /\
    type_ n' = kInt /\ attrs_ n' = 42 /\
    HasEdge g' 0 clone = true /\
    HasEdge g' 0 1 = true /\
    id_node_map_ g' !! 1 = id_node_map_ sample_graph !! 1.
Proof.
  assert (Hv : views sample_graph sample_child)
    by (constructor; [reflexivity | reflexivity | constructor]).
  assert (He : HasEdge sample_graph 0 (source_id sample_child) = true) by reflexivity.
  assert (Hr : id_node_counter sample_graph
               + Z.of_nat (List.length (tree_ids sample_child)) <= INT64_MAX)
    by (vm_compute; discriminate).
  split; [exact sample_graph_wf|]. split; [exact Hv|].
  split; [exact sample_child_copyable|]. split; [exact He|]. split; [exact Hr|].
  destruct (proj1 (OptionallyCloneWithEdge_clones_connected_child
                     sample_graph 0 sample_child
                     sample_graph_wf Hv sample_child_copyable He Hr))
    as (g' & clone & n' & HO & Hc & _ & _ & Hn' & _ & _ & Ht & Ha & _ & _ & _
        & He1 & He2 & Hchild & _).
  exists g', clone, n'. split_and!; assumption.
Defined.

(** C1 as stated fails for a TabletSourceGroup child: its [CopyFromNodeImpl]
    returns [UNIMPLEMENTED], so no clone is returned and no edge is added --
    the half-made copy (id 2) stays behind in the graph with no edge. *)
Lemma TabletSourceGroup_child_is_not_cloned :
  views tablet_graph tablet_child /\
  HasEdge tablet_graph 0 (source_id tablet_child) = true /\
  (OptionallyCloneWithEdge 0 tablet_child tablet_graph).1
    = Err (error.Unimplemented
             "TabletSourceGroup::CopyFromNode not implemented because no use found for it yet.") /\
  let g' := (OptionallyCloneWithEdge 0 tablet_child tablet_graph).2 in
  plan.edges_ (dag_ g') = [(0, 1)] /\
  type_ <$> (id_node_map_ g' !! 2) = Some kTabletSourceGroup.
Proof.
  split; [constructor; [reflexivity | reflexivity | constructor]|].
  vm_compute. repeat split.
Qed.

Lemma CopyNode_id_of_the_copy_witness :
  (exists m' copy g' n',
      CopyNode foreign_literal ∅ sample_graph = (Ok (m', copy), g') /\
      copy = 5 /\
      id_node_map_ g' !! copy = Some n' /\
      type_ n' = kInt /\ attrs_ n' = 42 /\
      copy < id_node_counter g') /\
  (exists m' copy g' n',
      CopyNode sample_child ∅ sample_graph = (Ok (m', copy), g') /\
      copy = 2 /\
      id_node_map_ g' !! copy = Some n' /\
      type_ n' = kInt /\ attrs_ n' = 42 /\
      copy <> source_id sample_child).
Proof.
  split.
  - assert (Hmode : Forall (mode false sample_graph) (tree_nodes foreign_literal))
      by (repeat constructor).
    assert (Hcopyable : copyable foreign_literal).
    { constructor;
        [repeat split; discriminate | constructor | apply not_elem_of_nil | constructor]. }
    assert (Hroom : room false (tree_ids foreign_literal) ∅ sample_graph).
    { intros id Hid. apply list_elem_of_singleton in Hid. subst id.
      split; [vm_compute; split; [discriminate | reflexivity] | reflexivity]. }
    destruct (CopyNode_id_of_the_copy false sample_graph foreign_literal ∅
                sample_graph_wf Hmode Hcopyable Minj_empty (Mrange_empty _) Hroom eq_refl)
      as (m' & copy & g' & n' & HC & Hc & _ & Hn' & _ & _ & Ht & Ha & Hlt & _).
    exists m', copy, g', n'. split_and!; assumption.
  - assert (Hmode : Forall (mode true sample_graph) (tree_nodes sample_child))
      by (repeat constructor).
    assert (Hroom : room true (tree_ids sample_child) ∅ sample_graph)
      by (vm_compute; discriminate).
    destruct (CopyNode_id_of_the_copy true sample_graph sample_child ∅
                sample_graph_wf Hmode sample_child_copyable Minj_empty (Mrange_empty _)
                Hroom eq_refl)
      as (m' & copy & g' & n' & HC & Hc & _ & Hn' & _ & _ & Ht & Ha & _ & _ & Hne & _).
    exists m', copy, g', n'. split_and!; try assumption.
    apply Hne; [reflexivity | vm_compute; eauto].
Defined.

(** C2 as stated fails across graphs: the copy takes the id of the source
    node (5), not the next id of the destination's counter (0 in an empty
    graph, 2 in the sample graph), and the counter is moved past it. *)
Lemma cross_graph_copy_takes_the_source_id :
  id_node_counter (IR_new (Attrs := Z) 0) = 0 /\
  (CopyNode1 foreign_literal (IR_new 0)).1 = Ok 5 /\
  id_node_counter (CopyNode1 foreign_literal (IR_new 0)).2 = 6 /\
  id_node_counter sample_graph = 2 /\
  (CopyNode1 foreign_literal sample_graph).1 = Ok 5 /\
  id_node_counter (CopyNode1 foreign_literal sample_graph).2 = 6.
Proof. vm_compute. repeat split. Qed.

(** ** The cron-script store service *)

Section CronScriptFacts.
Context {CronScript ProtoUUID UUID E St : Type}.
Context {msgs : cronscript.Messages CronScript ProtoUUID UUID}.

Lemma scMap_fold_lookup (k : string) (scripts : list CronScript) :
  forall m0 : gmap string CronScript,
    foldl (fun scMap s => <[script_key s := s]> scMap) m0 scripts !! k
    = from_option Some (m0 !! k) (last (filter (fun sc => script_key sc = k) scripts)).
Proof.
  induction scripts as [|a l IH]; intros m0; simpl; [reflexivity|].
  rewrite IH. destruct (decide (script_key a = k)) as [Hk|Hk].
  - rewrite filter_cons_True by exact Hk. rewrite last_cons.
    destruct (last (filter _ l)); simpl; [reflexivity|].
    rewrite <- Hk. now rewrite lookup_insert_eq.
  - rewrite filter_cons_False by exact Hk.
    now rewrite lookup_insert_ne by exact Hk.
Qed.

(** The map built by [GetScripts] sends a key to the last script of the list
    filed under it. *)
Lemma scMap_of_lookup (scripts : list CronScript) (k : string) :
  cronscript.scMap_of scripts !! k
  = last (filter (fun sc => script_key sc = k) scripts).
Proof.
  unfold cronscript.scMap_of.
  rewrite (scMap_fold_lookup k scripts ∅), lookup_empty.
  now destruct (last _).
Qed.

Lemma scMap_of_sound (scripts : list CronScript) (k : string) (sc : CronScript) :
  cronscript.scMap_of scripts !! k = Some sc -> sc ∈ scripts /\ script_key sc = k.
Proof.
  rewrite scMap_of_lookup. intros H.
  apply last_Some_elem_of in H. apply list_elem_of_filter in H. tauto.
Qed.

Lemma scMap_of_complete (scripts : list CronScript) (sc : CronScript) :
  sc ∈ scripts -> is_Some (cronscript.scMap_of scripts !! script_key sc).
Proof.
  intros Hin. rewrite scMap_of_lookup.
  assert (Hf : sc ∈ filter (fun s => script_key s = script_key sc) scripts)
    by (apply list_elem_of_filter; auto).
  destruct (filter _ scripts) as [|x l] eqn:Ef using rev_ind.
  - inversion Hf.
  - rewrite last_snoc. eauto.
Qed.

Lemma filter_key_absent (scripts : list CronScript) (k : string) :
  k ∉ script_key <$> scripts -> filter (fun s => script_key s = k) scripts = [].
Proof.
  induction scripts as [|a l IH]; intros Hk; [reflexivity|].
  rewrite fmap_cons in Hk. apply not_elem_of_cons in Hk as [Hne Hk].
  rewrite filter_cons_False by congruence. auto.
Qed.

Lemma filter_key_NoDup (scripts : list CronScript) (sc : CronScript) :
  NoDup (script_key <$> scripts) -> sc ∈ scripts ->
  filter (fun s => script_key s = script_key sc) scripts = [sc].
Proof.
  induction scripts as [|a l IH]; intros Hnd Hin; [inversion Hin|].
  rewrite fmap_cons in Hnd. apply NoDup_cons in Hnd as [Hna Hnd].
  apply elem_of_cons in Hin as [->|Hin].
  - rewrite filter_cons_True by reflexivity. f_equal.
    now apply filter_key_absent.
  - rewrite filter_cons_False; [auto|].
    intros Hk. apply Hna. rewrite Hk. apply list_elem_of_fmap. eauto.
Qed.

Lemma SetScripts_list (entries : list (string * CronScript)) :
  forall acc, foldl (fun scripts kv => scripts ++ [kv.2]) acc entries = acc ++ entries.*2.
Proof.
  induction entries as [|kv l IH]; intros acc; simpl.
  - now rewrite app_nil_r.
  - rewrite IH. now rewrite <- app_assoc.
Qed.

(** C6 (amended): every operation hands the store's error back as it is.
    [GetScripts], [AddOrUpdateScript] and [DeleteScript] return no response
    with it; [SetScripts] returns an empty acknowledgement together with it.
    When the store succeeds, [GetScripts] returns the map that sends each
    UUID string among the scripts to the last script of the store's list
    that renders to it -- every script to itself when the UUID strings are
    pairwise distinct -- and the other three return an empty
    acknowledgement. *)
Theorem cronscript_service_forwards_store_results
    (s : cronscript.Server CronScript UUID E St) (st : St) :
  (forall scripts st',
      cronscript.GetCronScripts (cronscript.ds s) st = ((scripts, None), st') ->
      cronscript.GetScripts s st
        = ((Some (cronscript.mkGetScriptsResponse (cronscript.scMap_of scripts)), None), st')
      /\ (forall k, cronscript.scMap_of scripts !! k
                    = last (filter (fun sc => script_key sc = k) scripts))
      /\ (forall k sc, cronscript.scMap_of scripts !! k = Some sc ->
                       sc ∈ scripts /\ script_key sc = k)
      /\ (forall sc, sc ∈ scripts ->
                     is_Some (cronscript.scMap_of scripts !! script_key sc))
      /\ (NoDup (script_key <$> scripts) ->
          forall sc, sc ∈ scripts ->
                     cronscript.scMap_of scripts !! script_key sc = Some sc)) /\
  (forall scripts e st',
      cronscript.GetCronScripts (cronscript.ds s) st = ((scripts, Some e), st') ->
      cronscript.GetScripts s st = ((None, Some e), st')) /\
  (forall req st',
      cronscript.UpsertCronScript (cronscript.ds s) (cronscript.Script req) st = (None, st') ->
      cronscript.AddOrUpdateScript s req st
        = ((Some cronscript.mkAddOrUpdateScriptResponse, None), st')) /\
  (forall req e st',
      cronscript.UpsertCronScript (cronscript.ds s) (cronscript.Script req) st = (Some e, st') ->
      cronscript.AddOrUpdateScript s req st = ((None, Some e), st')) /\
  (forall req st',
      cronscript.DeleteCronScript (cronscript.ds s)
        (cronscript.UUIDFromProtoOrNil (cronscript.ScriptID req)) st = (None, st') ->
      cronscript.DeleteScript s req st = ((Some cronscript.mkDeleteScriptResponse, None), st')) /\
  (forall req e st',
      cronscript.DeleteCronScript (cronscript.ds s)
        (cronscript.UUIDFromProtoOrNil (cronscript.ScriptID req)) st = (Some e, st') ->
      cronscript.DeleteScript s req st = ((None, Some e), st')) /\
  (forall req err st',
      cronscript.SetCronScripts (cronscript.ds s) (cronscript.req_Scripts req).*2 st
        = (err, st') ->
      cronscript.SetScripts s req st = ((Some cronscript.mkSetScriptsResponse, err), st')).
Proof.
  split_and!.
  - intros scripts st' H. split_and!.
    + unfold cronscript.GetScripts. now rewrite H.
    + apply scMap_of_lookup.
    + apply scMap_of_sound.
    + apply scMap_of_complete.
    + intros Hnd sc Hin. rewrite scMap_of_lookup.
      now rewrite (filter_key_NoDup scripts sc Hnd Hin).
  - intros scripts e st' H. unfold cronscript.GetScripts. now rewrite H.
  - intros req st' H. unfold cronscript.AddOrUpdateScript. now rewrite H.
  - intros req e st' H. unfold cronscript.AddOrUpdateScript. now rewrite H.
  - intros req st' H. unfold cronscript.DeleteScript. now rewrite H.
  - intros req e st' H. unfold cronscript.DeleteScript. now rewrite H.
  - intros req err st' H. unfold cronscript.SetScripts.
    rewrite (SetScripts_list (cronscript.req_Scripts req) []). simpl. now rewrite H.
Qed.

End CronScriptFacts.

(** C6 as stated fails: when the store fails, [SetScripts] returns a response
    next to the error; and when two scripts of the store render to one UUID
    string, [GetScripts] maps that string to the later one only. *)
Lemma SetScripts_error_comes_with_a_response :
  let s := cronscript.New sample_store in
  cronscript.SetScripts s (cronscript.mkSetScriptsRequest [("a", ("a", "select 1"))])
                        (mkSampleStoreState [] (Some "store unavailable"))
    = ((Some cronscript.mkSetScriptsResponse, Some "store unavailable"),
       mkSampleStoreState [] (Some "store unavailable")) /\
  (exists m,
     (cronscript.GetScripts s
        (mkSampleStoreState [("", "first"); ("", "second")] None)).1
       = (Some (cronscript.mkGetScriptsResponse m), None) /\
     m !! "00000000-0000-0000-0000-000000000000" = Some ("", "second") /\
     forall k, m !! k <> Some ("", "first")).
Proof.
  split; [reflexivity|].
  exists (cronscript.scMap_of [("", "first"); ("", "second")]).
  split; [reflexivity|]. split; [reflexivity|].
  intros k Hk. destruct (scMap_of_sound _ _ _ Hk) as [_ Hkey].
  rewrite <- Hkey in Hk. vm_compute in Hk. discriminate Hk.
Qed.

Example cronscript_sample_run :
  let s := cronscript.New sample_store in
  let st := mkSampleStoreState [("u1", "q1"); ("u2", "q2")] None in
  (cronscript.GetScripts s st).1
    = (Some (cronscript.mkGetScriptsResponse {[ "u1" := ("u1", "q1"); "u2" := ("u2", "q2") ]}),
       None) /\
  (cronscript.DeleteScript s (cronscript.mkDeleteScriptRequest (Some "u1")) st)
    = ((Some cronscript.mkDeleteScriptResponse, None),
       mkSampleStoreState [("u2", "q2")] None) /\
  (cronscript.GetScripts s (mkSampleStoreState [] (Some "down"))).1 = (None, Some "down").
Proof. vm_compute. repeat split. Qed.

(** ** The deployment generator *)

Section ParseArgsFacts.
Variable w : deploy.World.

Lemma M_bind_Exit {A B} (m : deploy.M A) (f : A -> deploy.M B) p s p' :
  m p = (deploy.Exit s, p') -> (m ≫= f) p = (deploy.Exit s, p').
Proof. intros Hm. unfold mbind, deploy.M_bind. now rewrite Hm. Qed.


(** C8: when viper resolves both [prod] and [staging] to true -- from the
    command line or from the [PL_] environment variables -- the run ends
    inside [parseArgs] with a non-zero exit status, and not a single outside
    call (no directory or file creation, no subprocess) has been made.  When
    moreover the command line parses and names a build directory, the run is
    exactly the fatal log line about the two flags followed by exit status
    1. *)
Theorem both_flags_fatal_in_parseArgs
    (Hprod : deploy.viper_GetBool w "prod" = true)
    (Hstaging : deploy.viper_GetBool w "staging" = true) :
  exists status p,
    status <> 0 /\
    deploy.parseArgs w (deploy.mkProc [] (deploy.stdin_input w)) = (deploy.Exit status, p) /\
    deploy.run w = (deploy.Exit status, p) /\
    (forall op err, deploy.Did op err ∉ deploy.trace p) /\
    (is_Some (deploy.command_line w) ->
     deploy.viper_GetString w "build_dir" <> "" ->
     status = 1 /\
     deploy.trace p =
       [deploy.Log deploy.FatalLevel
          "Flags --prod and --staging can only be used exclusively. Please remove one to specify the environment"
          None]).
Proof.
  unfold deploy.run, deploy.main.
  set (p0 := deploy.mkProc [] (deploy.stdin_input w)).
  assert (Hp : exists status p,
             status <> 0 /\
             deploy.parseArgs w p0 = (deploy.Exit status, p) /\
             (forall op err, deploy.Did op err ∉ deploy.trace p) /\
             (is_Some (deploy.command_line w) ->
              deploy.viper_GetString w "build_dir" <> "" ->
              status = 1 /\
              deploy.trace p =
                [deploy.Log deploy.FatalLevel
                   "Flags --prod and --staging can only be used exclusively. Please remove one to specify the environment"
                   None])).
  { unfold deploy.parseArgs.
    destruct (deploy.command_line w) as [cl|] eqn:Hcl.
    - destruct (decide (deploy.viper_GetString w "build_dir" = "")) as [Hb|Hb].
      + eexists 1, _. split_and!; [lia | reflexivity | | tauto].
        simpl. intros op err Hin. apply list_elem_of_singleton in Hin. discriminate.
      + rewrite Hprod, Hstaging. eexists 1, _.
        split_and!; [lia | reflexivity | | intros _ _; split; reflexivity].
        simpl. intros op err Hin. apply list_elem_of_singleton in Hin. discriminate.
    - eexists 2, _. split_and!; [lia | reflexivity | |].
      + simpl. intros op err Hin. inversion Hin.
      + intros [x Hx]. discriminate. }
  destruct Hp as (status & p & Hne & Hparse & Hno & Hmsg).
  exists status, p. split_and!; try assumption.
  now apply M_bind_Exit.
Qed.

End ParseArgsFacts.

(** ** A sample world for concrete runs *)

Lemma both_flags_fatal_in_parseArgs_witness :
  let w := sample_world [("build_dir", "/ws/build"); ("prod", "true")]
                        [("PL_STAGING", "true")] [inl "y"] in
  deploy.viper_GetBool w "prod" = true /\
  deploy.viper_GetBool w "staging" = true /\
  exists status p,
    status <> 0 /\
    deploy.parseArgs w (deploy.mkProc [] (deploy.stdin_input w)) = (deploy.Exit status, p) /\
    deploy.run w = (deploy.Exit status, p) /\
    (forall op err, deploy.Did op err ∉ deploy.trace p) /\
    (is_Some (deploy.command_line w) ->
     deploy.viper_GetString w "build_dir" <> "" ->
     status = 1 /\
     deploy.trace p =
       [deploy.Log deploy.FatalLevel
          "Flags --prod and --staging can only be used exclusively. Please remove one to specify the environment"
          None]).
Proof.
  intros w.
  assert (H1 : deploy.viper_GetBool w "prod" = true) by (vm_compute; reflexivity).
  assert (H2 : deploy.viper_GetBool w "staging" = true) by (vm_compute; reflexivity).
  split; [exact H1|]. split; [exact H2|].
  exact (both_flags_fatal_in_parseArgs w H1 H2).
Defined.

Example deploy_dev_run :
  deploy.run (sample_world [("build_dir", "/ws/build")] [] [])
  = (deploy.Return tt,
     deploy.mkProc
       [deploy.Did deploy.FindBazelWorkspaceRoot None;
        deploy.Did (deploy.MkdirAll "/ws/build") None;
        deploy.Log deploy.InfoLevel "Searching /ws/skaffold" None;
        deploy.Did (deploy.Walk "/ws/skaffold") None;
        deploy.Log deploy.InfoLevel "Searching /ws/services" None;
        deploy.Did (deploy.Walk "/ws/services") None;
        deploy.Did deploy.FindBazelWorkspaceRoot None;
        deploy.Did (deploy.ReadFile "/ws/templates/skaffold/skaffold_service_config_dev.pbtxt") None;
        deploy.Did (deploy.UnmarshalText "deployment: dev") None;
        deploy.Did (deploy.MkdirAll "/ws/build/skaffold") None;
        deploy.Did (deploy.Create "/ws/build/skaffold/skaffold.yaml_dev.yaml") None;
        deploy.Did (deploy.ParseFiles "/ws/skaffold/skaffold.yaml.tmpl") None;
        deploy.Did (deploy.Execute "/ws/skaffold/skaffold.yaml.tmpl"
                                   "/ws/build/skaffold/skaffold.yaml_dev.yaml") None;
        deploy.Did (deploy.Close "/ws/build/skaffold/skaffold.yaml_dev.yaml") None;
        deploy.Did (deploy.MkdirAll "/ws/build/services") None;
        deploy.Did (deploy.Create "/ws/build/services/api_dev.yaml") None;
        deploy.Did (deploy.ParseFiles "/ws/services/api.tmpl") None;
        deploy.Did (deploy.Execute "/ws/services/api.tmpl" "/ws/build/services/api_dev.yaml") None;
        deploy.Did (deploy.Close "/ws/build/services/api_dev.yaml") None;
        deploy.Did (deploy.FileExists "/ws/build/skaffold/skaffold_dev.yaml") None;
        deploy.Did (deploy.Chdir "/ws") None;
        deploy.Did (deploy.RunCmd "skaffold dev -f /ws/build/skaffold/skaffold_dev.yaml") None]
       []).
Proof. vm_compute. reflexivity. Qed.

(** *** Failures and how the run ends *)

Lemma tolerated_nil : tolerated [].
Proof. intros i op e H. destruct i; discriminate H. Qed.

Lemma tolerated_app a b : tolerated a -> tolerated b -> tolerated (a ++ b).
Proof.
  intros Ha Hb i op e H.
  destruct (decide (i < List.length a)%nat) as [Hi|Hi].
  - rewrite lookup_app_l in H by exact Hi. specialize (Ha i op e H).
    destruct op; auto.
    rewrite lookup_app_l; [exact Ha|]. apply lookup_lt_Some in Ha. exact Ha.
  - rewrite lookup_app_r in H by lia. specialize (Hb _ op e H).
    destruct op; auto.
    rewrite lookup_app_r by lia.
    replace (S i - List.length a)%nat with (S (i - List.length a)) by lia. exact Hb.
Qed.

Lemma tolerated_one ev :
  match ev with
  | deploy.Did op (Some _) =>
    match op with deploy.MkdirAll _ | deploy.Chdir _ => True | _ => False end
  | _ => True
  end -> tolerated [ev].
Proof.
  intros Hev i op e H. destruct i as [|i]; [|destruct i; discriminate H].
  simpl in H. injection H as ->. destruct op; auto; contradiction.
Qed.

Lemma tolerated_walk root e :
  tolerated [deploy.Did (deploy.Walk root) (Some e);
             deploy.Log deploy.ErrorLevel
               ("Error on findTemplateFiles while searching " +:+ root) (Some e)].
Proof.
  intros i op e' H. destruct i as [|[|i]]; simpl in H; try discriminate H.
  injection H as <- <-. reflexivity.
Qed.

Lemma ending_prefix {A} a (out : deploy.Outcome A) tr :
  tolerated a -> ending out tr -> ending out (a ++ tr).
Proof.
  intros Ha H. destruct H; rewrite ?app_assoc;
    constructor; auto using tolerated_app.
Qed.

Lemma safe_ret {A} (a : A) : safe (mret a).
Proof.
  intros p. exists []. rewrite app_nil_r. split; [reflexivity|].
  constructor. apply tolerated_nil.
Qed.

Lemma safe_bind {A B} (m : deploy.M A) (f : A -> deploy.M B) :
  safe m -> (forall a, safe (f a)) -> safe (m ≫= f).
Proof.
  intros Hm Hf p. destruct (Hm p) as (tr & Htr & Hend).
  unfold mbind, deploy.M_bind. destruct (m p) as [out p1]. simpl in *.
  inversion Hend; subst.
  - destruct (Hf a p1) as (tr2 & Htr2 & Hend2).
    exists (tr ++ tr2). rewrite Htr2, Htr, app_assoc. split; [reflexivity|].
    now apply ending_prefix.
  - exists tr. split; [assumption | now constructor].
  - exists tr. split; [assumption | now constructor].
  - eexists. split; [eassumption | now constructor].
  - eexists. split; [eassumption | now constructor].
  - eexists. split; [eassumption | now constructor].
Qed.

Lemma safe_emit ev :
  match ev with deploy.Did _ _ => False | _ => True end -> safe (deploy.emit ev).
Proof.
  intros Hev p. exists [ev]. split; [reflexivity|]. constructor.
  apply tolerated_one. destruct ev; auto; contradiction.
Qed.

Lemma safe_log_Fatal {A} msg : safe (deploy.log_Fatal (A := A) msg None).
Proof.
  intros p. exists ([] ++ [deploy.Log deploy.FatalLevel msg None]).
  split; [reflexivity|]. constructor. apply tolerated_nil.
Qed.

Lemma dies_with_log_Fatal {A} msg e : dies_with e (deploy.log_Fatal (A := A) msg (Some e)).
Proof. exists msg. intros p. reflexivity. Qed.

Lemma dies_with_bind {A B} e (m : deploy.M A) (f : A -> deploy.M B) :
  dies_with e m -> dies_with e (m ≫= f).
Proof.
  intros [msg H]. exists msg. intros p. unfold mbind, deploy.M_bind. now rewrite H.
Qed.

(** A call whose error is dropped. *)
Lemma safe_call_unchecked {R} op (answer : list deploy.Event -> R) err_of :
  match op with deploy.MkdirAll _ | deploy.Chdir _ => True | _ => False end ->
  safe (deploy.call op answer err_of).
Proof.
  intros Hop p. eexists [_]. split; [reflexivity|]. constructor.
  apply tolerated_one. destruct (err_of _); [|exact I]. destruct op; auto.
Qed.

(** A call that cannot fail. *)
Lemma safe_call_total {R} op (answer : list deploy.Event -> R) :
  safe (deploy.call op answer (fun _ => None)).
Proof.
  intros p. eexists [_]. split; [reflexivity|]. constructor.
  now apply tolerated_one.
Qed.

(** A call followed by the check of its error. *)
Lemma safe_call_checked {R B} op (answer : list deploy.Event -> R) err_of
    (k : R -> deploy.M B) :
  checked op = true ->
  (forall r e, err_of r = Some e -> dies_with e (k r)) ->
  (forall r, err_of r = None -> safe (k r)) ->
  safe (deploy.call op answer err_of ≫= k).
Proof.
  intros Hop Hdie Hok p. unfold mbind, deploy.M_bind, deploy.call.
  set (r := answer (deploy.trace p)).
  destruct (err_of r) as [e|] eqn:He.
  - destruct (Hdie r e He) as [msg Hk]. rewrite Hk. simpl.
    exists ([] ++ [deploy.Did op (Some e); deploy.Log deploy.FatalLevel msg (Some e)]).
    split; [now rewrite <- app_assoc|].
    constructor; [apply tolerated_nil | exact Hop].
  - destruct (Hok r He (deploy.mkProc (deploy.trace p ++ [deploy.Did op None])
                                      (deploy.stdin p))) as (tr & Htr & Hend).
    exists ([deploy.Did op None] ++ tr). simpl in Htr.
    split; [now rewrite Htr, <- app_assoc|].
    apply ending_prefix; [now apply tolerated_one | exact Hend].
Qed.

(** A directory walk followed by the error-level log of its failure. *)
Lemma safe_call_Walk {B} root
    (answer : list deploy.Event -> list string * option deploy.error)
    (k : list string -> deploy.M B) :
  (forall files, safe (k files)) ->
  safe (deploy.call (deploy.Walk root) answer snd ≫=
          (fun r => (match r.2 with
                     | Some err =>
                       deploy.emit
                         (deploy.Log deploy.ErrorLevel
                            ("Error on findTemplateFiles while searching " +:+ root)
                            (Some err))
                     | None => mret tt
                     end) ≫= (fun _ => k r.1))).
Proof.
  intros Hk p. unfold mbind, deploy.M_bind, deploy.call.
  destruct (answer (deploy.trace p)) as [files [err|]]; simpl.
  - match goal with |- context [k files ?q] =>
      destruct (Hk files q) as (tr & Htr & Hend)
    end.
    eexists ([_; _] ++ tr). split.
    + rewrite Htr. simpl. rewrite <- !app_assoc. reflexivity.
    + apply ending_prefix; [apply tolerated_walk | exact Hend].
  - match goal with |- context [k files ?q] =>
      destruct (Hk files q) as (tr & Htr & Hend)
    end.
    eexists ([_] ++ tr). split.
    + rewrite Htr. simpl. rewrite <- !app_assoc. reflexivity.
    + apply ending_prefix; [now apply tolerated_one | exact Hend].
Qed.

(** In [generateServiceConfigs] a template that does not parse makes
    [template.Must] panic. *)
Lemma safe_call_ParseFiles {B} f (answer : list deploy.Event -> option deploy.error)
    (k : deploy.M B) :
  safe k ->
  safe (deploy.call (deploy.ParseFiles f) answer id ≫=
          (fun err => (match err with
                       | Some err => deploy.panic err
                       | None => mret tt
                       end) ≫= (fun _ => k))).
Proof.
  intros Hk p. unfold mbind, deploy.M_bind, deploy.call.
  destruct (answer (deploy.trace p)) as [e|]; simpl.
  - exists ([] ++ [deploy.Did (deploy.ParseFiles f) (Some e)]).
    split; [reflexivity|]. constructor. apply tolerated_nil.
  - match goal with |- context [k ?q] =>
      destruct (Hk q) as (tr & Htr & Hend)
    end.
    eexists ([_] ++ tr). split.
    + rewrite Htr. simpl. rewrite <- !app_assoc. reflexivity.
    + apply ending_prefix; [now apply tolerated_one | exact Hend].
Qed.

Section RunFacts.
Variable w : deploy.World.

Lemma safe_parseArgs : safe (deploy.parseArgs w).
Proof.
  unfold deploy.parseArgs. destruct (deploy.command_line w).
  - apply safe_bind; [|intros _].
    + destruct (decide _); [apply safe_log_Fatal | apply safe_ret].
    + destruct (_ && _); [apply safe_log_Fatal | apply safe_ret].
  - intros p. exists []. rewrite app_nil_r. split; [reflexivity|].
    constructor. apply tolerated_nil.
Qed.

Lemma safe_confirmation_loop env input : safe (deploy.confirmation_loop env input).
Proof.
  induction input as [|answer rest IH]; intros p.
  - exists []. rewrite app_nil_r. split; [reflexivity|]. constructor. apply tolerated_nil.
  - simpl. destruct answer as [confirmation|err].
    + destruct (decide (deploy.ToLower confirmation = "y")).
      { eexists [_]. split; [reflexivity|]. constructor. now apply tolerated_one. }
      destruct (decide (deploy.ToLower confirmation = "n")).
      { eexists [_]. split; [reflexivity|]. constructor. now apply tolerated_one. }
      unfold mbind, deploy.M_bind, deploy.emit. simpl.
      match goal with |- context [deploy.confirmation_loop env rest ?q] =>
        destruct (IH q) as (tr & Htr & Hend)
      end.
      eexists ([_; _] ++ tr). split.
      * rewrite Htr. simpl. rewrite <- !app_assoc. reflexivity.
      * apply ending_prefix; [|exact Hend].
        apply (tolerated_app [_] [_]); now apply tolerated_one.
    + eexists ([] ++ [_; _]). split; [simpl; rewrite <- app_assoc; reflexivity|].
      now constructor; [apply tolerated_nil|].
Qed.

Lemma safe_getConfirmationForPush env : safe (deploy.getConfirmationForPush env).
Proof.
  unfold deploy.getConfirmationForPush. destruct (decide _); [apply safe_ret|].
  intros p. apply safe_confirmation_loop.
Qed.

Lemma safe_checkEnvironment : safe (deploy.checkEnvironment w).
Proof.
  unfold deploy.checkEnvironment. apply safe_bind; [apply safe_getConfirmationForPush|].
  intros confirmed. destruct confirmed; simpl; [apply safe_ret|].
  apply safe_bind; [now apply safe_emit | intros _; apply safe_ret].
Qed.

Lemma safe_findTemplateFiles_loop paths :
  forall templateFiles, safe (deploy.findTemplateFiles_loop w paths templateFiles).
Proof.
  induction paths as [|curPath rest IH]; intros templateFiles; simpl; [apply safe_ret|].
  apply safe_bind; [now apply safe_emit | intros _].
  apply (safe_call_Walk curPath
           (fun h => deploy.filepath_Walk curPath (deploy.lstat w h curPath) templateFiles)
           (deploy.findTemplateFiles_loop w rest)).
  exact IH.
Qed.

Lemma safe_loadConfig configFile buildDir : safe (deploy.loadConfig w configFile buildDir).
Proof.
  unfold deploy.loadConfig.
  apply safe_call_checked; [reflexivity | |].
  { intros [r|e'] e He; [discriminate He|]. injection He as ->. apply dies_with_log_Fatal. }
  intros [totPath|e'] He; [|discriminate He].
  apply safe_call_checked; [reflexivity | |].
  { intros [r|e'] e He'; [discriminate He'|]. injection He' as ->. apply dies_with_log_Fatal. }
  intros [configBuf|e'] He'; [|discriminate He'].
  apply safe_call_checked; [reflexivity | |].
  { intros [r|e'] e He''; [discriminate He''|]. injection He'' as ->.
    apply dies_with_log_Fatal. }
  intros [cfg|e'] He''; [|discriminate He'']. apply safe_ret.
Qed.

Lemma safe_generateServiceConfigs templateFiles buildDir totPath config :
  safe (deploy.generateServiceConfigs w templateFiles buildDir totPath config).
Proof.
  induction templateFiles as [|templateFile rest IH]; simpl; [apply safe_ret|].
  apply safe_bind; [now apply safe_call_unchecked | intros _].
  apply safe_call_checked; [reflexivity | |].
  { intros r e He. simpl in He. subst r. apply dies_with_bind, dies_with_log_Fatal. }
  intros r He. simpl in He. subst r.
  apply safe_bind; [apply safe_ret | intros _].
  apply safe_call_ParseFiles.
  apply safe_call_checked; [reflexivity | |].
  { intros r e He. simpl in He. subst r. apply dies_with_bind, dies_with_log_Fatal. }
  intros r He. simpl in He. subst r.
  apply safe_bind; [apply safe_ret | intros _].
  apply safe_call_checked; [reflexivity | |].
  { intros r e He. simpl in He. subst r. apply dies_with_bind, dies_with_log_Fatal. }
  intros r He. simpl in He. subst r.
  apply safe_bind; [apply safe_ret | intros _]. exact IH.
Qed.

Lemma safe_startSkaffold buildDir workspaceDir :
  safe (deploy.startSkaffold w buildDir workspaceDir).
Proof.
  unfold deploy.startSkaffold.
  apply safe_bind; [apply safe_call_total|]. intros [|]; [|apply safe_log_Fatal].
  apply safe_bind; [now apply safe_call_unchecked | intros _].
  apply safe_call_checked; [reflexivity | |].
  { intros r e He. simpl in He. subst r. apply dies_with_log_Fatal. }
  intros r He. simpl in He. subst r. apply safe_ret.
Qed.

Lemma safe_main : safe (deploy.main w).
Proof.
  unfold deploy.main.
  apply safe_bind; [apply safe_parseArgs | intros _].
  apply safe_call_checked; [reflexivity | |].
  { intros [r|e'] e He; [discriminate He|]. injection He as ->. apply dies_with_log_Fatal. }
  intros [totPath|e'] He; [|discriminate He].
  apply safe_bind; [apply safe_checkEnvironment | intros environValid].
  destruct environValid; simpl; [|apply safe_ret].
  apply safe_bind; [now apply safe_call_unchecked | intros _].
  apply safe_bind; [apply safe_findTemplateFiles_loop | intros templateFiles].
  apply safe_bind; [apply safe_loadConfig | intros config].
  apply safe_bind; [apply safe_generateServiceConfigs | intros _].
  apply safe_startSkaffold.
Qed.

Lemma run_ending : ending (deploy.run w).1 (deploy.trace (deploy.run w).2).
Proof.
  unfold deploy.run.
  destruct (safe_main (deploy.mkProc [] (deploy.stdin_input w))) as (tr & Htr & Hend).
  rewrite Htr. exact Hend.
Qed.

(** C7 (amended): a failed outside call ends the run on the spot -- the
    fatal log line carrying its error comes next and is the last event, with
    exit status 1; for a template that does not parse, the panic carrying
    the error -- unless the call is one of three: a failed directory walk
    is logged at error level and the run goes on, and a failed [MkdirAll] or
    [Chdir] is passed over. *)
Theorem failed_call_ends_the_run_unless_unchecked
    (i : nat) (op : deploy.Op) (e : deploy.error)
    (Hfail : deploy.trace (deploy.run w).2 !! i = Some (deploy.Did op (Some e))) :
  match op with
  | deploy.Walk root =>
    deploy.trace (deploy.run w).2 !! S i
    = Some (deploy.Log deploy.ErrorLevel
              ("Error on findTemplateFiles while searching " +:+ root) (Some e))
  | deploy.MkdirAll _ | deploy.Chdir _ => True
  | deploy.ParseFiles _ =>
    (deploy.run w).1 = deploy.Panic e /\
    List.length (deploy.trace (deploy.run w).2) = S i
  | _ =>
    (deploy.run w).1 = deploy.Exit 1 /\
    List.length (deploy.trace (deploy.run w).2) = S (S i) /\
    exists msg,
      deploy.trace (deploy.run w).2 !! S i
      = Some (deploy.Log deploy.FatalLevel msg (Some e))
  end.
Proof.
  pose proof run_ending as Hend. revert Hfail.
  destruct (deploy.run w) as [out p]. simpl in *.
  set (tr := deploy.trace p) in *. clearbody tr. clear p. intros Hfail.
  assert (Htol : forall tr0, tolerated tr0 -> tr0 !! i = Some (deploy.Did op (Some e)) ->
            match op with
            | deploy.Walk root =>
              tr0 !! S i = Some (deploy.Log deploy.ErrorLevel
                ("Error on findTemplateFiles while searching " +:+ root) (Some e))
            | deploy.MkdirAll _ | deploy.Chdir _ => True
            | _ => False
            end) by (intros tr0 H0 H1; exact (H0 i op e H1)).
  destruct Hend as [a tr0 Ht | tr0 Ht | tr0 Ht | tr0 msg Ht
                   | tr0 op0 e0 msg Ht Hc | tr0 f e0 Ht].
  - specialize (Htol _ Ht Hfail). destruct op; auto; contradiction.
  - specialize (Htol _ Ht Hfail). destruct op; auto; contradiction.
  - specialize (Htol _ Ht Hfail). destruct op; auto; contradiction.
  - destruct (decide (i < List.length tr0)%nat) as [Hi|Hi].
    + rewrite lookup_app_l in Hfail by exact Hi. specialize (Htol _ Ht Hfail).
      destruct op; try contradiction; auto.
      rewrite lookup_app_l; [exact Htol | now apply lookup_lt_Some in Htol].
    + rewrite lookup_app_r in Hfail by lia.
      destruct (i - List.length tr0)%nat as [|[|n]]; discriminate Hfail.
  - destruct (decide (i < List.length tr0)%nat) as [Hi|Hi].
    + rewrite lookup_app_l in Hfail by exact Hi. specialize (Htol _ Ht Hfail).
      destruct op; try contradiction; auto.
      rewrite lookup_app_l; [exact Htol | now apply lookup_lt_Some in Htol].
    + rewrite lookup_app_r in Hfail by lia.
      destruct (i - List.length tr0)%nat as [|[|n]] eqn:Hn; try discriminate Hfail.
      simpl in Hfail. injection Hfail as Hop He. subst op e.
      assert (Hlen : i = List.length tr0) by lia. subst i.
      assert (Hlast : (tr0 ++ [deploy.Did op0 (Some e0);
                               deploy.Log deploy.FatalLevel msg (Some e0)])
                        !! S (List.length tr0)
                      = Some (deploy.Log deploy.FatalLevel msg (Some e0))).
      { rewrite lookup_app_r by lia.
        replace (S (List.length tr0) - List.length tr0)%nat with 1%nat by lia.
        reflexivity. }
      destruct op0; try discriminate Hc;
        (split; [reflexivity | split; [rewrite length_app; simpl; lia | eauto]]).
  - destruct (decide (i < List.length tr0)%nat) as [Hi|Hi].
    + rewrite lookup_app_l in Hfail by exact Hi. specialize (Htol _ Ht Hfail).
      destruct op; try contradiction; auto.
      rewrite lookup_app_l; [exact Htol | now apply lookup_lt_Some in Htol].
    + rewrite lookup_app_r in Hfail by lia.
      destruct (i - List.length tr0)%nat as [|n] eqn:Hn; [|destruct n; discriminate Hfail].
      simpl in Hfail. injection Hfail as Hop He. subst op e.
      split; [reflexivity|]. rewrite length_app. simpl. lia.
Qed.

End RunFacts.

Lemma failed_call_ends_the_run_unless_unchecked_witness :
  let w := world_config_unreadable in
  let file := "/ws/templates/skaffold/skaffold_service_config_dev.pbtxt" in
  deploy.trace (deploy.run w).2 !! 10%nat
    = Some (deploy.Did (deploy.ReadFile file) (Some "no such file")) /\
  ((deploy.run w).1 = deploy.Exit 1 /\
   List.length (deploy.trace (deploy.run w).2) = 12%nat /\
   exists msg,
     deploy.trace (deploy.run w).2 !! 11%nat
     = Some (deploy.Log deploy.FatalLevel msg (Some "no such file"))).
Proof.
  intros w file.
  assert (H : deploy.trace (deploy.run w).2 !! 10%nat
              = Some (deploy.Did (deploy.ReadFile file) (Some "no such file")))
    by (vm_compute; reflexivity).
  split; [exact H|].
  exact (failed_call_ends_the_run_unless_unchecked w 10 _ _ H).
Defined.

(** C7 as stated fails: the walk of [skaffold/] fails, the failure is logged
    at error level, and the run carries on -- it goes on to create a
    manifest and to launch the subprocess, and returns normally. *)
Lemma walk_failure_is_not_fatal :
  deploy.run world_walk_fails
  = (deploy.Return tt,
     deploy.mkProc
       [deploy.Did deploy.FindBazelWorkspaceRoot None;
        deploy.Did (deploy.MkdirAll "/ws/build") None;
        deploy.Log deploy.InfoLevel "Searching /ws/skaffold" None;
        deploy.Did (deploy.Walk "/ws/skaffold") (Some "permission denied");
        deploy.Log deploy.ErrorLevel
          "Error on findTemplateFiles while searching /ws/skaffold"
          (Some "permission denied");
        deploy.Log deploy.InfoLevel "Searching /ws/services" None;
        deploy.Did (deploy.Walk "/ws/services") None;
        deploy.Did deploy.FindBazelWorkspaceRoot None;
        deploy.Did (deploy.ReadFile "/ws/templates/skaffold/skaffold_service_config_dev.pbtxt") None;
        deploy.Did (deploy.UnmarshalText "deployment: dev") None;
        deploy.Did (deploy.MkdirAll "/ws/build/services") None;
        deploy.Did (deploy.Create "/ws/build/services/api_dev.yaml") None;
        deploy.Did (deploy.ParseFiles "/ws/services/api.tmpl") None;
        deploy.Did (deploy.Execute "/ws/services/api.tmpl" "/ws/build/services/api_dev.yaml") None;
        deploy.Did (deploy.Close "/ws/build/services/api_dev.yaml") None;
        deploy.Did (deploy.FileExists "/ws/build/skaffold/skaffold_dev.yaml") None;
        deploy.Did (deploy.Chdir "/ws") None;
        deploy.Did (deploy.RunCmd "skaffold dev -f /ws/build/skaffold/skaffold_dev.yaml") None]
       []).
Proof. vm_compute. reflexivity. Qed.

(** * Further properties of the IR graph and its node classes *)

(** ** Node creation on a consistent graph *)

Section MoreGraphFacts.
Context {Attrs : Type} `{!IRNodeImpl Attrs}.

#[local] Abbreviation IR := (IR Attrs).
#[local] Abbreviation wf := (@wf Attrs).

(** The node [MakeNode] constructs for the type [T], the id [id] and the
    position [ast] in the graph at [this]. *)
Lemma MakeNode_fresh T id ast (g : IR) :
  wf g -> id_node_map_ g !! id = None -> INT64_MIN <= id < INT64_MAX ->
  exists g' n,
    MakeNode T id ast g = (Ok id, g') /\
    wf g' /\
    id_node_map_ g' = <[id := n]> (id_node_map_ g) /\
    (type_ n = T /\ id_ n = id /\ graph_ptr_ n = this_ g /\
     operands_ n = [] /\ attrs_ n = default_attrs T /\
     match ast with
     | Some a => line_ n = ast_line a /\ col_ n = ast_column a /\ line_col_set_ n = true
     | None => line_col_set_ n = false
     end) /\
    plan.edges_ (dag_ g') = plan.edges_ (dag_ g) /\
    this_ g' = this_ g /\
    id_node_counter g' = Z.max (id + 1) (id_node_counter g).
Proof.
  intros Hwf Hfresh Hid.
  set (n0 := SetGraphPtr (this_ g) (make_unique T id)).
  set (n := match ast with Some a => SetLineCol a n0 | None => n0 end).
  assert (Hn : id_ n = id /\ graph_ptr_ n = this_ g) by (unfold n; destruct ast; split; reflexivity).
  set (g' := mkIR (this_ g) (plan.AddNode (dag_ g) id) (<[id := n]> (id_node_map_ g))
                  (Z.max (id + 1) (id_node_counter g))).
  assert (HM : MakeNode T id ast g = (Ok id, g')).
  { unfold g', n, n0. rewrite <- (int64_add_1 id Hid).
    unfold MakeNode, emplace. destruct ast; simpl; rewrite Hfresh; reflexivity. }
  exists g', n. split; [exact HM|]. destruct Hwf as [Hnodes Hd He Hnd Hc].
  split_and!; try reflexivity.
  - constructor; simpl.
    + intros i m H. destruct (decide (i = id)) as [->|Hne].
      * rewrite lookup_insert_eq in H. injection H as <-.
        destruct Hn as [-> ->]. split_and!; try reflexivity. lia.
      * rewrite lookup_insert_ne in H by congruence.
        destruct (Hnodes i m H) as (? & ? & ?). split_and!; auto. lia.
    + intros i. rewrite elem_of_union, elem_of_singleton, Hd.
      destruct (decide (i = id)) as [->|Hne].
      * rewrite lookup_insert_eq. split; eauto.
      * rewrite lookup_insert_ne by congruence.
        split; [intros [?|?]; [congruence|auto] | auto].
    + intros a b H. destruct (He a b H) as [Ha Hb].
      split; apply is_Some_insert; assumption.
    + exact Hnd.
    + unfold in_int64, INT64_MIN, INT64_MAX in *. lia.
  - unfold n, n0; destruct ast; reflexivity.
  - tauto.
  - tauto.
  - unfold n, n0; destruct ast; reflexivity.
  - unfold n, n0; destruct ast; reflexivity.
  - unfold n, n0; destruct ast; simpl; auto.
Qed.

(** In a consistent graph the counter is the id of no node. *)
Lemma counter_is_free (g : IR) : wf g -> id_node_map_ g !! id_node_counter g = None.
Proof.
  intros Hwf. destruct (id_node_map_ g !! id_node_counter g) as [n|] eqn:E; [|reflexivity].
  destruct (wf_nodes g Hwf _ _ E) as (_ & _ & Hlt). lia.
Qed.

Lemma MakeNode_ast_next T ast (g : IR) :
  wf g -> id_node_counter g < INT64_MAX ->
  exists g' n,
    MakeNode_ast T ast g = (Ok (id_node_counter g), g') /\
    wf g' /\
    id_node_map_ g' = <[id_node_counter g := n]> (id_node_map_ g) /\
    id_node_map_ g !! id_node_counter g = None /\
    (type_ n = T /\ id_ n = id_node_counter g /\ graph_ptr_ n = this_ g /\
     operands_ n = [] /\ attrs_ n = default_attrs T /\
     match ast with
     | Some a => line_ n = ast_line a /\ col_ n = ast_column a /\ line_col_set_ n = true
     | None => line_col_set_ n = false
     end) /\
    plan.edges_ (dag_ g') = plan.edges_ (dag_ g) /\
    id_node_counter g' = id_node_counter g + 1.
Proof.
  intros Hwf Hroom.
  pose proof (counter_is_free g Hwf) as Hfree.
  assert (Hid : INT64_MIN <= id_node_counter g < INT64_MAX).
  { pose proof (wf_counter g Hwf) as Hc0. unfold in_int64 in Hc0. lia. }
  destruct (MakeNode_fresh T _ ast g Hwf Hfree Hid)
    as (g' & n & HM & Hwf' & Hmap & Hn & He & _ & Hc).
  exists g', n. unfold MakeNode_ast. split_and!; auto; try tauto. lia.
Qed.

(** X1.  On a consistent graph whose counter has not reached the largest
    64-bit value, [MakeNode<T>(ast)] returns the counter as the id of the new
    node, files under it a node of class [T] that points back to the graph,
    has no operands and carries the position of [ast]; every other node and
    every edge is as before, the graph has one node more, the counter moves
    up by one, and the graph is consistent again. *)
Theorem MakeNode_ast_on_a_consistent_graph T ast (g : IR)
    (Hwf : wf g) (Hroom : id_node_counter g < INT64_MAX) :
  exists g' n,
    MakeNode_ast T ast g = (Ok (id_node_counter g), g') /\
    wf g' /\
    Get g' (id_node_counter g) = Some n /\
    (type_ n = T /\ id_ n = id_node_counter g /\ graph_ptr_ n = this_ g /\
     operands_ n = [] /\ attrs_ n = default_attrs T /\
     match ast with
     | Some a => line_ n = ast_line a /\ col_ n = ast_column a /\ line_col_set_ n = true
     | None => line_col_set_ n = false
     end) /\
    (forall id, id <> id_node_counter g -> Get g' id = Get g id) /\
    plan.edges_ (dag_ g') = plan.edges_ (dag_ g) /\
    IR_size g' = S (IR_size g) /\
    id_node_counter g' = id_node_counter g + 1.
Proof.
  destruct (MakeNode_ast_next T ast g Hwf Hroom)
    as (g' & n & HM & Hwf' & Hmap & Hfree & Hn & He & Hc).
  exists g', n. unfold Get, IR_size. rewrite Hmap. split_and!; auto; try tauto.
  - apply lookup_insert_eq.
  - intros id Hne. apply lookup_insert_ne. congruence.
  - apply map_size_insert_None. exact Hfree.
Qed.


Lemma create_all_fresh (cs : list (IRNodeType * option Ast)) : forall g : IR,
  wf g -> id_node_counter g + Z.of_nat (List.length cs) <= INT64_MAX ->
  exists g',
    create_all ((fun c => CreateFresh c.1 c.2) <$> cs) g
      = (Ok (seqZ (id_node_counter g) (Z.of_nat (List.length cs))), g') /\
    wf g' /\
    id_node_counter g' = id_node_counter g + Z.of_nat (List.length cs) /\
    IR_size g' = (IR_size g + List.length cs)%nat /\
    plan.edges_ (dag_ g') = plan.edges_ (dag_ g) /\
    (forall id, id < id_node_counter g -> Get g' id = Get g id) /\
    (forall i c, cs !! i = Some c ->
       exists n, Get g' (id_node_counter g + Z.of_nat i) = Some n /\ type_ n = c.1).
Proof.
  induction cs as [|[T ast] cs IH]; intros g Hwf Hroom.
  - exists g. simpl. rewrite Z.add_0_r, Nat.add_0_r. split_and!; auto.
    intros i c H. destruct i; discriminate H.
  - simpl List.length in *. rewrite Nat2Z.inj_succ in *.
    destruct (MakeNode_ast_next T ast g Hwf ltac:(lia))
      as (g1 & n & HM & Hwf1 & Hmap & Hfree & Hn & He & Hc).
    destruct (IH g1 Hwf1 ltac:(lia)) as (g2 & Hcs & Hwf2 & Hc2 & Hsz & He2 & Hold & Hnew).
    exists g2. split_and!.
    + rewrite fmap_cons. simpl create_all. unfold mbind, GraphM_bind. simpl create.
      rewrite HM, Hcs. unfold mret, GraphM_ret.
      rewrite (seqZ_cons (id_node_counter g)) by lia.
      rewrite Hc. do 3 f_equal. f_equal. lia.
    + exact Hwf2.
    + lia.
    + rewrite Hsz. unfold IR_size. rewrite Hmap.
      rewrite map_size_insert_None by exact Hfree. lia.
    + congruence.
    + intros id Hlt. rewrite Hold by lia. unfold Get. rewrite Hmap.
      apply lookup_insert_ne. lia.
    + intros [|i] c Hi; simpl in Hi.
      * injection Hi as <-. exists n. split; [|tauto].
        rewrite Z.add_0_r. rewrite Hold by lia. unfold Get. rewrite Hmap.
        apply lookup_insert_eq.
      * destruct (Hnew i c Hi) as (n' & Hg & Ht). exists n'. split; [|exact Ht].
        rewrite <- Hg. f_equal. lia.
Qed.

(** X3.  Nodes created one after the other without explicit ids, on a
    consistent graph with room below the largest 64-bit value, get the
    consecutive ids starting at the counter, in the order of creation; the
    graph grows by as many nodes, each of the class asked for, the nodes that
    were there are untouched, and the graph is consistent afterwards. *)
Theorem fresh_ids_are_consecutive (cs : list (IRNodeType * option Ast)) (g : IR)
    (Hwf : wf g)
    (Hroom : id_node_counter g + Z.of_nat (List.length cs) <= INT64_MAX) :
  exists g',
    create_all ((fun c => CreateFresh c.1 c.2) <$> cs) g
      = (Ok (seqZ (id_node_counter g) (Z.of_nat (List.length cs))), g') /\
    wf g' /\
    id_node_counter g' = id_node_counter g + Z.of_nat (List.length cs) /\
    IR_size g' = (IR_size g + List.length cs)%nat /\
    (forall id, id < id_node_counter g -> Get g' id = Get g id) /\
    (forall i c, cs !! i = Some c ->
       exists n, Get g' (id_node_counter g + Z.of_nat i) = Some n /\ type_ n = c.1).
Proof.
  destruct (create_all_fresh cs g Hwf Hroom) as (g' & H1 & H2 & H3 & H4 & _ & H5 & H6).
  exists g'. split_and!; assumption.
Qed.

(** X4.  Attaching a child that has no edge from the parent yet, both being
    nodes of a consistent graph: [OptionallyCloneWithEdge] returns the child
    itself and adds the edge from the parent to it; no node is created or
    changed, and the graph stays consistent.  The edge is there afterwards,
    so that attaching the same child once more takes the cloning path. *)
Theorem OptionallyCloneWithEdge_attaches_an_unconnected_child
    (g : IR) (parent : Z) (child : Source Attrs)
    (Hwf : wf g)
    (Hparent : is_Some (Get g parent))
    (Hchild : is_Some (Get g (source_id child)))
    (Hedge : HasEdge g parent (source_id child) = false) :
  exists g',
    OptionallyCloneWithEdge parent child g = (Ok (source_id child), g') /\
    wf g' /\
    id_node_map_ g' = id_node_map_ g /\
    id_node_counter g' = id_node_counter g /\
    plan.edges_ (dag_ g') = plan.edges_ (dag_ g) ++ [(parent, source_id child)] /\
    HasEdge g' parent (source_id child) = true.
Proof.
  assert (Hno : (parent, source_id child) ∉ plan.edges_ (dag_ g)).
  { unfold HasEdge, plan.HasEdge in Hedge. now apply bool_decide_eq_false in Hedge. }
  destruct (AddEdge_ok parent (source_id child) g Hwf Hparent Hchild Hno)
    as (g' & HA & Hwf' & _ & Hmap & He & Hc).
  exists g'. unfold OptionallyCloneWithEdge. rewrite Hedge.
  unfold mbind, GraphM_bind, mret, GraphM_ret. rewrite HA.
  split_and!; auto.
  unfold HasEdge, plan.HasEdge. apply bool_decide_eq_true. rewrite He.
  apply elem_of_app. right. apply list_elem_of_here.
Qed.

(** *** Replacing an argument of a function node *)



End MoreGraphFacts.

Lemma MakeNode_ast_on_a_consistent_graph_witness :
  exists g' n,
    MakeNode_ast kString (Some (mkAst 3 14)) sample_graph = (Ok 2, g') /\
    Get g' 2 = Some n /\ type_ n = kString /\ line_ n = 3 /\ col_ n = 14 /\
    IR_size g' = 3%nat /\ id_node_counter g' = 3.
Proof.
  destruct (MakeNode_ast_on_a_consistent_graph kString (Some (mkAst 3 14)) sample_graph
              sample_graph_wf ltac:(vm_compute; reflexivity))
    as (g' & n & HM & _ & HG & (Ht & _ & _ & _ & _ & Hl & Hc & _) & _ & _ & Hs & Hcnt).
  exists g', n. split_and!; assumption.
Defined.

Example MakeNode_on_a_taken_id_sample :
  (type_ <$> Get (MakeNode kString 1 None sample_graph).2 1) = Some kInt /\
  (type_ <$> Get (MakeNode kString 2 None sample_graph).2 2) = Some kString.
Proof. split; reflexivity. Qed.

Lemma fresh_ids_are_consecutive_witness :
  exists g',
    create_all [CreateFresh kString None; CreateFresh kList None; CreateFresh kBool None]
               sample_graph
      = (Ok [2; 3; 4], g') /\
    IR_size g' = 5%nat.
Proof.
  destruct (fresh_ids_are_consecutive [(kString, None); (kList, None); (kBool, None)]
              sample_graph sample_graph_wf ltac:(vm_compute; discriminate))
    as (g' & HC & _ & _ & Hs & _).
  exists g'. split; [exact HC | exact Hs].
Defined.

Lemma sample_g2_wf : wf sample_g2.
Proof.
  destruct (MakeNode_ast_next kFunc None (IR_new 0) (IR_new_wf 0)
              ltac:(vm_compute; reflexivity)) as (g1 & n1 & H1 & Hwf1 & _).
  assert (E1 : g1 = sample_g1) by (unfold sample_g1; now rewrite H1).
  subst g1.
  destruct (MakeNode_ast_next kInt None sample_g1 Hwf1 ltac:(vm_compute; reflexivity))
    as (g2 & n2 & H2 & Hwf2 & _).
  assert (E2 : g2 = sample_g2) by (unfold sample_g2; now rewrite H2).
  now subst g2.
Qed.

Lemma OptionallyCloneWithEdge_attaches_an_unconnected_child_witness :
  exists g',
    OptionallyCloneWithEdge 0 (SourceNode (mkIRNode kInt 1 0 0 0 false 0 []) []) sample_g2
      = (Ok 1, g') /\
    plan.edges_ (dag_ g') = [(0, 1)].
Proof.
  destruct (OptionallyCloneWithEdge_attaches_an_unconnected_child
              sample_g2 0 (SourceNode (mkIRNode kInt 1 0 0 0 false 0 []) [])
              sample_g2_wf (mk_is_Some _ _ eq_refl) (mk_is_Some _ _ eq_refl) eq_refl)
    as (g' & HO & _ & _ & _ & He & _).
  exists g'. split; [exact HO | exact He].
Defined.


Example UpdateArg_has_no_result_out_of_range :
  UpdateArg 0 2 1 sample_func2 = None /\ UpdateArg 0 (-1) 1 sample_func2 = None.
Proof. split; reflexivity. Qed.

(** ** The node classes *)

(** X6.  [TypeString] gives a name to every node class, that is to every
    enumerator but [kAny] and [number_of_types], which index outside
    [kIRNodeStrings]; and no two classes share a name. *)
Theorem TypeString_names_every_class :
  (forall T, is_Some (TypeString T) <-> T <> kAny /\ T <> number_of_types) /\
  (forall T1 T2, is_Some (TypeString T1) -> TypeString T1 = TypeString T2 -> T1 = T2).
Proof.
  split.
  - intros T. split.
    + intros [s Hs]. destruct T; try discriminate Hs; split; discriminate.
    + intros [? ?]. destruct T; try congruence; simpl; eauto.
  - intros T1 T2 [s Hs] H.
    destruct T1; try discriminate Hs; destruct T2; try discriminate H; reflexivity.
Qed.

(** X7.  The operator classes are exactly the classes whose constructor
    calls [OperatorIR(id, type, has_parents, is_source)]; in every one of
    them the operator is a source exactly when it cannot have parents, and a
    blocking operator is never a source. *)
Theorem sources_are_the_operators_without_parents (T : IRNodeType) :
  (is_Some (OperatorIR_flags T) <-> IsOperator T = true) /\
  (forall f, OperatorIR_flags T = Some f ->
     is_source_ f = negb (can_have_parents_ f) /\
     (IsBlocking T = true -> can_have_parents_ f = true /\ is_source_ f = false)).
Proof.
  split.
  - destruct T; simpl; split; intros H; try reflexivity; eauto;
      try discriminate H; destruct H as [? H]; discriminate H.
  - intros f Hf.
    destruct T; try discriminate Hf; injection Hf as <-; simpl;
      (split; [reflexivity|]); intros H; try discriminate H; split; reflexivity.
Qed.

(** X8.  Every node class is an operator or an expression and never both;
    the four kinds of expression ([IsColumn], [IsData], [IsCollection],
    [IsFunction]) hold of expressions only and exclude one another; the one
    expression class of no kind is MetadataLiteral. *)
Theorem expression_kinds_partition (T : IRNodeType) :
  (is_Some (TypeString T) -> IsExpression T = negb (IsOperator T)) /\
  (IsColumn T || IsData T || IsCollection T || IsFunction T = true ->
   IsExpression T = true) /\
  (Nat.b2n (IsColumn T) + Nat.b2n (IsData T) + Nat.b2n (IsCollection T)
   + Nat.b2n (IsFunction T) <= 1)%nat /\
  (IsExpression T = true /\
   IsColumn T || IsData T || IsCollection T || IsFunction T = false
   <-> T = kMetadataLiteral).
Proof.
  split_and!.
  - intros [s Hs]. destruct T; try discriminate Hs; reflexivity.
  - destruct T; simpl; intros H; try discriminate H; reflexivity.
  - destruct T; simpl; lia.
  - destruct T; simpl; split; intros H; try discriminate H;
      try (destruct H; discriminate); auto.
Qed.

(** ** Metadata properties *)

Lemma StartsWith_app (p s : string) : StartsWith (p +:+ s) p = true.
Proof.
  induction p as [|c p IH]; [reflexivity|].
  change (String c p +:+ s) with (String c (p +:+ s)). simpl.
  rewrite Ascii.eqb_refl. exact IH.
Qed.

Lemma remove_prefix_app (p s : string) : remove_prefix (String.length p) (p +:+ s) = s.
Proof. induction p as [|c p IH]; [destruct s; reflexivity | exact IH]. Qed.

Lemma StripPrefix_app (p s : string) : StripPrefix (p +:+ s) p = s.
Proof. unfold StripPrefix. rewrite StartsWith_app. apply remove_prefix_app. Qed.

Lemma Substitute_to (a b : string) : Substitute "$1_to_$0" [a; b] = b +:+ "_to_" +:+ a.
Proof.
  change (Substitute "$1_to_$0" [a; b]) with (b +:+ ("_to_" +:+ (a +:+ ""))).
  now rewrite string_app_nil_r.
Qed.

Section MetadataPropertyFacts.
Context {MetadataType DataType : Type} `{!MetadataTypeEnum MetadataType}.
Variable StrJoin : list MetadataType -> string -> string.

#[local] Abbreviation MetadataProperty := (MetadataProperty MetadataType DataType).

Lemma Extract_Format_name (col_name : string) :
  ExtractMetadataFromColumnName (MetadataProperty.FormatMetadataColumn_name col_name)
  = col_name.
Proof.
  rewrite FormatMetadataColumn_name_prefix. unfold ExtractMetadataFromColumnName.
  apply (StripPrefix_app "_attr_").
Qed.

Lemma Extract_Format (metadata_type : MetadataType) :
  ExtractMetadataFromColumnName (MetadataProperty.FormatMetadataColumn metadata_type)
  = MetadataProperty.GetMetadataString metadata_type.
Proof.
  unfold MetadataProperty.FormatMetadataColumn.
  destruct (decide (metadata_type = UPID)) as [E|E].
  - unfold MetadataProperty.GetMetadataString. rewrite decide_True by exact E. reflexivity.
  - apply Extract_Format_name.
Qed.

Lemma GetKeyColumnReprs_fmap (p : MetadataProperty) :
  GetKeyColumnReprs p = MetadataProperty.FormatMetadataColumn <$> key_columns_ p.
Proof.
  unfold GetKeyColumnReprs.
  assert (H : forall l acc,
             foldl (fun columns c => columns ++ [MetadataProperty.FormatMetadataColumn c]) acc l
             = acc ++ (MetadataProperty.FormatMetadataColumn <$> l)).
  { induction l as [|c l IH]; intros acc; simpl.
    - now rewrite app_nil_r.
    - rewrite IH, <- app_assoc. reflexivity. }
  apply (H _ []).
Qed.

(** X9.  Stripping the metadata prefix undoes adding it: the name comes back
    from the column of a name, and the metadata string of a type comes back
    from the column of the type, [UPID] with its unprefixed column
    included.  A column name without the prefix is returned as it is. *)
Theorem ExtractMetadataFromColumnName_undoes_FormatMetadataColumn :
  (forall col_name : string,
     ExtractMetadataFromColumnName (MetadataProperty.FormatMetadataColumn_name col_name)
     = col_name) /\
  (forall metadata_type : MetadataType,
     ExtractMetadataFromColumnName (MetadataProperty.FormatMetadataColumn metadata_type)
     = MetadataProperty.GetMetadataString metadata_type) /\
  (forall column_name : string,
     StartsWith column_name "_attr_" = false ->
     ExtractMetadataFromColumnName column_name = column_name).
Proof.
  split_and!.
  - apply Extract_Format_name.
  - apply Extract_Format.
  - intros c H. unfold ExtractMetadataFromColumnName, StripPrefix.
    unfold MetadataProperty.kMetadataColumnPrefix. now rewrite H.
Qed.

(** X10.  [UDFName] accepts exactly the columns of the key columns of the
    property.  For the column of a key column [c] it returns the metadata
    string of [c], then "_to_", then the name of the property; for any other
    key it returns an [INVALID_ARGUMENT] error. *)
Theorem UDFName_of_a_key_column (p : MetadataProperty) :
  (forall c, c ∈ key_columns_ p ->
     UDFName StrJoin p (MetadataProperty.FormatMetadataColumn c)
     = Ok (MetadataProperty.GetMetadataString c +:+ "_to_" +:+ name_ p)) /\
  (forall key,
     key ∉ MetadataProperty.FormatMetadataColumn <$> key_columns_ p ->
     exists m, UDFName StrJoin p key = Err (mkStatus INVALID_ARGUMENT m)) /\
  (forall key,
     (exists name, UDFName StrJoin p key = Ok name)
     <-> exists c, c ∈ key_columns_ p /\ key = MetadataProperty.FormatMetadataColumn c).
Proof.
  assert (Hhas : forall key,
             HasKeyColumn p key = true
             <-> key ∈ MetadataProperty.FormatMetadataColumn <$> key_columns_ p).
  { intros key. unfold HasKeyColumn. rewrite GetKeyColumnReprs_fmap.
    apply bool_decide_eq_true. }
  assert (Hyes : forall c, c ∈ key_columns_ p ->
             UDFName StrJoin p (MetadataProperty.FormatMetadataColumn c)
             = Ok (MetadataProperty.GetMetadataString c +:+ "_to_" +:+ name_ p)).
  { intros c Hc. unfold UDFName.
    assert (H : HasKeyColumn p (MetadataProperty.FormatMetadataColumn c) = true).
    { apply Hhas. apply list_elem_of_fmap. eauto. }
    rewrite H. cbn [negb]. rewrite Substitute_to, Extract_Format. reflexivity. }
  assert (Hno : forall key,
             key ∉ MetadataProperty.FormatMetadataColumn <$> key_columns_ p ->
             exists m, UDFName StrJoin p key = Err (mkStatus INVALID_ARGUMENT m)).
  { intros key Hk. unfold UDFName.
    destruct (HasKeyColumn p key) eqn:E.
    - apply Hhas in E. contradiction.
    - simpl. eexists. reflexivity. }
  split_and!; [exact Hyes | exact Hno |].
  intros key. split.
  - intros [name Hname].
    destruct (decide (key ∈ MetadataProperty.FormatMetadataColumn <$> key_columns_ p))
      as [Hin|Hout].
    + apply list_elem_of_fmap in Hin as (c & -> & Hc). eauto.
    + destruct (Hno key Hout) as [m Hm]. rewrite Hm in Hname. discriminate Hname.
  - intros (c & Hc & ->). rewrite (Hyes c Hc). eauto.
Qed.

(** X11.  The column a property reports for itself is the prefix followed by
    the name the constructor derived from the metadata type.  It is the
    column [FormatMetadataColumn] gives for that type exactly when the type
    is not [UPID]: for [UPID] the property reports "_attr_upid", the static
    function "upid". *)
Theorem GetColumnRepr_of_a_new_property
    (metadata_type : MetadataType) (column_type : DataType)
    (key_columns : list MetadataType) :
  let p := MetadataProperty_new metadata_type column_type key_columns in
  GetColumnRepr p = "_attr_" +:+ MetadataProperty.GetMetadataString metadata_type /\
  (metadata_type = UPID -> GetColumnRepr p = "_attr_upid") /\
  (GetColumnRepr p = MetadataProperty.FormatMetadataColumn metadata_type
   <-> metadata_type <> UPID).
Proof.
  simpl. unfold GetColumnRepr, MetadataProperty_new. simpl name_.
  rewrite FormatMetadataColumn_name_prefix. split_and!.
  - reflexivity.
  - intros ->. unfold MetadataProperty.GetMetadataString.
    rewrite decide_True by reflexivity. reflexivity.
  - unfold MetadataProperty.FormatMetadataColumn, MetadataProperty.GetMetadataString.
    destruct (decide (metadata_type = UPID)) as [E|E].
    + split; [intros H; discriminate H | contradiction].
    + rewrite FormatMetadataColumn_name_prefix. split; auto.
Qed.

End MetadataPropertyFacts.

Example MetadataProperty_samples :
  let pod_name := MetadataProperty_new (DataType := unit) POD_NAME tt [POD_ID; SAMPLE_UPID] in
  let join := fun (_ : list SampleMetadataType) (_ : string) => "2,0" in
  GetColumnRepr pod_name = "_attr_pod_name" /\
  GetKeyColumnReprs pod_name = ["_attr_pod_id"; "upid"] /\
  UDFName join pod_name "_attr_pod_id" = Ok "pod_id_to_pod_name" /\
  UDFName join pod_name "upid" = Ok "upid_to_pod_name" /\
  UDFName join pod_name "pod_id"
    = Err (error.InvalidArgument
             "Key column pod_id invalid for metadata value pod_name. Expected one of [2,0].").
Proof. repeat split. Qed.

(** ** Join types over several calls *)

Lemma set_join_type_keeps_the_flag GetJoinEnum c (j : JoinIR.t) :
  JoinIR.specified_as_right j = true ->
  JoinIR.specified_as_right (set_join_type GetJoinEnum c j).2 = true.
Proof.
  intros H. destruct c as [jt|s]; simpl; [exact H|].
  unfold JoinIR.SetJoinType_string, JoinIR.specified_as_right in *.
  destruct (GetJoinEnum j s) as [jt|e]; simpl; [|exact H].
  destruct (decide (jt = JoinIR.kRight)); simpl; [reflexivity | exact H].
Qed.

(** X12.  No call of [SetJoinType], in either overload, takes
    [specified_as_right()] back to false: once set it stays set over any
    further calls.  So the flag and the join type can part: after a call
    with a string that names a right join and a call with any join type
    [jt], the join type is [jt] and the flag is still true. *)
Theorem specified_as_right_is_never_reset
    (GetJoinEnum : JoinIR.t -> string -> StatusOr JoinIR.JoinType) (j : JoinIR.t) :
  (forall cs, JoinIR.specified_as_right j = true ->
              JoinIR.specified_as_right (set_join_types GetJoinEnum cs j) = true) /\
  (forall s jt, GetJoinEnum j s = Ok JoinIR.kRight ->
     let j' := set_join_types GetJoinEnum [SetJoinTypeString s; SetJoinTypeEnum jt] j in
     JoinIR.join_type j' = jt /\ JoinIR.specified_as_right j' = true).
Proof.
  split.
  - intros cs. revert j. induction cs as [|c cs IH]; intros j H; [exact H|].
    apply IH. apply set_join_type_keeps_the_flag. exact H.
  - intros s jt Hs. simpl. unfold JoinIR.SetJoinType_string. rewrite Hs. simpl.
    split; reflexivity.
Qed.

(** * Further properties of the cron-script store service *)

Lemma size_list_to_set_le (l : list string) :
  (size (list_to_set l : gset string) <= List.length l)%nat.
Proof.
  induction l as [|x l IH].
  - rewrite list_to_set_nil, size_empty. simpl. lia.
  - rewrite list_to_set_cons, size_union_alt, size_singleton. simpl List.length.
    pose proof (subseteq_size (list_to_set l ∖ {[x]}) (list_to_set l : gset string)
                  (subseteq_difference_l _ _ _ (reflexivity _))).
    lia.
Qed.

Lemma size_list_to_set_NoDup (l : list string) :
  size (list_to_set l : gset string) = List.length l <-> NoDup l.
Proof.
  split; [|apply size_list_to_set].
  induction l as [|x l IH]; intros H; [constructor|].
  rewrite list_to_set_cons in H. simpl List.length in H.
  destruct (decide (x ∈ l)) as [Hin|Hout].
  - assert (E : ({[x]} ∪ list_to_set l : gset string) = list_to_set l).
    { apply subseteq_union_1_L, singleton_subseteq_l, elem_of_list_to_set. exact Hin. }
    rewrite E in H. pose proof (size_list_to_set_le l). lia.
  - rewrite size_union, size_singleton in H
      by (apply disjoint_singleton_l; rewrite elem_of_list_to_set; exact Hout).
    constructor; [exact Hout | apply IH; lia].
Qed.

Section CronScriptMore.
Context {CronScript ProtoUUID UUID E St : Type}.
Context {msgs : cronscript.Messages CronScript ProtoUUID UUID}.

#[local] Abbreviation Server := (cronscript.Server CronScript UUID E St).

Lemma scMap_of_dom (scripts : list CronScript) :
  dom (cronscript.scMap_of scripts) = list_to_set (script_key <$> scripts).
Proof.
  unfold cronscript.scMap_of.
  assert (H : forall l (m0 : gmap string CronScript),
             dom (foldl (fun scMap s => <[script_key s := s]> scMap) m0 l)
             = dom m0 ∪ list_to_set (script_key <$> l)).
  { induction l as [|a l IH]; intros m0; simpl.
    - now rewrite union_empty_r_L.
    - rewrite IH, dom_insert_L, (comm_L (∪) {[script_key a]}), (assoc_L (∪)).
      reflexivity. }
  rewrite (H scripts ∅), dom_empty_L. apply union_empty_l_L.
Qed.

(** The map [GetScripts] builds from the scripts a request of [SetScripts]
    carried is the map of the request, when the request files every script
    under its own id string. *)
Lemma scMap_of_request (entries : list (string * CronScript)) (scripts : list CronScript) :
  NoDup entries.*1 ->
  (forall k sc, (k, sc) ∈ entries -> script_key sc = k) ->
  scripts ≡ₚ entries.*2 ->
  cronscript.scMap_of scripts = list_to_map entries.
Proof.
  intros Hnd Hkeys Hperm. apply map_eq. intros k.
  assert (Hk : script_key <$> entries.*2 = entries.*1).
  { clear Hnd Hperm. induction entries as [|[k' sc] l IH]; [reflexivity|].
    simpl. rewrite (Hkeys k' sc) by apply list_elem_of_here.
    f_equal. apply IH. intros k0 sc0 H. apply Hkeys. now apply list_elem_of_further. }
  assert (Hnd' : NoDup (script_key <$> scripts)).
  { rewrite Hperm, Hk. exact Hnd. }
  destruct (list_to_map entries !! k) as [sc|] eqn:El.
  - apply elem_of_list_to_map in El; [|exact Hnd].
    pose proof (Hkeys k sc El) as Hsc.
    assert (Hin : sc ∈ scripts).
    { rewrite Hperm. apply list_elem_of_fmap. exists (k, sc). auto. }
    rewrite scMap_of_lookup, <- Hsc.
    now rewrite (filter_key_NoDup scripts sc Hnd' Hin).
  - apply not_elem_of_list_to_map in El.
    rewrite scMap_of_lookup, filter_key_absent; [reflexivity|].
    rewrite Hperm, Hk. exact El.
Qed.

(** X13.  Round trip through the store.  When a request of [SetScripts]
    files every script under the string of its own id, and the store then
    holds the scripts it was given (in whatever order), [SetScripts] returns
    its acknowledgement and a following [GetScripts] returns the very map of
    the request. *)
Theorem SetScripts_then_GetScripts
    (s : Server) (req : cronscript.SetScriptsRequest CronScript)
    (st st1 st2 : St) (scripts : list CronScript)
    (Hmap : NoDup (cronscript.req_Scripts req).*1)
    (Hkeys : forall k sc, (k, sc) ∈ cronscript.req_Scripts req -> script_key sc = k)
    (Hset : cronscript.SetCronScripts (cronscript.ds s) (cronscript.req_Scripts req).*2 st
            = (None, st1))
    (Hget : cronscript.GetCronScripts (cronscript.ds s) st1 = ((scripts, None), st2))
    (Hstored : scripts ≡ₚ (cronscript.req_Scripts req).*2) :
  cronscript.SetScripts s req st = ((Some cronscript.mkSetScriptsResponse, None), st1) /\
  cronscript.GetScripts s st1
    = ((Some (cronscript.mkGetScriptsResponse (list_to_map (cronscript.req_Scripts req))),
        None), st2).
Proof.
  split.
  - unfold cronscript.SetScripts.
    rewrite (SetScripts_list (cronscript.req_Scripts req) []). simpl. now rewrite Hset.
  - unfold cronscript.GetScripts. rewrite Hget.
    now rewrite (scMap_of_request _ scripts Hmap Hkeys Hstored).
Qed.

(** X14.  The map [GetScripts] returns has one entry for every distinct id
    string among the scripts of the store: never more entries than scripts,
    and as many entries as scripts exactly when no two scripts share an id
    string. *)
Theorem GetScripts_has_an_entry_per_distinct_id
    (s : Server) (st st' : St) (scripts : list CronScript)
    (Hget : cronscript.GetCronScripts (cronscript.ds s) st = ((scripts, None), st')) :
  exists m,
    cronscript.GetScripts s st = ((Some (cronscript.mkGetScriptsResponse m), None), st') /\
    dom m = list_to_set (script_key <$> scripts) /\
    (size m <= List.length scripts)%nat /\
    (size m = List.length scripts <-> NoDup (script_key <$> scripts)).
Proof.
  exists (cronscript.scMap_of scripts).
  split; [unfold cronscript.GetScripts; now rewrite Hget|].
  split; [apply scMap_of_dom|].
  rewrite <- size_dom, scMap_of_dom.
  pose proof (size_list_to_set_le (script_key <$> scripts)) as Hle.
  pose proof (size_list_to_set_NoDup (script_key <$> scripts)) as Hiff.
  rewrite length_fmap in Hle, Hiff. split; [exact Hle | exact Hiff].
Qed.

End CronScriptMore.

Lemma SetScripts_then_GetScripts_witness :
  let s := cronscript.New sample_store in
  let req := cronscript.mkSetScriptsRequest
               [("u1", ("u1", "select 1")); ("u2", ("u2", "select 2"))] in
  let st := mkSampleStoreState [("u0", "old")] None in
  let st1 := mkSampleStoreState [("u1", "select 1"); ("u2", "select 2")] None in
  cronscript.SetScripts s req st = ((Some cronscript.mkSetScriptsResponse, None), st1) /\
  cronscript.GetScripts s st1
    = ((Some (cronscript.mkGetScriptsResponse
                {[ "u1" := ("u1", "select 1"); "u2" := ("u2", "select 2") ]}), None), st1).
Proof.
  simpl.
  pose (req := cronscript.mkSetScriptsRequest
                 [("u1", ("u1", "select 1")); ("u2", ("u2", "select 2"))]).
  assert (Hmap : NoDup (cronscript.req_Scripts req).*1).
  { simpl. apply NoDup_cons_2; [|apply NoDup_singleton].
    intros H. apply list_elem_of_singleton in H. discriminate H. }
  assert (Hkeys : forall k sc, (k, sc) ∈ cronscript.req_Scripts req -> script_key sc = k).
  { intros k sc H. simpl in H.
    repeat (apply elem_of_cons in H as [H|H]; [injection H as -> ->; reflexivity|]).
    inversion H. }
  destruct (SetScripts_then_GetScripts (cronscript.New sample_store) req
              (mkSampleStoreState [("u0", "old")] None)
              (mkSampleStoreState [("u1", "select 1"); ("u2", "select 2")] None)
              (mkSampleStoreState [("u1", "select 1"); ("u2", "select 2")] None)
              [("u1", "select 1"); ("u2", "select 2")]
              Hmap Hkeys eq_refl eq_refl ltac:(reflexivity)) as [H1 H2].
  split; [exact H1|]. rewrite H2. reflexivity.
Defined.

Lemma GetScripts_has_an_entry_per_distinct_id_witness :
  exists m,
    cronscript.GetScripts (cronscript.New sample_store)
      (mkSampleStoreState [("u1", "a"); ("u2", "b"); ("u1", "c")] None)
    = ((Some (cronscript.mkGetScriptsResponse m), None),
       mkSampleStoreState [("u1", "a"); ("u2", "b"); ("u1", "c")] None) /\
    (size m <= 3)%nat.
Proof.
  destruct (GetScripts_has_an_entry_per_distinct_id (cronscript.New sample_store)
              (mkSampleStoreState [("u1", "a"); ("u2", "b"); ("u1", "c")] None)
              _ _ eq_refl) as (m & H1 & _ & H2 & _).
  exists m. split; [exact H1 | exact H2].
Defined.

(** * Further properties of the deployment generator *)

(** ** The events a function adds to the trace *)

Lemma on_ops_weaken (ok ok' : deploy.Op -> bool) (evs : list deploy.Event) :
  (forall op, ok op = true -> ok' op = true) ->
  forallb (on_ops ok) evs = true -> forallb (on_ops ok') evs = true.
Proof.
  intros H. induction evs as [|e evs IH]; [reflexivity|]. simpl.
  intros Hev. apply andb_true_iff in Hev as [He Hevs].
  apply andb_true_iff. split; [|exact (IH Hevs)].
  destruct e; simpl in *; auto.
Qed.

Lemma emits_weaken {A} (Pre Pre' : deploy.Proc -> Prop) (ok ok' : deploy.Op -> bool)
    (Post Post' : A -> deploy.Proc -> Prop) (m : deploy.M A) :
  (forall p, Pre' p -> Pre p) ->
  (forall op, ok op = true -> ok' op = true) ->
  (forall a p, Post a p -> Post' a p) ->
  emits Pre ok Post m -> emits Pre' ok' Post' m.
Proof.
  intros HPre Hok HPost Hm p Hp.
  destruct (Hm p (HPre p Hp)) as (evs & Htr & Hev & Hret).
  exists evs. split_and!; [exact Htr | exact (on_ops_weaken _ _ _ Hok Hev) | auto].
Qed.

Lemma emits_bind {A B} (Pre : deploy.Proc -> Prop) (ok : deploy.Op -> bool)
    (Mid : A -> deploy.Proc -> Prop) (Post : B -> deploy.Proc -> Prop)
    (m : deploy.M A) (f : A -> deploy.M B) :
  emits Pre ok Mid m -> (forall a, emits (Mid a) ok Post (f a)) ->
  emits Pre ok Post (m ≫= f).
Proof.
  intros Hm Hf p Hp. destruct (Hm p Hp) as (evs & Htr & Hev & Hret).
  unfold mbind, deploy.M_bind. destruct (m p) as [out p1]. simpl in *.
  destruct out as [a| | |].
  - destruct (Hf a p1 (Hret a eq_refl)) as (evs2 & Htr2 & Hev2 & Hret2).
    exists (evs ++ evs2). rewrite Htr2, Htr, app_assoc.
    split_and!; [reflexivity | rewrite forallb_app, Hev, Hev2; reflexivity | exact Hret2].
  - exists evs. split_and!; auto. intros b H; discriminate H.
  - exists evs. split_and!; auto. intros b H; discriminate H.
  - exists evs. split_and!; auto. intros b H; discriminate H.
Qed.

Section Quiet.
Context (Q : list (string + deploy.error) -> Prop) (ok : deploy.Op -> bool).

Lemma quiet_ret {A} (a : A) : quiet Q ok (mret a).
Proof.
  intros p Hp. exists []. rewrite app_nil_r. split_and!; [reflexivity..|].
  intros b _. exact Hp.
Qed.

Lemma quiet_bind {A B} (m : deploy.M A) (f : A -> deploy.M B) :
  quiet Q ok m -> (forall a, quiet Q ok (f a)) -> quiet Q ok (m ≫= f).
Proof. intros Hm Hf. exact (emits_bind _ _ _ _ m f Hm Hf). Qed.

Lemma quiet_emit (e : deploy.Event) :
  on_ops ok e = true -> quiet Q ok (deploy.emit e).
Proof.
  intros He p Hp. exists [e]. simpl. rewrite He. split_and!; [reflexivity..|].
  intros b _. exact Hp.
Qed.

Lemma quiet_call {R} op (answer : list deploy.Event -> R) err_of :
  ok op = true -> quiet Q ok (deploy.call op answer err_of).
Proof.
  intros Hop p Hp. eexists [_]. split_and!; [reflexivity | simpl; now rewrite Hop |].
  intros b _. exact Hp.
Qed.

Lemma quiet_os_Exit {A} status : quiet Q ok (deploy.os_Exit (A := A) status).
Proof.
  intros p Hp. exists []. rewrite app_nil_r. split_and!; [reflexivity..|].
  intros b H. discriminate H.
Qed.

Lemma quiet_panic {A} msg : quiet Q ok (deploy.panic (A := A) msg).
Proof.
  intros p Hp. exists []. rewrite app_nil_r. split_and!; [reflexivity..|].
  intros b H. discriminate H.
Qed.

Lemma quiet_log_Fatal {A} msg err : quiet Q ok (deploy.log_Fatal (A := A) msg err).
Proof.
  intros p Hp. eexists [_]. split_and!; [reflexivity..|].
  intros b H. discriminate H.
Qed.

End Quiet.

Lemma quiet_ops {A} Q (ok ok' : deploy.Op -> bool) (m : deploy.M A) :
  (forall op, ok op = true -> ok' op = true) -> quiet Q ok m -> quiet Q ok' m.
Proof. intros H. apply emits_weaken; auto. Qed.

(** Proves [quiet Q ok m] for a body [m] made of returns, log lines, calls
    that [ok] admits, and case distinctions. *)
Ltac quiet_body :=
  repeat first
    [ apply quiet_ret
    | apply quiet_log_Fatal
    | apply quiet_os_Exit
    | apply quiet_panic
    | apply quiet_emit; reflexivity
    | apply quiet_call; reflexivity
    | apply quiet_bind; [|intros ?]
    | match goal with
      | |- quiet _ _ (match ?x with _ => _ end) => destruct x
      end ].

Section MoreRunFacts.
Variable w : deploy.World.

Lemma quiet_parseArgs Q : quiet Q no_ops (deploy.parseArgs w).
Proof. unfold deploy.parseArgs. quiet_body. Qed.

Lemma quiet_findTemplateFiles_loop Q paths :
  forall templateFiles,
    quiet Q ops_findTemplateFiles (deploy.findTemplateFiles_loop w paths templateFiles).
Proof.
  induction paths as [|curPath rest IH]; intros templateFiles; simpl; [apply quiet_ret|].
  quiet_body. apply IH.
Qed.

Lemma quiet_loadConfig Q configFile buildDir :
  quiet Q ops_loadConfig (deploy.loadConfig w configFile buildDir).
Proof. unfold deploy.loadConfig. quiet_body. Qed.

Lemma quiet_generateServiceConfigs Q templateFiles buildDir totPath config :
  quiet Q ops_generateServiceConfigs
        (deploy.generateServiceConfigs w templateFiles buildDir totPath config).
Proof.
  induction templateFiles as [|templateFile rest IH]; simpl; [apply quiet_ret|].
  quiet_body. exact IH.
Qed.

Lemma quiet_startSkaffold Q buildDir workspaceDir :
  quiet Q ops_startSkaffold (deploy.startSkaffold w buildDir workspaceDir).
Proof. unfold deploy.startSkaffold. quiet_body. Qed.

(** *** The confirmation loop *)

Lemma confirmation_loop_emits env input : forall p,
  exists evs,
    deploy.trace (deploy.confirmation_loop env input p).2 = deploy.trace p ++ evs /\
    forallb (on_ops ops_getConfirmationForPush) evs = true /\
    ((deploy.confirmation_loop env input p).1 = deploy.Return true ->
     exists line, inl line ∈ input /\ deploy.ToLower line = "y").
Proof.
  induction input as [|answer rest IH]; intros p; simpl.
  - exists []. rewrite app_nil_r. split_and!; [reflexivity..|]. intros H; discriminate H.
  - destruct answer as [confirmation|err].
    + destruct (decide (deploy.ToLower confirmation = "y")) as [Hy|Hy].
      * eexists [_]. split_and!; [reflexivity..|]. intros _.
        exists confirmation. split; [apply list_elem_of_here | exact Hy].
      * destruct (decide (deploy.ToLower confirmation = "n")) as [Hn|Hn].
        -- eexists [_]. split_and!; [reflexivity..|]. intros H; discriminate H.
        -- unfold mbind, deploy.M_bind, deploy.emit. simpl.
           match goal with
           | |- context [deploy.confirmation_loop env rest ?q] =>
             destruct (IH q) as (evs & Htr & Hev & Hret)
           end.
           simpl in Htr. eexists (_ :: _ :: evs).
           split_and!.
           ++ rewrite Htr. rewrite <- !app_assoc. reflexivity.
           ++ simpl. exact Hev.
           ++ intros H. destruct (Hret H) as (line & Hin & Hl).
              exists line. split; [now apply list_elem_of_further | exact Hl].
    + unfold deploy.log_Fatal, mbind, deploy.M_bind, deploy.emit, deploy.os_Exit. simpl.
      eexists [_; _]. split_and!; [now rewrite <- app_assoc | reflexivity |].
      intros H; discriminate H.
Qed.

Lemma emits_getConfirmationForPush env :
  emits (fun _ => True) ops_getConfirmationForPush (fun _ _ => True)
        (deploy.getConfirmationForPush env).
Proof.
  intros p _. unfold deploy.getConfirmationForPush.
  destruct (decide (env = "dev")).
  - exists []. rewrite app_nil_r. split_and!; [reflexivity..|]. auto.
  - destruct (confirmation_loop_emits env (deploy.stdin p) p) as (evs & Htr & Hev & _).
    exists evs. split_and!; auto.
Qed.

Lemma unconfirmed_getConfirmationForPush env :
  env <> "dev" ->
  emits (fun p => never_confirms (deploy.stdin p)) ops_getConfirmationForPush
        (fun confirmed _ => confirmed = false)
        (deploy.getConfirmationForPush env).
Proof.
  intros Henv p Hp. unfold deploy.getConfirmationForPush.
  rewrite decide_False by exact Henv.
  destruct (confirmation_loop_emits env (deploy.stdin p) p) as (evs & Htr & Hev & Hret).
  exists evs. split_and!; auto.
  intros [|] Ha; [|reflexivity].
  destruct (Hret Ha) as (line & Hin & Hl). destruct (Hp line Hin Hl).
Qed.

(** The environment [checkEnvironment] asks about. *)
Lemma checkEnvironment_emits :
  emits (fun _ => True) ops_getConfirmationForPush (fun _ _ => True)
        (deploy.checkEnvironment w).
Proof.
  unfold deploy.checkEnvironment.
  apply (emits_bind _ _ (fun _ _ => True)); [apply emits_getConfirmationForPush|].
  intros [|]; simpl.
  - apply (quiet_ret (fun _ => True)).
  - apply (quiet_bind (fun _ => True)); [now apply quiet_emit | intros _; apply quiet_ret].
Qed.

Lemma checkEnvironment_unconfirmed :
  deploy.viper_GetBool w "prod" || deploy.viper_GetBool w "staging" = true ->
  emits (fun p => never_confirms (deploy.stdin p)) ops_getConfirmationForPush
        (fun environValid _ => environValid = false)
        (deploy.checkEnvironment w).
Proof.
  intros Henv. unfold deploy.checkEnvironment.
  apply (emits_bind _ _ (fun confirmed _ => confirmed = false)).
  - apply unconfirmed_getConfirmationForPush.
    destruct (deploy.viper_GetBool w "prod"); [discriminate|].
    destruct (deploy.viper_GetBool w "staging"); [discriminate | discriminate Henv].
  - intros confirmed p ->. simpl. eexists [_]. split_and!; [reflexivity..|].
    intros a H. injection H as <-. reflexivity.
Qed.

Lemma checkEnvironment_dev Q :
  deploy.viper_GetBool w "prod" = false -> deploy.viper_GetBool w "staging" = false ->
  quiet Q no_ops (deploy.checkEnvironment w).
Proof.
  intros Hp Hs. unfold deploy.checkEnvironment. rewrite Hp, Hs.
  unfold deploy.getConfirmationForPush. rewrite decide_True by reflexivity.
  intros p HQ. exists []. rewrite app_nil_r. split_and!; [reflexivity..|].
  intros a _. exact HQ.
Qed.

(** The part of [main] that follows a confirmed environment. *)
Lemma quiet_main_rest Q (ok : deploy.Op -> bool) buildDir totPath :
  (forall op, ops_findTemplateFiles op = true -> ok op = true) ->
  (forall op, ops_loadConfig op = true -> ok op = true) ->
  (forall op, ops_generateServiceConfigs op = true -> ok op = true) ->
  forall k : deploy.M unit, quiet Q ok k ->
  quiet Q ok
    (deploy.call (deploy.MkdirAll buildDir) (fun h => deploy.mkdir_all w h buildDir) id ≫=
     (fun _ =>
        deploy.findTemplateFiles w
          [deploy.path_Join w [totPath; "skaffold"]; deploy.path_Join w [totPath; "services"]] ≫=
        (fun templateFiles =>
           deploy.loadConfig w
             (deploy.path_Join w
                [totPath; "templates/skaffold/skaffold_service_config_"
                          +:+ (if deploy.viper_GetBool w "prod" then "prod" else "dev")
                          +:+ ".pbtxt"]) buildDir ≫=
           (fun config =>
              deploy.generateServiceConfigs w templateFiles buildDir totPath config ≫=
              (fun _ => k))))).
Proof.
  intros H1 H2 H3 k Hk.
  apply quiet_bind; [apply quiet_call; apply H3; reflexivity | intros _].
  apply quiet_bind;
    [exact (quiet_ops Q _ _ _ H1 (quiet_findTemplateFiles_loop Q _ _)) | intros templateFiles].
  apply quiet_bind; [exact (quiet_ops Q _ _ _ H2 (quiet_loadConfig Q _ _)) | intros config].
  apply quiet_bind;
    [exact (quiet_ops Q _ _ _ H3 (quiet_generateServiceConfigs Q _ _ _ _)) | intros _].
  exact Hk.
Qed.

End MoreRunFacts.

(** ** Arguments, confirmation and the order of a run *)

Section RunTheorems.
Variable w : deploy.World.

Lemma parseArgs_ok (p : deploy.Proc) :
  is_Some (deploy.command_line w) ->
  deploy.viper_GetString w "build_dir" <> "" ->
  deploy.viper_GetBool w "prod" && deploy.viper_GetBool w "staging" = false ->
  deploy.parseArgs w p = (deploy.Return tt, p).
Proof.
  intros [cl Hcl] Hb Hf. unfold deploy.parseArgs. rewrite Hcl.
  unfold mbind, deploy.M_bind. rewrite decide_False by exact Hb. rewrite Hf.
  reflexivity.
Qed.

(** X15.  [parseArgs] returns exactly when the command line parses, a build
    directory is named and the two environment flags are not both set; it
    then leaves no trace.  A command line that does not parse ends the run
    with exit status 2.  A missing build directory ends it with exit status
    1 after the fatal line about [--build_dir], whatever the flags say: that
    check comes first. *)
Theorem parseArgs_returns_on_valid_arguments (p : deploy.Proc) :
  ((deploy.parseArgs w p).1 = deploy.Return tt
   <-> is_Some (deploy.command_line w) /\
       deploy.viper_GetString w "build_dir" <> "" /\
       deploy.viper_GetBool w "prod" && deploy.viper_GetBool w "staging" = false) /\
  ((deploy.parseArgs w p).1 = deploy.Return tt -> (deploy.parseArgs w p).2 = p) /\
  (deploy.command_line w = None -> deploy.parseArgs w p = (deploy.Exit 2, p)) /\
  (is_Some (deploy.command_line w) ->
   deploy.viper_GetString w "build_dir" = "" ->
   deploy.parseArgs w p
   = (deploy.Exit 1,
      deploy.mkProc
        (deploy.trace p ++
         [deploy.Log deploy.FatalLevel
            "Flag --build_dir is required. Please specify build_dir as an argument. Refer to the usage menu (-h) for more help."
            None])
        (deploy.stdin p))).
Proof.
  split_and!.
  - split.
    + unfold deploy.parseArgs. destruct (deploy.command_line w) as [cl|]; [|discriminate].
      unfold mbind, deploy.M_bind.
      destruct (decide (deploy.viper_GetString w "build_dir" = "")) as [Hb|Hb];
        [discriminate|].
      destruct (deploy.viper_GetBool w "prod" && deploy.viper_GetBool w "staging");
        [discriminate|].
      intros _. split_and!; eauto.
    + intros (Hc & Hb & Hf). now rewrite (parseArgs_ok p Hc Hb Hf).
  - unfold deploy.parseArgs. destruct (deploy.command_line w) as [cl|]; [|discriminate].
    unfold mbind, deploy.M_bind.
    destruct (decide (deploy.viper_GetString w "build_dir" = "")) as [Hb|Hb];
      [discriminate|].
    destruct (deploy.viper_GetBool w "prod" && deploy.viper_GetBool w "staging");
      [discriminate|].
    reflexivity.
  - intros Hc. unfold deploy.parseArgs. rewrite Hc. reflexivity.
  - intros [cl Hc] Hb. unfold deploy.parseArgs. rewrite Hc.
    unfold mbind, deploy.M_bind. rewrite decide_True by exact Hb. reflexivity.
Qed.

(** *** The confirmation loop *)




(** X18.  Without a yes on the standard input, a push to prod or staging
    changes nothing: whatever else the input holds and however the run
    ends, the only outside calls it has made are the search for the
    workspace root and the reading of lines.  No directory or file has been
    created, no template read, no command run. *)
Theorem nothing_is_written_without_a_yes
    (Henv : deploy.viper_GetBool w "prod" || deploy.viper_GetBool w "staging" = true)
    (Hno : never_confirms (deploy.stdin_input w)) :
  forallb (on_ops reads_only) (deploy.trace (deploy.run w).2) = true.
Proof.
  assert (H : emits (fun p => never_confirms (deploy.stdin p)) reads_only (fun _ _ => True)
                    (deploy.main w)).
  { unfold deploy.main.
    apply (emits_bind _ _ (fun _ p => never_confirms (deploy.stdin p))).
    { apply (quiet_ops never_confirms no_ops); [discriminate | apply quiet_parseArgs]. }
    intros _.
    apply (emits_bind _ _ (fun _ p => never_confirms (deploy.stdin p))).
    { apply (quiet_call never_confirms). reflexivity. }
    intros [totPath|err].
    - apply (emits_bind _ _ (fun environValid _ => environValid = false)).
      + apply (emits_weaken _ _ ops_getConfirmationForPush reads_only _ _ _
                 (fun _ H => H) ltac:(intros []; simpl; congruence) (fun _ _ H => H)).
        apply checkEnvironment_unconfirmed. exact Henv.
      + intros environValid p ->. simpl. exists []. rewrite app_nil_r.
        split_and!; [reflexivity..|]. auto.
    - intros p Hp. eexists [_]. split_and!; [reflexivity..|].
      intros a H. discriminate H. }
  destruct (H (deploy.mkProc [] (deploy.stdin_input w)) Hno) as (evs & Htr & Hev & _).
  unfold deploy.run. rewrite Htr. exact Hev.
Qed.

(** X19.  A run for the dev environment asks nothing: with neither flag
    set the run never reads the standard input, however it goes on. *)
Theorem dev_run_never_reads_stdin
    (Hprod : deploy.viper_GetBool w "prod" = false)
    (Hstaging : deploy.viper_GetBool w "staging" = false) :
  forallb (on_ops not_GetStdinInput) (deploy.trace (deploy.run w).2) = true.
Proof.
  assert (H : quiet (fun _ => True) not_GetStdinInput (deploy.main w)).
  { unfold deploy.main.
    apply quiet_bind;
      [apply (quiet_ops _ no_ops); [discriminate | apply quiet_parseArgs] | intros _].
    apply quiet_bind; [apply quiet_call; reflexivity | intros [totPath|err]];
      [|apply quiet_log_Fatal].
    apply quiet_bind;
      [apply (quiet_ops _ no_ops); [discriminate | now apply checkEnvironment_dev]
      | intros environValid].
    destruct environValid; simpl; [|apply quiet_ret].
    apply quiet_main_rest; try (intros []; simpl; congruence).
    apply (quiet_ops _ ops_startSkaffold); [intros []; simpl; congruence|].
    apply quiet_startSkaffold. }
  destruct (H (deploy.mkProc [] (deploy.stdin_input w)) I) as (evs & Htr & Hev & _).
  unfold deploy.run. rewrite Htr. exact Hev.
Qed.

(** *** Skaffold comes last *)

Lemma starts_last_of_emits (m : deploy.M unit) :
  emits (fun _ => True) not_RunCmd (fun _ _ => True) m -> starts_skaffold_last m.
Proof.
  intros Hm p. destruct (Hm p I) as (evs & Htr & Hev & _).
  exists evs, []. rewrite app_nil_r. split_and!; [exact Htr | exact Hev | constructor].
Qed.

Lemma starts_last_bind {A} (m : deploy.M A) (f : A -> deploy.M unit) :
  emits (fun _ => True) not_RunCmd (fun _ _ => True) m ->
  (forall a, starts_skaffold_last (f a)) ->
  starts_skaffold_last (m ≫= f).
Proof.
  intros Hm Hf p. destruct (Hm p I) as (evs & Htr & Hev & _).
  unfold mbind, deploy.M_bind. destruct (m p) as [out p1]. simpl in *.
  destruct out as [a| | |].
  - destruct (Hf a p1) as (pre & post & Htr2 & Hpre & Hend).
    exists (evs ++ pre), post. rewrite Htr2, Htr, <- !app_assoc.
    split_and!; [reflexivity | rewrite forallb_app, Hev, Hpre; reflexivity | exact Hend].
  - exists evs, []. rewrite app_nil_r. split_and!; [exact Htr | exact Hev | constructor].
  - exists evs, []. rewrite app_nil_r. split_and!; [exact Htr | exact Hev | constructor].
  - exists evs, []. rewrite app_nil_r. split_and!; [exact Htr | exact Hev | constructor].
Qed.

Lemma starts_last_startSkaffold buildDir workspaceDir :
  starts_skaffold_last (deploy.startSkaffold w buildDir workspaceDir).
Proof.
  intros p. unfold deploy.startSkaffold, mbind, deploy.M_bind, deploy.call. simpl.
  destruct (deploy.file_exists w _ _); simpl.
  - match goal with
    | |- context [match ?e with Some _ => _ | None => _ end] => destruct e as [err|] eqn:Herr
    end; simpl.
    + eexists [_; _], [_; _]. rewrite <- !app_assoc.
      split_and!; [reflexivity | reflexivity | constructor].
    + eexists [_; _], [_]. rewrite <- !app_assoc.
      split_and!; [reflexivity | reflexivity | constructor].
  - eexists [_; _], []. rewrite <- !app_assoc.
    split_and!; [reflexivity | reflexivity | constructor].
Qed.

(** X20.  Skaffold is started at most once, and as the last act of the run:
    every event of a run before the call of skaffold is something else than
    a call of skaffold; after a call that succeeds the run is over, with
    success; after a call that fails there is the fatal log line carrying
    the error and the run ends with exit status 1. *)
Theorem skaffold_is_started_last :
  exists pre post,
    deploy.trace (deploy.run w).2 = pre ++ post /\
    forallb (on_ops not_RunCmd) pre = true /\
    skaffold_end (deploy.run w).1 post.
Proof.
  assert (H : starts_skaffold_last (deploy.main w)).
  { unfold deploy.main.
    apply starts_last_bind.
    { apply (quiet_ops (fun _ => True) no_ops); [discriminate | apply quiet_parseArgs]. }
    intros _. apply starts_last_bind.
    { apply (quiet_call (fun _ => True)). reflexivity. }
    intros [totPath|err];
      [|apply starts_last_of_emits, (quiet_log_Fatal (fun _ => True))].
    apply starts_last_bind.
    { apply (emits_weaken _ _ ops_getConfirmationForPush not_RunCmd _ _ _
               (fun _ H => H) ltac:(intros []; simpl; congruence) (fun _ _ H => H)).
      apply checkEnvironment_emits. }
    intros environValid. destruct environValid; simpl;
      [|apply starts_last_of_emits, (quiet_ret (fun _ => True))].
    apply starts_last_bind; [apply (quiet_call (fun _ => True)); reflexivity | intros _].
    apply starts_last_bind.
    { apply (quiet_ops (fun _ => True) ops_findTemplateFiles);
        [intros []; simpl; congruence | apply quiet_findTemplateFiles_loop]. }
    intros templateFiles. apply starts_last_bind.
    { apply (quiet_ops (fun _ => True) ops_loadConfig);
        [intros []; simpl; congruence | apply quiet_loadConfig]. }
    intros config. apply starts_last_bind.
    { apply (quiet_ops (fun _ => True) ops_generateServiceConfigs);
        [intros []; simpl; congruence | apply quiet_generateServiceConfigs]. }
    intros _. apply starts_last_startSkaffold. }
  destruct (H (deploy.mkProc [] (deploy.stdin_input w))) as (pre & post & Htr & Hpre & Hend).
  exists pre, post. split_and!; assumption.
Qed.

End RunTheorems.



Lemma nothing_is_written_without_a_yes_witness :
  forallb (on_ops reads_only)
          (deploy.trace (deploy.run (staging_world [inl "maybe"; inl "yes"; inr "EOF"])).2)
  = true.
Proof.
  apply (nothing_is_written_without_a_yes
           (staging_world [inl "maybe"; inl "yes"; inr "EOF"]) eq_refl).
  intros a Ha. simpl in Ha.
  apply elem_of_cons in Ha as [Ha|Ha]; [injection Ha as ->; vm_compute; discriminate|].
  apply elem_of_cons in Ha as [Ha|Ha]; [injection Ha as ->; vm_compute; discriminate|].
  apply elem_of_cons in Ha as [Ha|Ha]; [discriminate Ha | inversion Ha].
Defined.

Lemma dev_run_never_reads_stdin_witness :
  forallb (on_ops not_GetStdinInput)
          (deploy.trace (deploy.run (sample_world [("build_dir", "/ws/build")] []
                                                  [inl "y"])).2)
  = true.
Proof.
  exact (dev_run_never_reads_stdin
           (sample_world [("build_dir", "/ws/build")] [] [inl "y"]) eq_refl eq_refl).
Defined.

(** ** The search for templates *)

Lemma FsNode_ind' (P : deploy.FsNode -> Prop) :
  (forall name, P (deploy.FsFile name)) ->
  (forall name entries, Forall P entries -> P (deploy.FsDir name entries)) ->
  (forall name err, P (deploy.FsLstatError name err)) ->
  (forall name err, P (deploy.FsReadDirError name err)) ->
  forall n, P n.
Proof.
  intros Hfile Hdir Hlstat Hread. fix IH 1.
  intros [name|name entries|name err|name err];
    [apply Hfile | | apply Hlstat | apply Hread].
  apply Hdir. induction entries as [|e rest IHrest]; constructor; [apply IH | exact IHrest].
Qed.

Lemma walkFn_tmpl path info err (acc : list string) :
  Forall (fun f => deploy.Ext f = ".tmpl") acc ->
  Forall (fun f => deploy.Ext f = ".tmpl") (deploy.walkFn path info err acc).1.
Proof.
  intros Hacc. unfold deploy.walkFn.
  destruct err; [exact Hacc|].
  destruct info as [[name is_dir]|]; [|exact Hacc].
  destruct (is_dir && bool_decide (name = "vendor")); [exact Hacc|].
  destruct (decide (deploy.Ext path = ".tmpl")) as [He|He]; [|exact Hacc].
  apply Forall_app. split; [exact Hacc | repeat constructor; exact He].
Qed.

Lemma walk_tmpl (node : deploy.FsNode) : forall path acc,
  Forall (fun f => deploy.Ext f = ".tmpl") acc ->
  Forall (fun f => deploy.Ext f = ".tmpl") (deploy.walk path node acc).1.
Proof.
  induction node as [name|name entries IH|name err|name err] using FsNode_ind';
    intros path acc Hacc; try (apply walkFn_tmpl; exact Hacc).
  cbn -[deploy.walkFn].
  pose proof (walkFn_tmpl path (Some (name, true)) None acc Hacc) as H0.
  destruct (deploy.walkFn path (Some (name, true)) None acc) as [tf err1]. simpl in H0.
  destruct err1 as [e|]; [exact H0|].
  revert tf H0. induction IH as [|entry rest Hentry _ IHrest]; intros tf H0; [exact H0|].
  pose proof (Hentry (path +:+ "/" +:+ deploy.fs_name entry) tf H0) as H1.
  destruct (deploy.walk (path +:+ "/" +:+ deploy.fs_name entry) entry tf) as [tf' err].
  simpl in H1.
  destruct err as [[e|]|]; [exact H1 | | exact (IHrest _ H1)].
  destruct entry; try exact (IHrest _ H1). exact H1.
Qed.

Section TemplateSearch.
Variable w : deploy.World.

Lemma findTemplateFiles_loop_tmpl (paths : list string) : forall acc p,
  Forall (fun f => deploy.Ext f = ".tmpl") acc ->
  exists files evs,
    deploy.findTemplateFiles_loop w paths acc p
    = (deploy.Return files, deploy.mkProc (deploy.trace p ++ evs) (deploy.stdin p)) /\
    calls_of evs = deploy.Walk <$> paths /\
    Forall (fun f => deploy.Ext f = ".tmpl") files.
Proof.
  induction paths as [|curPath rest IH]; intros acc p Hacc.
  - exists acc, []. rewrite app_nil_r. destruct p. split_and!; [reflexivity.. | exact Hacc].
  - simpl. unfold mbind, deploy.M_bind, deploy.emit, deploy.call, deploy.filepath_Walk.
    simpl.
    match goal with
    | |- context [deploy.walk curPath ?node acc] =>
      pose proof (walk_tmpl node curPath acc Hacc) as Hw;
      destruct (deploy.walk curPath node acc) as [tf err]
    end.
    simpl in Hw. simpl.
    destruct (mjoin err) as [e|]; simpl;
      match goal with
      | |- context [deploy.findTemplateFiles_loop w rest tf ?q] =>
        destruct (IH tf q Hw) as (files & evs & Hrun & Hcalls & Hfiles); rewrite Hrun
      end; simpl.
    + exists files. eexists (_ :: _ :: _ :: evs). split_and!; [| | exact Hfiles].
      * rewrite <- !app_assoc. reflexivity.
      * unfold calls_of in *. simpl. f_equal. exact Hcalls.
    + exists files. eexists (_ :: _ :: evs). split_and!; [| | exact Hfiles].
      * rewrite <- !app_assoc. reflexivity.
      * unfold calls_of in *. simpl. f_equal. exact Hcalls.
Qed.

(** X21.  [findTemplateFiles] always returns and walks every path it was
    told to search, once and in order, also after a walk that failed: a
    failure is only logged.  It reads nothing from the standard input, and
    every path it returns has the extension [.tmpl]. *)
Theorem findTemplateFiles_walks_every_root
    (pathsToSearch : list string) (p : deploy.Proc) :
  exists files evs,
    deploy.findTemplateFiles w pathsToSearch p
    = (deploy.Return files, deploy.mkProc (deploy.trace p ++ evs) (deploy.stdin p)) /\
    calls_of evs = deploy.Walk <$> pathsToSearch /\
    Forall (fun f => deploy.Ext f = ".tmpl") files.
Proof.
  unfold deploy.findTemplateFiles.
  destruct (findTemplateFiles_loop_tmpl pathsToSearch [] p) as (files & evs & Hrun & H);
    [constructor|].
  exists files, evs. split; [exact Hrun | exact H].
Qed.

End TemplateSearch.

Lemma without_vendor_contents_name (n : deploy.FsNode) :
  deploy.fs_name (without_vendor_contents n) = deploy.fs_name n.
Proof. destruct n; simpl; try reflexivity. now destruct (decide _). Qed.

Lemma walk_without_vendor_contents (node : deploy.FsNode) : forall path acc,
  deploy.walk path (without_vendor_contents node) acc = deploy.walk path node acc.
Proof.
  induction node as [name|name entries IH|name err|name err] using FsNode_ind';
    intros path acc; try reflexivity.
  simpl without_vendor_contents. destruct (decide (name = "vendor")) as [->|Hname].
  - reflexivity.
  - cbn -[deploy.walkFn].
    destruct (deploy.walkFn path (Some (name, true)) None acc) as [tf err1].
    destruct err1 as [e|]; [reflexivity|].
    revert tf. induction IH as [|entry rest Hentry _ IHrest]; intros tf; [reflexivity|].
    cbn -[deploy.walkFn without_vendor_contents deploy.walk].
    rewrite without_vendor_contents_name, Hentry.
    destruct (deploy.walk (path +:+ "/" +:+ deploy.fs_name entry) entry tf) as [tf' err].
    destruct err as [[e|]|]; [reflexivity | | apply IHrest].
    destruct entry; simpl without_vendor_contents; try apply IHrest; [reflexivity|].
    destruct (decide _); apply IHrest.
Qed.

(** X22.  What lies inside a directory named [vendor] has no bearing on the
    search: the walk gives the same files and the same error for a tree and
    for the tree with every [vendor] directory emptied.  A root that is
    itself named [vendor] yields nothing and no error. *)
Theorem vendor_directories_are_not_searched
    (root : string) (node : deploy.FsNode) (templateFiles : list string) :
  deploy.filepath_Walk root (without_vendor_contents node) templateFiles
  = deploy.filepath_Walk root node templateFiles /\
  (forall entries,
     deploy.filepath_Walk root (deploy.FsDir "vendor" entries) templateFiles
     = (templateFiles, None)).
Proof.
  split.
  - unfold deploy.filepath_Walk. now rewrite walk_without_vendor_contents.
  - intros entries. reflexivity.
Qed.

Example vendor_directories_are_not_searched_sample :
  deploy.filepath_Walk "/ws/services" (sample_fs "/ws/services") []
  = (["/ws/services/api.tmpl"], None).
Proof. reflexivity. Qed.

(** ** Writing the manifests *)

Section Manifests.
Variable w : deploy.World.

Lemma calls_of_Did op err (evs : list deploy.Event) :
  calls_of (deploy.Did op err :: evs) = op :: calls_of evs.
Proof. reflexivity. Qed.

(** X23.  When creating, parsing, executing and closing succeed,
    [generateServiceConfigs] returns, and the outside calls it has made are,
    template by template and in the order of the templates: make the
    directory of the output file, create the output file, parse the
    template, execute it into the output file, close the output file.  The
    output file of a template is the template's path without its extension,
    followed by an underscore, the deployment of the configuration and
    [.yaml], taken relative to the workspace and put below the build
    directory.  Whether making a directory succeeds makes no difference. *)
Theorem generateServiceConfigs_makes_one_file_per_template
    (templateFiles : list string) (buildDir totPath : string)
    (config : deploy.serviceConfigExt) (p : deploy.Proc)
    (Hcreate : forall h f, deploy.create w h f = None)
    (Hparse : forall h f, deploy.parse_files w h f = None)
    (Hexec : forall h f c, deploy.execute w h f c = None)
    (Hclose : forall h f, deploy.close w h f = None) :
  exists evs,
    deploy.generateServiceConfigs w templateFiles buildDir totPath config p
    = (deploy.Return tt, deploy.mkProc (deploy.trace p ++ evs) (deploy.stdin p)) /\
    calls_of evs
    = List.concat (calls_for_template w buildDir totPath config <$> templateFiles).
Proof.
  revert p. induction templateFiles as [|templateFile rest IH]; intros p.
  - exists []. rewrite app_nil_r. destruct p. split; reflexivity.
  - remember (List.concat (calls_for_template w buildDir totPath config
                             <$> templateFile :: rest)) as calls eqn:Hcallsdef.
    simpl deploy.generateServiceConfigs.
    unfold mbind, deploy.M_bind, deploy.call. simpl.
    rewrite Hcreate. simpl. rewrite Hparse. simpl. rewrite Hexec. simpl.
    rewrite Hclose. simpl.
    match goal with
    | |- context [deploy.generateServiceConfigs w rest buildDir totPath config ?q] =>
      destruct (IH q) as (evs & Hrun & Hcalls); rewrite Hrun
    end.
    simpl. eexists (_ :: _ :: _ :: _ :: _ :: evs). split.
    + rewrite <- !app_assoc. reflexivity.
    + rewrite !calls_of_Did, Hcalls, Hcallsdef. reflexivity.
Qed.

End Manifests.

Lemma generateServiceConfigs_makes_one_file_per_template_witness :
  exists evs,
    deploy.generateServiceConfigs
      (sample_world [] [] []) ["/ws/skaffold/skaffold.yaml.tmpl"; "/ws/services/api.tmpl"]
      "/ws/build" "/ws"
      (deploy.mkServiceConfigExt (deploy.mkServiceConfig "dev" "") "build")
      (deploy.mkProc [] [])
    = (deploy.Return tt, deploy.mkProc evs []) /\
    calls_of evs
    = [deploy.MkdirAll "/ws/build/skaffold";
       deploy.Create "/ws/build/skaffold/skaffold.yaml_dev.yaml";
       deploy.ParseFiles "/ws/skaffold/skaffold.yaml.tmpl";
       deploy.Execute "/ws/skaffold/skaffold.yaml.tmpl"
                      "/ws/build/skaffold/skaffold.yaml_dev.yaml";
       deploy.Close "/ws/build/skaffold/skaffold.yaml_dev.yaml";
       deploy.MkdirAll "/ws/build/services";
       deploy.Create "/ws/build/services/api_dev.yaml";
       deploy.ParseFiles "/ws/services/api.tmpl";
       deploy.Execute "/ws/services/api.tmpl" "/ws/build/services/api_dev.yaml";
       deploy.Close "/ws/build/services/api_dev.yaml"].
Proof.
  destruct (generateServiceConfigs_makes_one_file_per_template
              (sample_world [] [] [])
              ["/ws/skaffold/skaffold.yaml.tmpl"; "/ws/services/api.tmpl"]
              "/ws/build" "/ws"
              (deploy.mkServiceConfigExt (deploy.mkServiceConfig "dev" "") "build")
              (deploy.mkProc [] [])
              (fun _ _ => eq_refl) (fun _ _ => eq_refl) (fun _ _ _ => eq_refl)
              (fun _ _ => eq_refl)) as (evs & Hrun & Hcalls).
  exists evs. split; [exact Hrun | rewrite Hcalls; reflexivity].
Defined.

(** ** The files of the environment *)

Section Environment.
Variable w : deploy.World.

Lemma parseArgs_returns_unchanged (p : deploy.Proc) :
  (deploy.parseArgs w p).1 = deploy.Return tt -> (deploy.parseArgs w p).2 = p.
Proof.
  unfold deploy.parseArgs. destruct (deploy.command_line w) as [cl|]; [|discriminate].
  unfold mbind, deploy.M_bind.
  destruct (decide (deploy.viper_GetString w "build_dir" = "")); [discriminate|].
  destruct (deploy.viper_GetBool w "prod" && deploy.viper_GetBool w "staging");
    [discriminate | reflexivity].
Qed.

Lemma emits_assume {A} (fact : Prop) (ok : deploy.Op -> bool)
    (Post : A -> deploy.Proc -> Prop) (m : deploy.M A) :
  (fact -> emits (fun _ => True) ok Post m) -> emits (fun _ => fact) ok Post m.
Proof. intros H p Hfact. exact (H Hfact p I). Qed.

Lemma quiet_findTemplateFiles_roots Q (ok : deploy.Op -> bool) paths :
  (forall root, root ∈ paths -> ok (deploy.Walk root) = true) ->
  forall templateFiles, quiet Q ok (deploy.findTemplateFiles_loop w paths templateFiles).
Proof.
  induction paths as [|curPath rest IH]; intros Hok templateFiles; simpl;
    [apply quiet_ret|].
  apply quiet_bind; [apply quiet_emit; reflexivity | intros _].
  apply quiet_bind; [apply quiet_call, Hok, list_elem_of_here | intros r].
  apply quiet_bind.
  - destruct r.2; [apply quiet_emit; reflexivity | apply quiet_ret].
  - intros _. apply IH. intros root Hr. apply Hok. now apply list_elem_of_further.
Qed.

(** X24.  A run touches the files of one environment only.  With the
    workspace root found at [totPath], every directory it walks is the
    [skaffold] or the [services] directory of the workspace; the one
    configuration file it reads and the one skaffold file it looks for are
    those of [prod] when [prod] is set and those of [dev] otherwise -- also
    for a push to staging; it changes to no directory but the workspace
    root; and the command it runs is [skaffold run] on that skaffold file
    when [prod] or [staging] is set and [skaffold dev] otherwise. *)
Theorem run_uses_the_files_of_the_environment (totPath : string)
    (Hroot : deploy.find_bazel_workspace_root w [] = inl totPath) :
  forallb (on_ops (ops_of_environment w totPath)) (deploy.trace (deploy.run w).2) = true.
Proof.
  assert (H : emits (fun p => deploy.trace p = []) (ops_of_environment w totPath)
                    (fun _ _ => True) (deploy.main w)).
  { unfold deploy.main.
    apply (emits_bind _ _ (fun _ p => deploy.trace p = [])).
    { intros p Hp.
      destruct (quiet_parseArgs w (fun _ => True) p I) as (evs & Htr & Hev & _).
      exists evs. split_and!; [exact Htr | |].
      - apply (on_ops_weaken no_ops); [discriminate | exact Hev].
      - intros [] Ha. now rewrite (parseArgs_returns_unchanged p Ha). }
    intros _.
    apply (emits_bind _ _ (fun r _ => r = inl totPath)).
    { intros p Hp. eexists [_]. split_and!; [reflexivity..|].
      intros r Hr. unfold deploy.call in Hr. simpl in Hr. injection Hr as <-.
      now rewrite Hp. }
    intros r. apply emits_assume. intros ->.
    match goal with
    | |- emits _ _ _ ?m => change (quiet (fun _ => True) (ops_of_environment w totPath) m)
    end.
    apply quiet_bind.
    { apply (emits_weaken _ _ ops_getConfirmationForPush (ops_of_environment w totPath)
               _ _ _ (fun _ H => H) ltac:(intros []; simpl; congruence) (fun _ _ H => H)).
      apply checkEnvironment_emits. }
    intros environValid. destruct environValid; simpl; [|apply quiet_ret].
    apply quiet_bind; [apply quiet_call; reflexivity | intros _].
    apply quiet_bind.
    { apply quiet_findTemplateFiles_roots. intros root Hr. simpl.
      apply bool_decide_eq_true_2. exact Hr. }
    intros templateFiles. apply quiet_bind.
    { unfold deploy.loadConfig.
      apply quiet_bind; [apply quiet_call; reflexivity | intros [tot|err]];
        [|apply quiet_log_Fatal].
      apply quiet_bind;
        [apply quiet_call; simpl; apply bool_decide_eq_true_2; reflexivity
        | intros [configBuf|err]]; [|apply quiet_log_Fatal].
      apply quiet_bind; [apply quiet_call; reflexivity | intros [cfg|err]];
        [apply quiet_ret | apply quiet_log_Fatal]. }
    intros config. apply quiet_bind.
    { apply (quiet_ops _ ops_generateServiceConfigs);
        [intros []; simpl; congruence | apply quiet_generateServiceConfigs]. }
    intros _. unfold deploy.startSkaffold.
    apply quiet_bind;
      [apply quiet_call; simpl; apply bool_decide_eq_true_2; reflexivity | intros [|]];
      [|apply quiet_log_Fatal].
    apply quiet_bind;
      [apply quiet_call; simpl; apply bool_decide_eq_true_2; reflexivity | intros _].
    apply quiet_bind;
      [apply quiet_call; simpl; apply bool_decide_eq_true_2; reflexivity | intros [err|]];
      [apply quiet_log_Fatal | apply quiet_ret]. }
  destruct (H (deploy.mkProc [] (deploy.stdin_input w)) eq_refl) as (evs & Htr & Hev & _).
  unfold deploy.run. rewrite Htr. exact Hev.
Qed.

End Environment.

Lemma run_uses_the_files_of_the_environment_witness :
  let w := staging_world [inl "y"] in
  forallb (on_ops (ops_of_environment w "/ws")) (deploy.trace (deploy.run w).2) = true /\
  last (deploy.trace (deploy.run w).2)
  = Some (deploy.Did (deploy.RunCmd "skaffold run -f /ws/build/skaffold/skaffold_dev.yaml")
                     None).
Proof.
  split.
  - exact (run_uses_the_files_of_the_environment (staging_world [inl "y"]) "/ws" eq_refl).
  - vm_compute. reflexivity.
Defined.

(** * The organisation settings page *)

(** X25.  While the organisation is loading the page shows the loading
    text and nothing else, an error included; an error is shown by its text;
    the organisation is read only when there is neither.  The table, when
    shown, has the one row of the approvals setting, and its button says
    what a click does: the label is "Disable" exactly when the click asks to
    switch approvals off, which is exactly when they are on; the click names
    the organisation by its id. *)
Theorem OrgSettings_button_says_what_a_click_does (info : OrgSettings.OrgInfo) :
  (OrgSettings.loading info = true ->
   OrgSettings.OrgSettings info = OrgSettings.Returns (OrgSettings.Div "error" "Loading...")) /\
  (forall e, OrgSettings.loading info = false -> OrgSettings.error info = Some e ->
   OrgSettings.OrgSettings info = OrgSettings.Returns (OrgSettings.Div "error" e)) /\
  (OrgSettings.OrgSettings info = OrgSettings.TypeError
   <-> OrgSettings.loading info = false /\ OrgSettings.error info = None /\
       OrgSettings.org info = None) /\
  (forall head body,
     OrgSettings.OrgSettings info = OrgSettings.Returns (OrgSettings.Table head body) ->
     exists o r,
       OrgSettings.org info = Some o /\ body = [r] /\
       OrgSettings.row_key r = "approvals" /\
       OrgSettings.update_id (OrgSettings.onClick r) = OrgSettings.id o /\
       OrgSettings.update_enableApprovals (OrgSettings.onClick r)
       = negb (OrgSettings.enableApprovals o) /\
       (OrgSettings.button_label r = "Disable"
        <-> OrgSettings.update_enableApprovals (OrgSettings.onClick r) = false) /\
       (OrgSettings.button_label r = "Enable"
        <-> OrgSettings.update_enableApprovals (OrgSettings.onClick r) = true)).
Proof.
  unfold OrgSettings.OrgSettings.
  destruct info as [o l e]; simpl. split_and!.
  - intros ->. reflexivity.
  - intros e' -> ->. reflexivity.
  - destruct l; [split; [discriminate | intros (H & _); discriminate H]|].
    destruct e as [e'|]; [split; [discriminate | intros (_ & H & _); discriminate H]|].
    destruct o as [[i b]|]; [split; [discriminate | intros (_ & _ & H); discriminate H]|].
    split; auto.
  - intros head body H. destruct l; [discriminate H|]. destruct e; [discriminate H|].
    destruct o as [[i b]|]; [|discriminate H].
    injection H as <- <-. eexists _, _. split_and!; try reflexivity;
      destruct b; simpl; split; intros H; try reflexivity; discriminate H.
Qed.
